(** * ghostty-web: the WebSocket endpoint and PTY session bridge

    A shallow embedding of [bin/ghostty-web.js] (the launcher with its
    hand-written WebSocket codec, class [MinimalWebSocket], the PTY session
    handler, the HTTP server and its upgrade handler), of the session
    handlers of [demo/server/pty-server.ts] and of the link detector and
    the OSC 8 link provider of [lib/link-detector.ts], followed by the
    properties proved of them.

    Conventions.
    - A Node [Buffer] is a list of bytes, each an [N] below 256.
    - A JavaScript string is the list of its UTF-16 code units.
    - Calls made on the socket, on the child process and on the session
      tables are recorded, in order, as a list of [Effect]s. A write on a
      Node stream returns (a failure is reported later, through an event),
      so the recorded calls themselves do not throw. Console output
      ([console.log], [console.error]) is not part of the record. *)

From Stdlib Require Import String Ascii.
From Stdlib Require Import NArith ZArith List Lia Bool DecimalString.
From Stdlib Require DecimalN DecimalPos DecimalFacts.
From Equations Require Import Equations.
Import ListNotations.
Open Scope N_scope.

(* ===================================================================== *)
(** * Buffers and strings *)
(* ===================================================================== *)

Definition Buffer := list N.
Definition JSString := list N.

Definition is_byte (b : N) : Prop := b < 256.
Definition bytes (b : Buffer) : Prop := Forall is_byte b.

(** [buffer.length] *)
Definition buf_len (b : Buffer) : N := N.of_nat (length b).

(** [buffer[i]], read inside the buffer *)
Definition buf_get (b : Buffer) (i : nat) : N := nth i b 0.

(** [buffer.slice(start, end)] and [buffer.slice(start)]; Node clamps both
    indices to the buffer, as [skipn] and [firstn] do. *)
Definition slice (b : Buffer) (start stop : N) : Buffer :=
  firstn (N.to_nat (stop - start)) (skipn (N.to_nat start) b).
Definition slice_from (b : Buffer) (start : N) : Buffer :=
  skipn (N.to_nat start) b.

(** Big-endian integers: [readUInt16BE], [readBigUInt64BE],
    [writeUInt16BE], [writeBigUInt64BE]. *)
Definition be_value (l : Buffer) : N :=
  fold_left (fun acc b => acc * 256 + b) l 0.

Fixpoint be_bytes (n : nat) (v : N) : Buffer :=
  match n with
  | O => []
  | S k => (v / 256 ^ N.of_nat k) mod 256 :: be_bytes k v
  end.

Definition readUInt16BE (b : Buffer) (off : N) : N := be_value (slice b off (off + 2)).
Definition readBigUInt64BE (b : Buffer) (off : N) : N := be_value (slice b off (off + 8)).
Definition writeUInt16BE (v : N) : Buffer := be_bytes 2 v.
Definition writeBigUInt64BE (v : N) : Buffer := be_bytes 8 v.

(** A string literal of the source, as code units (ASCII text only). *)
Definition js (s : string) : JSString :=
  map N_of_ascii (list_ascii_of_string s).

Definition CR : N := 13.
Definition LF : N := 10.
Definition ESC : N := 27.
Definition BEL : N := 7.
Definition CRLF : JSString := [CR; LF].

(* ===================================================================== *)
(** * Node built-ins used by the launcher *)
(* ===================================================================== *)

Module Node.

(** ** UTF-8 *)

(** UTF-16 code units of one code point. *)
Definition utf16_units (cp : N) : list N :=
  if cp <? 0x10000 then [cp]
  else [0xD800 + N.shiftr (cp - 0x10000) 10; 0xDC00 + N.land (cp - 0x10000) 0x3FF].

(** UTF-8 bytes of one code point. *)
Definition utf8_units (cp : N) : list N :=
  if cp <? 0x80 then [cp]
  else if cp <? 0x800 then
    [N.lor 0xC0 (N.shiftr cp 6); N.lor 0x80 (N.land cp 0x3F)]
  else if cp <? 0x10000 then
    [N.lor 0xE0 (N.shiftr cp 12);
     N.lor 0x80 (N.land (N.shiftr cp 6) 0x3F);
     N.lor 0x80 (N.land cp 0x3F)]
  else
    [N.lor 0xF0 (N.shiftr cp 18);
     N.lor 0x80 (N.land (N.shiftr cp 12) 0x3F);
     N.lor 0x80 (N.land (N.shiftr cp 6) 0x3F);
     N.lor 0x80 (N.land cp 0x3F)].

Definition is_high_surrogate (c : N) : bool := (0xD800 <=? c) && (c <? 0xDC00).
Definition is_low_surrogate (c : N) : bool := (0xDC00 <=? c) && (c <? 0xE000).

(** [Buffer.from(str, 'utf8')]: a surrogate pair is one code point, a lone
    surrogate is written as U+FFFD. *)
Fixpoint Buffer_from (str : JSString) : Buffer :=
  match str with
  | [] => []
  | c :: rest =>
    if is_high_surrogate c then
      match rest with
      | lo :: rest' =>
        if is_low_surrogate lo then
          utf8_units (0x10000 + N.shiftl (c - 0xD800) 10 + (lo - 0xDC00))
            ++ Buffer_from rest'
        else utf8_units 0xFFFD ++ Buffer_from rest
      | [] => utf8_units 0xFFFD
      end
    else if is_low_surrogate c then utf8_units 0xFFFD ++ Buffer_from rest
    else utf8_units c ++ Buffer_from rest
  end.

(** The decoder of [buf.toString('utf8')]: between characters ([None]) or
    inside one, with the code point so far, the continuation bytes still
    needed and the range allowed for the next byte. Every maximal ill-formed
    part is replaced by U+FFFD. *)
Record Pending : Type := mkPending {
  cp_acc : N;
  needed : N;
  lower : N;
  upper : N
}.

Definition decode_lead (b : N) : option Pending * list N :=
  if b <=? 0x7F then (None, [b])
  else if (0xC2 <=? b) && (b <=? 0xDF) then
    (Some (mkPending (N.land b 0x1F) 1 0x80 0xBF), [])
  else if (0xE0 <=? b) && (b <=? 0xEF) then
    (Some (mkPending (N.land b 0x0F) 2
             (if b =? 0xE0 then 0xA0 else 0x80)
             (if b =? 0xED then 0x9F else 0xBF)), [])
  else if (0xF0 <=? b) && (b <=? 0xF4) then
    (Some (mkPending (N.land b 0x07) 3
             (if b =? 0xF0 then 0x90 else 0x80)
             (if b =? 0xF4 then 0x8F else 0xBF)), [])
  else (None, [0xFFFD]).

Definition decode_step (st : option Pending) (b : N) : option Pending * list N :=
  match st with
  | None => decode_lead b
  | Some p =>
    if (lower p <=? b) && (b <=? upper p) then
      let cp := N.lor (N.shiftl (cp_acc p) 6) (N.land b 0x3F) in
      if needed p =? 1 then (None, utf16_units cp)
      else (Some (mkPending cp (needed p - 1) 0x80 0xBF), [])
    else
      let (st', out) := decode_lead b in (st', 0xFFFD :: out)
  end.

Fixpoint decode_from (st : option Pending) (buf : Buffer) : JSString :=
  match buf with
  | [] => match st with None => [] | Some _ => [0xFFFD] end
  | b :: rest =>
    let (st', out) := decode_step st b in out ++ decode_from st' rest
  end.

(** [buf.toString()], [buf.toString('utf8')] *)
Definition toString (buf : Buffer) : JSString := decode_from None buf.

(** ** SHA-1 ([crypto.createHash('sha1')]) *)

Definition w32 (x : N) : N := N.land x 0xFFFFFFFF.
Definition rotl (n x : N) : N := w32 (N.lor (N.shiftl x n) (N.shiftr x (32 - n))).
Definition add32 (x y : N) : N := w32 (x + y).
Definition not32 (x : N) : N := N.lxor x 0xFFFFFFFF.

(** The message followed by the bit 1, zeros up to 56 modulo 64 bytes, and
    the length in bits on 64 bits. *)
Definition sha1_pad (msg : Buffer) : Buffer :=
  let len := buf_len msg in
  msg ++ [0x80] ++ repeat 0 (N.to_nat ((119 - len mod 64) mod 64))
      ++ be_bytes 8 (8 * len).

Fixpoint groups (size count : nat) (l : list N) : list (list N) :=
  match count with
  | O => []
  | S k => firstn size l :: groups size k (skipn size l)
  end.

Definition block_words (block : Buffer) : list N :=
  map be_value (groups 4 16 block).

(** The message schedule, newest word first. *)
Fixpoint schedule (n : nat) (w : list N) : list N :=
  match n with
  | O => w
  | S k =>
    schedule k
      (rotl 1 (N.lxor (N.lxor (nth 2 w 0) (nth 7 w 0))
                      (N.lxor (nth 13 w 0) (nth 15 w 0))) :: w)
  end.

Definition sha1_f (t : nat) (b c d : N) : N :=
  if Nat.ltb t 20 then N.lor (N.land b c) (N.land (not32 b) d)
  else if Nat.ltb t 40 then N.lxor (N.lxor b c) d
  else if Nat.ltb t 60 then N.lor (N.lor (N.land b c) (N.land b d)) (N.land c d)
  else N.lxor (N.lxor b c) d.

Definition sha1_k (t : nat) : N :=
  if Nat.ltb t 20 then 0x5A827999
  else if Nat.ltb t 40 then 0x6ED9EBA1
  else if Nat.ltb t 60 then 0x8F1BBCDC
  else 0xCA62C1D6.

Definition Sha1State : Type := (N * N * N * N * N)%type.

Definition sha1_round (s : Sha1State) (tw : nat * N) : Sha1State :=
  let '(a, b, c, d, e) := s in
  let (t, w) := tw in
  let temp := add32 (add32 (add32 (add32 (rotl 5 a) (sha1_f t b c d)) e) (sha1_k t)) w in
  (temp, a, rotl 30 b, c, d).

Definition sha1_block (h : Sha1State) (block : Buffer) : Sha1State :=
  let w := rev (schedule 64 (rev (block_words block))) in
  let '(a, b, c, d, e) := fold_left sha1_round (combine (seq 0 80) w) h in
  let '(h0, h1, h2, h3, h4) := h in
  (add32 h0 a, add32 h1 b, add32 h2 c, add32 h3 d, add32 h4 e).

Definition sha1_init : Sha1State :=
  (0x67452301, 0xEFCDAB89, 0x98BADCFE, 0x10325476, 0xC3D2E1F0).

Definition sha1 (msg : Buffer) : Buffer :=
  let padded := sha1_pad msg in
  let '(h0, h1, h2, h3, h4) :=
    fold_left sha1_block (groups 64 (Nat.div (length padded) 64) padded) sha1_init in
  be_bytes 4 h0 ++ be_bytes 4 h1 ++ be_bytes 4 h2 ++ be_bytes 4 h3 ++ be_bytes 4 h4.

(** ** Base64 ([digest('base64')]) *)

Definition base64_alphabet : JSString :=
  js "ABCDEFGHIJKLMNOPQRSTUVWXYZabcdefghijklmnopqrstuvwxyz0123456789+/".

Definition b64 (i : N) : N := nth (N.to_nat i) base64_alphabet 0.

Fixpoint base64 (data : Buffer) : JSString :=
  match data with
  | [] => []
  | [a] =>
    [b64 (N.shiftr a 2); b64 (N.shiftl (N.land a 3) 4); 61; 61]
  | [a; b] =>
    [b64 (N.shiftr a 2);
     b64 (N.lor (N.shiftl (N.land a 3) 4) (N.shiftr b 4));
     b64 (N.shiftl (N.land b 15) 2); 61]
  | a :: b :: c :: rest =>
    b64 (N.shiftr a 2)
    :: b64 (N.lor (N.shiftl (N.land a 3) 4) (N.shiftr b 4))
    :: b64 (N.lor (N.shiftl (N.land b 15) 2) (N.shiftr c 6))
    :: b64 (N.land c 63)
    :: base64 rest
  end.

(** [crypto.createHash('sha1').update(str).digest('base64')]; [update]
    takes the UTF-8 bytes of a string. *)
Definition sha1_base64 (str : JSString) : JSString :=
  base64 (sha1 (Buffer_from str)).

End Node.

(* ===================================================================== *)
(** * Effects *)
(* ===================================================================== *)

(** What a handler does to the world, in the order of the calls. *)
Inductive Effect : Type :=
| Emit_message (data : JSString)        (* this.emit('message', data) *)
| Socket_write (data : Buffer)          (* socket.write(data) *)
| Socket_end (data : Buffer)            (* socket.end(data), socket.end() *)
| Stdin_write (data : JSString)         (* ptyProcess.stdin.write(data) *)
| Process_kill                          (* ptyProcess.kill() *)
| Spawn_session (url : JSString)        (* handlePTYSession(ws, req) *)
| ActiveSessions_add                    (* activeSessions.add(socket) *)
| Ws_send (data : JSString)             (* Bun: ws.send(data) *)
| Ws_close                              (* Bun: ws.close() *)
| Sessions_delete.                      (* sessions.delete(ws) *)

(** Handlers that can throw: the calls made so far, and how the body ended. *)
Inductive Outcome (A : Type) : Type :=
| Returned (a : A)
| Thrown.
Arguments Returned {A} a.
Arguments Thrown {A}.

Definition M (A : Type) : Type := (list Effect * Outcome A)%type.

Definition ret {A} (a : A) : M A := ([], Returned a).
Definition throw {A} : M A := ([], Thrown).
Definition perform (e : Effect) : M unit := ([e], Returned tt).
Definition bind {A B} (m : M A) (k : A -> M B) : M B :=
  match m with
  | (es, Returned a) => let (es', r) := k a in (es ++ es', r)
  | (es, Thrown) => (es, Thrown)
  end.
(** [try { body } catch { handler }] *)
Definition try_catch {A} (body handler : M A) : M A :=
  match body with
  | (es, Returned a) => (es, Returned a)
  | (es, Thrown) => let (es', r) := handler in (es ++ es', r)
  end.

Notation "x <- m ;; k" := (bind m (fun x => k))
  (at level 61, m at next level, right associativity).
Notation "m ;;; k" := (bind m (fun _ => k))
  (at level 61, right associativity).

(* ===================================================================== *)
(** * MinimalWebSocket: the frame codec *)
(* ===================================================================== *)

Record Frame : Type := mkFrame {
  fin : bool;
  opcode : N;
  payload : Buffer
}.

(** A store into a Buffer element keeps the low eight bits. *)
Definition u8 (v : N) : N := N.land v 255.

(** The unmasking loop of [parseFrame]:
    [payload[i] = maskedPayload[i] ^ mask[i % 4]] for [i < payloadLen]. *)
Definition unmask (mask maskedPayload : Buffer) (payloadLen : N) : Buffer :=
  map (fun i => u8 (N.lxor (buf_get maskedPayload i) (buf_get mask (Nat.modulo i 4))))
      (seq 0 (N.to_nat payloadLen)).

(** [parseFrame()]: [None] is the source's [null] (the buffer is left as it
    is); otherwise the frame and the buffer after the frame was consumed.

    [Number(readBigUInt64BE(2))] is taken exactly. A double is exact below
    2^53, and a value of 2^53 or more stays at least 2^53 after rounding,
    which is more than any Buffer holds, so the source returns [null] there
    as this function does. *)
Definition parseFrame (buffer : Buffer) : option (Frame * Buffer) :=
  if buf_len buffer <? 2 then None else
  let byte1 := buf_get buffer 0 in
  let byte2 := buf_get buffer 1 in
  let fin := negb (N.land byte1 0x80 =? 0) in
  let opcode := N.land byte1 0x0f in
  let masked := negb (N.land byte2 0x80 =? 0) in
  let payloadLen := N.land byte2 0x7f in
  let extended :=
    if payloadLen =? 126 then
      if buf_len buffer <? 4 then None
      else Some (readUInt16BE buffer 2, 4)
    else if payloadLen =? 127 then
      if buf_len buffer <? 10 then None
      else Some (readBigUInt64BE buffer 2, 10)
    else Some (payloadLen, 2) in
  match extended with
  | None => None
  | Some (payloadLen, offset) =>
    let maskLen := if masked then 4 else 0 in
    let totalLen := offset + maskLen + payloadLen in
    if buf_len buffer <? totalLen then None else
    let payload :=
      if masked then
        unmask (slice buffer offset (offset + 4))
               (slice buffer (offset + 4) totalLen) payloadLen
      else slice buffer offset totalLen in
    Some (mkFrame fin opcode payload, slice_from buffer totalLen)
  end.

(** The frame built by [send(data)] from the payload
    [Buffer.from(data, 'utf8')]. *)
Definition send_frame (payload : Buffer) : Buffer :=
  let len := buf_len payload in
  if len <? 126 then 0x81 :: u8 len :: payload
  else if len <? 65536 then 0x81 :: 126 :: writeUInt16BE len ++ payload
  else 0x81 :: 127 :: writeBigUInt64BE len ++ payload.

(** [send(data)]; the [try] around [socket.write] has nothing to catch. *)
Definition send (data : JSString) : list Effect :=
  [Socket_write (send_frame (Node.Buffer_from data))].

(** The frame built by [sendPong(data)]. *)
Definition pong_frame (data : Buffer) : Buffer :=
  let len := buf_len data in
  0x8a :: u8 len :: data.

Definition sendPong (data : Buffer) : list Effect :=
  [Socket_write (pong_frame data)].

(** [close()] *)
Definition close : list Effect :=
  [Socket_write [0x88; 0x00]; Socket_end []].

(** The body of the loop of [handleData] for one parsed frame: what it does,
    and whether the loop goes on ([false] is the [break] after a close
    frame). *)
Definition dispatch (frame : Frame) : list Effect * bool :=
  if opcode frame =? 0x01 then
    ([Emit_message (Node.toString (payload frame))], true)
  else if opcode frame =? 0x08 then (close, false)
  else if opcode frame =? 0x09 then (sendPong (payload frame), true)
  else ([], true).

Definition inspect {A} (a : A) : {b : A | a = b} := exist _ a eq_refl.

Lemma slice_from_length (b : Buffer) (n : N) :
  n <= buf_len b -> buf_len (slice_from b n) = buf_len b - n.
Proof.
  unfold buf_len, slice_from. intros H. rewrite length_skipn. lia.
Qed.

(** A parsed frame takes at least its two header bytes off the buffer. *)
Lemma parseFrame_shrinks (buffer : Buffer) (frame : Frame) (rest : Buffer) :
  parseFrame buffer = Some (frame, rest) -> (length rest < length buffer)%nat.
Proof.
  unfold parseFrame.
  destruct (buf_len buffer <? 2) eqn:H2; [discriminate|].
  apply N.ltb_ge in H2.
  set (ext := if N.land (buf_get buffer 1) 127 =? 126 then _ else _).
  assert (Hoff : forall l o, ext = Some (l, o) -> 2 <= o).
  { subst ext. intros l o.
    repeat match goal with |- context [if ?c then _ else _] => destruct c end;
      intros E; inversion E; lia. }
  destruct ext as [[l o]|]; [|discriminate].
  specialize (Hoff l o eq_refl).
  destruct (buf_len buffer <? _) eqn:Ht; [discriminate|].
  apply N.ltb_ge in Ht. intros E. inversion E; subst.
  pose proof (slice_from_length buffer _ Ht) as Hl.
  unfold buf_len in *. lia.
Qed.

(** The loop of [handleData]:
    [while (this.buffer.length >= 2) { frame = this.parseFrame();
     if (!frame) break; ... }]. It yields the buffer left and the calls
    made. *)
Equations? drain (buffer : Buffer) : Buffer * list Effect
  by wf (length buffer) lt :=
  drain buffer with inspect (2 <=? buf_len buffer) := {
    | exist _ false _ => (buffer, [])
    | exist _ true _ with inspect (parseFrame buffer) := {
      | exist _ None _ => (buffer, [])
      | exist _ (Some (frame, rest)) Hparse with inspect (dispatch frame) := {
        | exist _ (effects, false) _ => (rest, effects)
        | exist _ (effects, true) _ =>
          let r := drain rest in (fst r, effects ++ snd r) } } }.
Proof. eapply parseFrame_shrinks; eassumption. Qed.

(** [handleData(data)] on a connection whose receive buffer is [buffer]. *)
Definition handleData (buffer data : Buffer) : Buffer * list Effect :=
  drain (buffer ++ data).

(** A connection fed one arrival after the other. *)
Fixpoint feed (buffer : Buffer) (arrivals : list Buffer) : Buffer * list Effect :=
  match arrivals with
  | [] => (buffer, [])
  | data :: later =>
    let (buffer', effects) := handleData buffer data in
    let (buffer'', effects') := feed buffer' later in
    (buffer'', effects ++ effects')
  end.

(* ===================================================================== *)
(** * The title filter *)
(* ===================================================================== *)

(** [[^\x07]*\x07] from the start of [str]: what follows the first BEL. The
    star is greedy but a shorter run is always followed by a byte that is
    not BEL, so the match, if any, ends at the first BEL. *)
Fixpoint after_bel (str : JSString) : option JSString :=
  match str with
  | [] => None
  | c :: rest => if c =? BEL then Some rest else after_bel rest
  end.

(** [/\x1b\]d;[^\x07]*\x07/] matched at the start of [str], for the digit
    [d]: what follows the match. *)
Definition match_osc (d : N) (str : JSString) : option JSString :=
  match str with
  | c0 :: c1 :: c2 :: c3 :: body =>
    if (c0 =? ESC) && (c1 =? 93) && (c2 =? d) && (c3 =? 59)
    then after_bel body else None
  | _ => None
  end.

Lemma after_bel_shorter (str rest : JSString) :
  after_bel str = Some rest -> (length rest < length str)%nat.
Proof.
  revert rest. induction str as [|c str IH]; simpl; intros rest H.
  - discriminate.
  - destruct (c =? BEL).
    + inversion H; subst. lia.
    + specialize (IH _ H). lia.
Qed.

Lemma match_osc_shorter (d : N) (str rest : JSString) :
  match_osc d str = Some rest -> (length rest < length str)%nat.
Proof.
  destruct str as [|c0 [|c1 [|c2 [|c3 body]]]]; simpl; try discriminate.
  destruct (_ && _); [|discriminate].
  intros H. apply after_bel_shorter in H. lia.
Qed.

(** [str.replace(/\x1b\]d;[^\x07]*\x07/g, '')]: the string is scanned from
    the left; where the pattern matches, the match is dropped and the scan
    goes on after it; elsewhere the code unit is kept. *)
Equations? replace_osc (d : N) (str : JSString) : JSString
  by wf (length str) lt :=
  replace_osc d [] := [];
  replace_osc d (c :: rest) with inspect (match_osc d (c :: rest)) := {
    | exist _ (Some after) _ => replace_osc d after
    | exist _ None _ => c :: replace_osc d rest }.
Proof. exact (match_osc_shorter d (c :: rest) after e). Qed.

(** The three [replace] calls of the stdout handler: OSC 0, then OSC 1, then
    OSC 2 (the digits are the characters 0, 1 and 2). *)
Definition strip_titles (str : JSString) : JSString :=
  replace_osc 50 (replace_osc 49 (replace_osc 48 str)).

(* ===================================================================== *)
(** * JSON values *)
(* ===================================================================== *)

#[warnings="-register-all"]
Inductive JSValue (Number : Type) : Type :=
| JNull
| JBool (b : bool)
| JNumber (n : Number)
| JString (s : JSString)
| JArray (items : list (JSValue Number))
| JObject (props : list (JSString * JSValue Number)).
Arguments JNull {Number}.
Arguments JBool {Number} b.
Arguments JNumber {Number} n.
Arguments JString {Number} s.
Arguments JArray {Number} items.
Arguments JObject {Number} props.

Fixpoint jsstring_eqb (a b : JSString) : bool :=
  match a, b with
  | [], [] => true
  | x :: a', y :: b' => (x =? y) && jsstring_eqb a' b'
  | _, _ => false
  end.

(** [str.startsWith(prefix)] *)
Fixpoint startsWith (str prefix : JSString) : bool :=
  match prefix, str with
  | [], _ => true
  | p :: prefix', c :: str' => (c =? p) && startsWith str' prefix'
  | _ :: _, [] => false
  end.

(** The own property [key] of an object built by [JSON.parse]: when the text
    repeats a key, the last value stands. *)
Fixpoint own_property {Number} (props : list (JSString * JSValue Number))
    (key : JSString) : option (JSValue Number) :=
  match props with
  | [] => None
  | (k, v) :: rest =>
    match own_property rest key with
    | Some v' => Some v'
    | None => if jsstring_eqb k key then Some v else None
    end
  end.

(** The decimal digits of a natural number. *)
Definition decimal (n : N) : JSString :=
  js (DecimalString.NilZero.string_of_uint (N.to_uint n)).

(* ===================================================================== *)
(** * bin/ghostty-web.js: the PTY session and the upgrade handler *)
(* ===================================================================== *)

(** ** handlePTYSession *)

Section Launcher.

(** [JSON.parse] and the conversions of numbers are the engine's; the
    handlers are given for any of them. [JSON_parse] yields [None] where
    [JSON.parse] throws a [SyntaxError]. *)
Variable Number : Type.
Variable Number_toString : Number -> JSString.
Variable Number_truthy : Number -> bool.
Variable JSON_parse : JSString -> option (JSValue Number).

Abbreviation Value := (JSValue Number).

(** [`${v}`] for a JSON value. *)
Fixpoint ToString (v : Value) : JSString :=
  match v with
  | JNull => js "null"
  | JBool b => if b then js "true" else js "false"
  | JNumber n => Number_toString n
  | JString s => s
  | JArray items =>
    (fix join (l : list Value) : JSString :=
       match l with
       | [] => []
       | x :: rest =>
         match x with JNull => [] | _ => ToString x end
           ++ match rest with [] => [] | _ :: _ => js "," ++ join rest end
       end) items
  | JObject _ => js "[object Object]"
  end.

(** [`${msg.cols}`]: a missing property is [undefined]. *)
Definition template (v : option Value) : JSString :=
  match v with
  | None => js "undefined"
  | Some v => ToString v
  end.

(** The truth value of [msg] in [msg && ...]. *)
Definition truthy (v : Value) : bool :=
  match v with
  | JNull => false
  | JBool b => b
  | JNumber n => Number_truthy n
  | JString s => negb (jsstring_eqb s [])
  | JArray _ | JObject _ => true
  end.

Definition typeof (v : Value) : JSString :=
  match v with
  | JNull => js "object"
  | JBool _ => js "boolean"
  | JNumber _ => js "number"
  | JString _ => js "string"
  | JArray _ | JObject _ => js "object"
  end.

(** [msg.key] for the keys read by the handlers ([type], [cols], [rows]),
    none of which a prototype defines: [undefined] ([None]) unless the
    object has it; reading a property of [null] throws. *)
Definition get_prop (v : Value) (key : JSString) : M (option Value) :=
  match v with
  | JNull => throw
  | JObject props => ret (own_property props key)
  | _ => ret None
  end.

(** [x === 'literal'] *)
Definition is_string (v : option Value) (literal : JSString) : bool :=
  match v with
  | Some (JString s) => jsstring_eqb s literal
  | _ => false
  end.

Definition parse (data : JSString) : M Value :=
  match JSON_parse data with
  | Some v => ret v
  | None => throw
  end.

(** [ptyProcess.stdout.on('data', ...)] *)
Definition stdout_on_data (data : Buffer) : M unit :=
  try_catch
    (let str := Node.toString data in
     let str := strip_titles str in
     (send str, Returned tt))
    (ret tt).

(** [ptyProcess.stderr.on('data', ...)]. The template of the source is
    [`\\x1b[31m${data.toString()}\\x1b[0m`]: a doubled backslash in a
    template is one backslash character. *)
Definition stderr_on_data (data : Buffer) : M unit :=
  try_catch
    (send (js "\x1b[31m" ++ Node.toString data ++ js "\x1b[0m"), Returned tt)
    (ret tt).

(** [ws.on('message', ...)]. The first [try] block ends the handler when it
    has handled a resize message ([true] below). *)
Definition ws_on_message (data : JSString) : M unit :=
  handled <-
    try_catch
      (msg <- parse data ;;
       if truthy msg then
         if jsstring_eqb (typeof msg) (js "object") then
           type <- get_prop msg (js "type") ;;
           if is_string type (js "resize") then
             cols <- get_prop msg (js "cols") ;;
             rows <- get_prop msg (js "rows") ;;
             perform (Stdin_write (js "stty cols " ++ template cols
                                     ++ js " rows " ++ template rows ++ [LF])) ;;;
             ret true
           else ret false
         else ret false
       else ret false)
      (ret false) ;;
  if handled then ret tt
  else try_catch (perform (Stdin_write data)) (ret tt).

(** [ws.on('close', ...)] *)
Definition ws_on_close : M unit :=
  try_catch (perform Process_kill) (ret tt).

(** [ptyProcess.on('exit', () => ...)]: the exit code is not looked at. *)
Definition ptyProcess_on_exit : M unit :=
  try_catch (close, Returned tt) (ret tt).

End Launcher.

Arguments ToString {Number} Number_toString v.
Arguments template {Number} Number_toString v.
Arguments truthy {Number} Number_truthy v.
Arguments typeof {Number} v.
Arguments get_prop {Number} v key.
Arguments is_string {Number} v literal.
Arguments parse {Number} JSON_parse data.
Arguments ws_on_message {Number} Number_toString Number_truthy JSON_parse data.

(** ** The upgrade event *)

Record Request : Type := mkRequest {
  url : JSString;
  sec_websocket_key : option JSString   (* req.headers['sec-websocket-key'] *)
}.

Definition GUID : JSString := js "258EAFA5-E914-47DA-95CA-C5AB0DC85B11".

Definition switching_protocols (hash : JSString) : JSString :=
  js "HTTP/1.1 101 Switching Protocols" ++ CRLF
  ++ js "Upgrade: websocket" ++ CRLF
  ++ js "Connection: Upgrade" ++ CRLF
  ++ js "Sec-WebSocket-Accept: " ++ hash ++ CRLF ++ CRLF.

Definition bad_request : JSString := js "HTTP/1.1 400 Bad Request" ++ CRLF ++ CRLF.
Definition not_found : JSString := js "HTTP/1.1 404 Not Found" ++ CRLF ++ CRLF.

(** [server.on('upgrade', (req, socket, head) => ...)], the listener that
    answers the request. *)
Definition server_on_upgrade (req : Request) : list Effect :=
  if startsWith (url req) (js "/ws") then
    match sec_websocket_key req with
    | None | Some [] =>                                  (* !key *)
      [Socket_end (Node.Buffer_from bad_request)]
    | Some key =>
      let hash := Node.sha1_base64 (key ++ GUID) in
      [Socket_write (Node.Buffer_from (switching_protocols hash));
       Spawn_session (url req)]
    end
  else [Socket_end (Node.Buffer_from not_found)].

(** The second listener of the same event, registered after the first: the
    socket of every upgrade request is kept in [activeSessions] until it
    closes. *)
Definition track_upgrade : list Effect := [ActiveSessions_add].

(** The upgrade event: both listeners, in the order of their
    registration. *)
Definition upgrade_event (req : Request) : list Effect :=
  server_on_upgrade req ++ track_upgrade.

(* ===================================================================== *)
(** * demo/server/pty-server.ts: the session handlers *)
(* ===================================================================== *)

Module Demo.
Section Handlers.

Variable Number : Type.
Variable JSON_parse : JSString -> option (JSValue Number).

(** [shell.stdout.on('data', ...)]; [createShell] has called
    [setEncoding('utf8')], so [data] arrives as a string. *)
Definition stdout_on_data (data : JSString) : M unit :=
  let str := strip_titles data in
  try_catch (perform (Ws_send str)) (ret tt).

(** [shell.stderr.on('data', ...)] *)
Definition stderr_on_data (data : JSString) : M unit :=
  try_catch
    (perform (Ws_send ([ESC] ++ js "[31m" ++ data ++ [ESC] ++ js "[0m")))
    (ret tt).

(** The notice of [shell.on('exit', ...)]; [code] is [null] ([None]) when a
    signal ended the process. *)
Definition exit_notice (code : option N) : JSString :=
  CRLF ++ [ESC] ++ js "[1;33mShell session ended (exit code: "
  ++ match code with Some n => decimal n | None => js "null" end
  ++ js ")" ++ [ESC] ++ js "[0m" ++ CRLF.

(** [shell.on('exit', ...)] *)
Definition shell_on_exit (code : option N) : M unit :=
  try_catch (perform (Ws_send (exit_notice code)) ;;; perform Ws_close) (ret tt) ;;;
  perform Sessions_delete.

(** [websocket.message]; [has_session] tells whether [sessions.get(ws)]
    finds the session of the connection. A resize message is logged and
    dropped. The outer [catch] reports to the client the message of what
    was thrown. *)
Variable error_message : JSString.

Definition message (has_session : bool) (input : JSString) : M unit :=
  if negb has_session then
    perform (Ws_send (CRLF ++ [ESC] ++ js "[31mError: Session not found"
                      ++ [ESC] ++ js "[0m" ++ CRLF))
  else
    try_catch
      (handled <-
         (if startsWith input (js "{") then
            try_catch
              (msg <- parse JSON_parse input ;;
               type <- get_prop msg (js "type") ;;
               if is_string type (js "resize") then ret true else ret false)
              (ret false)
          else ret false) ;;
       if handled then ret tt else perform (Stdin_write input))
      (perform (Ws_send (CRLF ++ [ESC] ++ js "[31mError: " ++ error_message
                         ++ [ESC] ++ js "[0m" ++ CRLF))).

End Handlers.

Arguments message {Number} JSON_parse error_message has_session input.

End Demo.

(* ===================================================================== *)
(** * A JSON reader *)
(* ===================================================================== *)

(** An instance of [JSON_parse] to run the handlers on concrete messages: a
    reader of the JSON grammar (ECMA-404) that keeps every number as the
    text of its literal. Printing the literal back is what [`${n}`] gives
    for an integer literal in canonical form below 2^53, which is what the
    resize messages of the client carry. *)
Module Json.

Definition Lexeme : Type := JSString.
Definition Value : Type := JSValue Lexeme.

Definition is_ws (c : N) : bool :=
  (c =? 32) || (c =? 9) || (c =? 10) || (c =? 13).

Fixpoint skip_ws (s : JSString) : JSString :=
  match s with
  | c :: r => if is_ws c then skip_ws r else s
  | [] => []
  end.

Definition is_digit (c : N) : bool := (48 <=? c) && (c <=? 57).

Definition hex_digit (c : N) : option N :=
  if is_digit c then Some (c - 48)
  else if (97 <=? c) && (c <=? 102) then Some (c - 87)
  else if (65 <=? c) && (c <=? 70) then Some (c - 55)
  else None.

Definition hex4 (a b c d : N) : option N :=
  match hex_digit a, hex_digit b, hex_digit c, hex_digit d with
  | Some x, Some y, Some z, Some w => Some (((x * 16 + y) * 16 + z) * 16 + w)
  | _, _, _, _ => None
  end.

(** The character of a one-letter escape. *)
Definition escape (e : N) : option N :=
  if e =? 34 then Some 34            (* quotation mark *)
  else if e =? 92 then Some 92       (* reverse solidus *)
  else if e =? 47 then Some 47       (* solidus *)
  else if e =? 98 then Some 8        (* b: backspace *)
  else if e =? 102 then Some 12      (* f: form feed *)
  else if e =? 110 then Some 10      (* n: line feed *)
  else if e =? 114 then Some 13      (* r: carriage return *)
  else if e =? 116 then Some 9       (* t: tab *)
  else None.

(** The characters of a string after its opening quote, up to the closing
    one. *)
Fixpoint read_chars (s : JSString) (acc : JSString) : option (JSString * JSString) :=
  match s with
  | [] => None
  | c :: r =>
    if c =? 34 then Some (rev acc, r)
    else if c =? 92 then
      match r with
      | [] => None
      | e :: r1 =>
        if e =? 117 then
          match r1 with
          | h1 :: h2 :: h3 :: h4 :: r2 =>
            match hex4 h1 h2 h3 h4 with
            | Some u => read_chars r2 (u :: acc)
            | None => None
            end
          | _ => None
          end
        else
          match escape e with
          | Some ch => read_chars r1 (ch :: acc)
          | None => None
          end
      end
    else if c <? 32 then None
    else read_chars r (c :: acc)
  end.

Fixpoint span_digits (s : JSString) : JSString * JSString :=
  match s with
  | c :: r =>
    if is_digit c then let (ds, rest) := span_digits r in (c :: ds, rest)
    else ([], s)
  | [] => ([], [])
  end.

(** [-? int frac? exp?] *)
Definition read_number (s : JSString) : option (Lexeme * JSString) :=
  let (sign, s1) :=
    match s with
    | c :: r => if c =? 45 then ([45], r) else ([], s)
    | [] => ([], s)
    end in
  let (int, s2) := span_digits s1 in
  match int with
  | [] => None
  | d :: more =>
    if (d =? 48) && negb (Nat.eqb (length more) 0) then None else
    let frac :=
      match s2 with
      | c :: r =>
        if c =? 46 then
          let (ds, rest) := span_digits r in
          match ds with [] => None | _ => Some (c :: ds, rest) end
        else Some ([], s2)
      | [] => Some ([], s2)
      end in
    match frac with
    | None => None
    | Some (fr, s3) =>
      let exp :=
        match s3 with
        | c :: r =>
          if (c =? 101) || (c =? 69) then
            let (sg, r1) :=
              match r with
              | c1 :: r' => if (c1 =? 43) || (c1 =? 45) then ([c1], r') else ([], r)
              | [] => ([], r)
              end in
            let (ds, rest) := span_digits r1 in
            match ds with [] => None | _ => Some (c :: sg ++ ds, rest) end
          else Some ([], s3)
        | [] => Some ([], s3)
        end in
      match exp with
      | None => None
      | Some (ex, s4) => Some (sign ++ int ++ fr ++ ex, s4)
      end
    end
  end.

Fixpoint read_value (fuel : nat) (s : JSString) : option (Value * JSString) :=
  match fuel with
  | O => None
  | S fuel' =>
    match skip_ws s with
    | [] => None
    | c :: r =>
      if c =? 123 then
        match skip_ws r with
        | c' :: r' =>
          if c' =? 125 then Some (JObject [], r') else read_members fuel' r []
        | [] => None
        end
      else if c =? 91 then
        match skip_ws r with
        | c' :: r' =>
          if c' =? 93 then Some (JArray [], r') else read_elements fuel' r []
        | [] => None
        end
      else if c =? 34 then
        match read_chars r [] with
        | Some (str, r') => Some (JString str, r')
        | None => None
        end
      else if startsWith (c :: r) (js "true") then Some (JBool true, skipn 4 (c :: r))
      else if startsWith (c :: r) (js "false") then Some (JBool false, skipn 5 (c :: r))
      else if startsWith (c :: r) (js "null") then Some (JNull, skipn 4 (c :: r))
      else
        match read_number (c :: r) with
        | Some (lexeme, r') => Some (JNumber lexeme, r')
        | None => None
        end
    end
  end
with read_elements (fuel : nat) (s : JSString) (acc : list Value)
    : option (Value * JSString) :=
  match fuel with
  | O => None
  | S fuel' =>
    match read_value fuel' s with
    | None => None
    | Some (v, r) =>
      match skip_ws r with
      | c :: r' =>
        if c =? 44 then read_elements fuel' r' (v :: acc)
        else if c =? 93 then Some (JArray (rev (v :: acc)), r')
        else None
      | [] => None
      end
    end
  end
with read_members (fuel : nat) (s : JSString) (acc : list (JSString * Value))
    : option (Value * JSString) :=
  match fuel with
  | O => None
  | S fuel' =>
    match skip_ws s with
    | [] => None
    | c :: r =>
      if c =? 34 then
        match read_chars r [] with
        | None => None
        | Some (key, r1) =>
          match skip_ws r1 with
          | [] => None
          | c1 :: r2 =>
            if c1 =? 58 then
              match read_value fuel' r2 with
              | None => None
              | Some (v, r3) =>
                match skip_ws r3 with
                | c3 :: r4 =>
                  if c3 =? 44 then read_members fuel' r4 ((key, v) :: acc)
                  else if c3 =? 125 then Some (JObject (rev ((key, v) :: acc)), r4)
                  else None
                | [] => None
                end
              end
            else None
          end
        end
      else None
    end
  end.

(** One value, then nothing but white space. The readers go one level
    down for a nested value and for the next element or member, each of
    which takes characters of the text: twice its length is more fuel than
    they use. *)
Definition parse (text : JSString) : option Value :=
  match read_value (2 * length text + 2)%nat text with
  | Some (v, rest) =>
    match skip_ws rest with
    | [] => Some v
    | _ :: _ => None
    end
  | None => None
  end.

Definition Number_toString (n : Lexeme) : JSString := n.

(** Zero (all mantissa digits 0) is false. *)
Definition Number_truthy (n : Lexeme) : bool :=
  let mantissa := fst (span_digits (match n with c :: r => if c =? 45 then r else n | [] => n end)) in
  existsb (fun c => negb (c =? 48)) mantissa.

(** Source text written with ['] for the double quote. *)
Definition text (s : string) : JSString :=
  map (fun c => if c =? 39 then 34 else c) (js s).

End Json.

(* ===================================================================== *)
(** * Vocabulary of the properties *)
(* ===================================================================== *)

(** ** Frames as the specification words them *)

(** The outbound encoding: first byte [0x80 | opcode] (FIN set); then the
    length, on one byte below 126, as 126 and sixteen bits below 65536, as
    127 and sixty-four bits otherwise, most significant byte first; then the
    payload. *)
Definition encode (opcode : N) (payload : Buffer) : Buffer :=
  let len := buf_len payload in
  N.lor 0x80 opcode
  :: (if len <? 126 then [len]
      else if len <? 65536 then 126 :: be_bytes 2 len
      else 127 :: be_bytes 8 len)
  ++ payload.

(** What a client puts on the wire for the same payload (RFC 6455, 5.2 and
    5.3): the MASK bit is set in the second byte, the four bytes of the
    masking key follow the length, and byte [i] of the payload is XORed with
    byte [i mod 4] of the key. *)
Definition mask_payload (key payload : Buffer) : Buffer :=
  map (fun i => N.lxor (buf_get payload i) (buf_get key (Nat.modulo i 4)))
      (seq 0 (length payload)).

Definition client_frame (byte1 : N) (key payload : Buffer) : Buffer :=
  let len := buf_len payload in
  (if len <? 126 then [byte1; N.lor 0x80 len]
   else if len <? 65536 then byte1 :: N.lor 0x80 126 :: writeUInt16BE len
   else byte1 :: N.lor 0x80 127 :: writeBigUInt64BE len)
  ++ key ++ mask_payload key payload.

(** How the length announced by a frame is written after its first byte:
    the low seven bits of the second byte and the extended length. *)
Definition announces (b2 : N) (ext : Buffer) (plen : N) : Prop :=
  (N.land b2 0x7f = 126 /\ length ext = 2%nat /\ be_value ext = plen)
  \/ (N.land b2 0x7f = 127 /\ length ext = 8%nat /\ be_value ext = plen)
  \/ (N.land b2 0x7f = plen /\ plen < 126 /\ ext = []).

(** The first steps of [parseFrame]: the length the header announces and
    where the mask key or the payload starts, once the buffer holds them. *)
Definition announced (buffer : Buffer) : option (N * N) :=
  if buf_len buffer <? 2 then None else
  let payloadLen := N.land (buf_get buffer 1) 0x7f in
  if payloadLen =? 126 then
    if buf_len buffer <? 4 then None else Some (readUInt16BE buffer 2, 4)
  else if payloadLen =? 127 then
    if buf_len buffer <? 10 then None else Some (readBigUInt64BE buffer 2, 10)
  else Some (payloadLen, 2).

(** The size of the frame a buffer starts with: header, extended length,
    mask key and announced payload. *)
Definition frame_size (buffer : Buffer) : option N :=
  match announced buffer with
  | None => None
  | Some (payloadLen, offset) =>
    Some (offset + (if negb (N.land (buf_get buffer 1) 0x80 =? 0) then 4 else 0)
          + payloadLen)
  end.

(** A PING frame that carries 126 bytes. *)
Definition ping_payload : Buffer := repeat 0x41 126.
Definition long_ping : Buffer := 0x89 :: 126 :: 0 :: 126 :: ping_payload.

(** ** Text and its encodings *)

(** A Unicode scalar value: a code point that is not a surrogate. *)
Definition is_scalar (cp : N) : bool :=
  (cp <? 0xD800) || ((0xE000 <=? cp) && (cp <? 0x110000)).

Definition well_formed (text : list N) : Prop :=
  Forall (fun cp => is_scalar cp = true) text.

Definition utf8_of (text : list N) : Buffer := flat_map Node.utf8_units text.
Definition utf16_of (text : list N) : JSString := flat_map Node.utf16_units text.

(** A chunk that is the UTF-8 form of some text. *)
Definition valid_utf8 (chunk : Buffer) : Prop :=
  exists text, well_formed text /\ chunk = utf8_of text.

(** The decoder run over some bytes: the state reached and the output. *)
Fixpoint decode_run (st : option Node.Pending) (buf : Buffer)
    : option Node.Pending * JSString :=
  match buf with
  | [] => (st, [])
  | b :: rest =>
    let (st', out) := Node.decode_step st b in
    let (st'', out') := decode_run st' rest in
    (st'', out ++ out')
  end.

(** The decoder, run from the initial state over the first bytes of a
    character, is inside the character with [acc] read so far, [need]
    continuation bytes to come and any continuation byte allowed next. *)
Definition reaches (lead : Buffer) (acc need : N) : bool :=
  match decode_run None lead with
  | (Some p, []) =>
    (Node.cp_acc p =? acc) && (Node.needed p =? need)
    && (Node.lower p =? 0x80) && (Node.upper p =? 0xBF)
  | _ => false
  end.

(** [P] on every number below [n], by iteration. *)
Definition all_below (n : positive) (P : N -> bool) : bool :=
  snd (Pos.iter (fun s : N * bool => (N.succ (fst s), snd s && P (fst s)))
                (0, true) n).

Definition below_256 : list N := map N.of_nat (seq 0 256).

(** ** The title filter as the specification words it *)

(** A title sequence at the start of [str]: ESC ] 0 ;, ESC ] 1 ; or
    ESC ] 2 ; and everything up to the next BEL. *)
Definition match_title (str : list N) : option (list N) :=
  match match_osc 48 str with
  | Some after => Some after
  | None =>
    match match_osc 49 str with
    | Some after => Some after
    | None => match_osc 50 str
    end
  end.

Lemma match_title_shorter (str rest : list N) :
  match_title str = Some rest -> (length rest < length str)%nat.
Proof.
  unfold match_title.
  destruct (match_osc 48 str) eqn:E0.
  - intros H; inversion H; subst. exact (match_osc_shorter 48 str rest E0).
  - destruct (match_osc 49 str) eqn:E1.
    + intros H; inversion H; subst. exact (match_osc_shorter 49 str rest E1).
    + exact (match_osc_shorter 50 str rest).
Qed.

(** The chunk with every title sequence removed and all other bytes
    unchanged: one scan from the left that drops each title sequence it
    meets. *)
Equations? without_titles (str : list N) : list N by wf (length str) lt :=
  without_titles [] := [];
  without_titles (c :: rest) with inspect (match_title (c :: rest)) := {
    | exist _ (Some after) _ => without_titles after
    | exist _ None _ => c :: without_titles rest }.
Proof. exact (match_title_shorter (c :: rest) after e). Qed.

(** A chunk in which removing the one title sequence it holds, ESC ] 0 ; BEL,
    brings ESC ] and 1 ; t BEL together. *)
Definition joined_chunk : Buffer :=
  [ESC; 93; ESC; 93; 48; 59; BEL; 49; 59; 116; BEL].

(** The escapes of red text: red foreground, and reset. *)
Definition red : Buffer := [0x1B; 0x5B; 0x33; 0x31; 0x6D].
Definition reset : Buffer := [0x1B; 0x5B; 0x30; 0x6D].

(** ** Messages *)

Section Messages.

Variable Number : Type.
Variable Number_toString : Number -> JSString.
Variable JSON_parse : JSString -> option (JSValue Number).

(** The payload parses as JSON into an object whose [type] is the string
    [resize]. *)
Definition resize_message (data : JSString) : Prop :=
  exists props,
    JSON_parse data = Some (JObject props)
    /\ own_property props (js "type") = Some (JString (js "resize")).

(** The terminal-size-setting command for the [cols] and [rows] of the
    message. *)
Definition stty_command (cols rows : option (JSValue Number)) : JSString :=
  js "stty cols " ++ template Number_toString cols
  ++ js " rows " ++ template Number_toString rows ++ [LF].

End Messages.

Arguments resize_message {Number} JSON_parse data.
Arguments stty_command {Number} Number_toString cols rows.

(* ===================================================================== *)
(** * MinimalWebSocket: listeners *)
(* ===================================================================== *)

(** The names every object inherits from [Object.prototype]. Read on an
    object created as [{}], such as [this.listeners], each of them yields a
    function or an object: a value that is neither absent nor an array. *)
Definition Object_prototype : list JSString :=
  map js ["constructor"; "__defineGetter__"; "__defineSetter__";
          "hasOwnProperty"; "__lookupGetter__"; "__lookupSetter__";
          "isPrototypeOf"; "propertyIsEnumerable"; "toString"; "valueOf";
          "__proto__"; "toLocaleString"]%string.

Definition inherited (key : JSString) : bool :=
  existsb (jsstring_eqb key) Object_prototype.

(** The own property [key] of an object given by its properties, no two
    under the same key. *)
Fixpoint own {A} (object : list (JSString * A)) (key : JSString) : option A :=
  match object with
  | [] => None
  | (k, v) :: rest => if jsstring_eqb k key then Some v else own rest key
  end.

Section Listeners.

(** What an event hands to its listeners. *)
Variable D : Type.

(** A listener: the calls it makes, and whether it returns or throws. It
    registers no listener itself (none of [handlePTYSession] does). *)
Definition Handler : Type := D -> M unit.

(** [this.listeners]: the arrays of handlers, by event. *)
Definition Listeners : Type := list (JSString * list Handler).

(** [this.listeners[event].push(handler)] *)
Fixpoint push (listeners : Listeners) (event : JSString) (handler : Handler)
    : Listeners :=
  match listeners with
  | [] => []
  | (e, handlers) :: rest =>
    if jsstring_eqb e event then (e, handlers ++ [handler]) :: rest
    else (e, handlers) :: push rest event handler
  end.

(** [on(event, handler)]: the listeners afterwards. Under an inherited name
    no array is created, and [push] is not a function of what is found. *)
Definition on (listeners : Listeners) (event : JSString) (handler : Handler)
    : Outcome Listeners :=
  match own listeners event with
  | Some _ => Returned (push listeners event handler)
  | None =>
    if inherited event then Thrown
    else Returned (listeners ++ [(event, [handler])])
  end.

(** [for (const h of handlers) { try { h(data); } catch (err) { ... } }] *)
Fixpoint call_each (handlers : list Handler) (data : D) : M unit :=
  match handlers with
  | [] => ret tt
  | h :: rest => try_catch (h data) (ret tt) ;;; call_each rest data
  end.

(** [emit(event, data)]. What is found under an inherited name cannot be
    iterated. *)
Definition emit (listeners : Listeners) (event : JSString) (data : D) : M unit :=
  match own listeners event with
  | Some handlers => call_each handlers data
  | None => if inherited event then throw else ret tt
  end.

End Listeners.

Arguments push {D} listeners event handler.
Arguments on {D} listeners event handler.
Arguments call_each {D} handlers data.
Arguments emit {D} listeners event data.

(** ** The connection of a session *)

(** What [emit] hands over: the text of a message, nothing (the close
    event) or the error of the socket. *)
Inductive EventData : Type :=
| Message_text (text : JSString)
| No_data
| Socket_error.

Section Session.

Variable Number : Type.
Variable Number_toString : Number -> JSString.
Variable Number_truthy : Number -> bool.
Variable JSON_parse : JSString -> option (JSValue Number).

(** The listener of [ws.on('message', ...)]. Only [emit('message', text)]
    reaches it; handed anything that is not a string, [JSON.parse] and
    [stdin.write] both throw and both are caught. *)
Definition message_listener (data : EventData) : M unit :=
  match data with
  | Message_text text => ws_on_message Number_toString Number_truthy JSON_parse text
  | No_data | Socket_error => ret tt
  end.

(** The listener of [ws.on('close', ...)]. *)
Definition close_listener (_ : EventData) : M unit := ws_on_close.

(** The listeners of the connection once [handlePTYSession] has run: a new
    [MinimalWebSocket] has none, and the session registers one for
    [message], then one for [close]. *)
Definition session_listeners : Listeners EventData :=
  match on [] (js "message") message_listener with
  | Returned l =>
    match on l (js "close") close_listener with
    | Returned l' => l'
    | Thrown => l
    end
  | Thrown => []
  end.

(** A call recorded by [handleData], with [emit('message', ...)] carried
    out. *)
Definition deliver (listeners : Listeners EventData) (e : Effect) : list Effect :=
  match e with
  | Emit_message text => fst (emit listeners (js "message") (Message_text text))
  | _ => [e]
  end.

(** The three listeners the constructor puts on the socket. *)
Definition socket_on_data (listeners : Listeners EventData) (buffer data : Buffer)
    : Buffer * list Effect :=
  let (buffer', effects) := handleData buffer data in
  (buffer', flat_map (deliver listeners) effects).

Definition socket_on_close (listeners : Listeners EventData) : M unit :=
  emit listeners (js "close") No_data.

Definition socket_on_error (listeners : Listeners EventData) : M unit :=
  emit listeners (js "error") Socket_error.

End Session.

Arguments message_listener {Number} Number_toString Number_truthy JSON_parse data.
Arguments session_listeners {Number} Number_toString Number_truthy JSON_parse.

(** ** Vocabulary *)

(** A sequence of [on] calls. *)
Fixpoint register {D} (listeners : Listeners D) (calls : list (JSString * Handler D))
    : Outcome (Listeners D) :=
  match calls with
  | [] => Returned listeners
  | (event, handler) :: later =>
    match on listeners event handler with
    | Returned listeners' => register listeners' later
    | Thrown => Thrown
    end
  end.

(** The handlers given for [event] in a sequence of [on] calls, in the
    order of the calls. *)
Definition registered {D} (calls : list (JSString * Handler D)) (event : JSString)
    : list (Handler D) :=
  map snd (filter (fun c => jsstring_eqb (fst c) event) calls).

(** [this.listeners] holds the arrays that a sequence of [on] calls
    makes. *)
Definition holds {D} (listeners : Listeners D) (calls : list (JSString * Handler D))
    : Prop :=
  forall event,
    own listeners event = match registered calls event with
                          | [] => None
                          | hs => Some hs
                          end.

(* ===================================================================== *)
(** * The size of the terminal at the start of a session *)
(* ===================================================================== *)

(** ** [parseInt] *)

(** White space and line terminators, which [parseInt] skips at the start
    of its argument. *)
Definition is_white_space (c : N) : bool :=
  (c =? 0x09) || (c =? 0x0A) || (c =? 0x0B) || (c =? 0x0C) || (c =? 0x0D)
  || (c =? 0x20) || (c =? 0xA0) || (c =? 0x1680)
  || ((0x2000 <=? c) && (c <=? 0x200A))
  || (c =? 0x2028) || (c =? 0x2029) || (c =? 0x202F) || (c =? 0x205F)
  || (c =? 0x3000) || (c =? 0xFEFF).

Fixpoint trim_start (s : JSString) : JSString :=
  match s with
  | c :: rest => if is_white_space c then trim_start rest else s
  | [] => []
  end.

(** The value of a digit of the radix, letters standing for ten and more. *)
Definition digit_value (radix c : N) : option N :=
  let value :=
    if (48 <=? c) && (c <=? 57) then Some (c - 48)
    else if (97 <=? c) && (c <=? 122) then Some (c - 87)
    else if (65 <=? c) && (c <=? 90) then Some (c - 55)
    else None in
  match value with
  | Some d => if d <? radix then Some d else None
  | None => None
  end.

(** The digits at the start of [s], read as an integer; [None] when [s]
    does not start with a digit. *)
Fixpoint read_digits (radix : N) (s : JSString) (acc : N) (seen : bool) : option N :=
  match s with
  | c :: rest =>
    match digit_value radix c with
    | Some d => read_digits radix rest (acc * radix + d) true
    | None => if seen then Some acc else None
    end
  | [] => if seen then Some acc else None
  end.

(** A number as these handlers meet it: not a number, or an integer given
    by its sign and its magnitude. The engine holds the integer as a double,
    which is the integer itself while the magnitude is below 2^53. *)
Inductive Num : Type :=
| NaN
| Integer (negative : bool) (magnitude : N).

(** [parseInt(s)], without a radix: white space is skipped, then a sign is
    read, then [0x] or [0X], which makes the radix sixteen; the digits that
    follow are the integer and what is behind them is not looked at. *)
Definition parseInt (s : JSString) : Num :=
  let s := trim_start s in
  let (negative, s) :=
    match s with
    | c :: rest =>
      if c =? 45 then (true, rest) else if c =? 43 then (false, rest) else (false, s)
    | [] => (false, s)
    end in
  let (radix, s) :=
    match s with
    | c0 :: c1 :: rest =>
      if (c0 =? 48) && ((c1 =? 120) || (c1 =? 88)) then (16, rest) else (10, s)
    | _ => (10, s)
    end in
  match read_digits radix s 0 false with
  | Some magnitude => Integer negative magnitude
  | None => NaN
  end.

(** The truth value of a number in [n || d]: NaN and zero are false. *)
Definition Num_truthy (n : Num) : bool :=
  match n with
  | NaN => false
  | Integer _ magnitude => negb (magnitude =? 0)
  end.

(** [String(n)] and [`${n}`] for an integer below 2^53; a larger one is
    printed from the digits of the double nearest to it, which are not
    modelled ([None]). *)
Definition Num_text (n : Num) : option JSString :=
  match n with
  | NaN => Some (js "NaN")
  | Integer negative magnitude =>
    if magnitude <? 2 ^ 53 then
      Some ((if negative && negb (magnitude =? 0) then js "-" else [])
            ++ decimal magnitude)
    else None
  end.

(** ** bin/ghostty-web.js *)

(** [Number.parseInt(url.searchParams.get(name)) || d]; [get] yields [null]
    ([None]) for a parameter that the URL does not have, and [parseInt]
    reads [null] as the text null. *)
Definition size_or (param : option JSString) (d : N) : Num :=
  let n := parseInt (match param with Some s => s | None => js "null" end) in
  if Num_truthy n then n else Integer false d.

(** [`stty cols ${cols} rows ${rows}; clear\n`], the command written to the
    process 100 ms after the start of the session. *)
Definition stty_clear (cols rows : Num) : option JSString :=
  match Num_text cols, Num_text rows with
  | Some c, Some r =>
    Some (js "stty cols " ++ c ++ js " rows " ++ r ++ js "; clear" ++ [LF])
  | _, _ => None
  end.

(** The first command of a session of the launcher, from what
    [searchParams.get] yields for [cols] and [rows]. *)
Definition initial_command (cols rows : option JSString) : option JSString :=
  stty_clear (size_or cols 80) (size_or rows 24).

(** ** demo/server/pty-server.ts *)

(** [parseInt(url.searchParams.get(name) || d)] *)
Definition demo_size (param : option JSString) (d : JSString) : Num :=
  parseInt (match param with
            | Some (c :: rest) => c :: rest
            | Some [] | None => d
            end).

(** The command written by [open] as soon as the shell is spawned. *)
Definition demo_initial_command (cols rows : option JSString) : option JSString :=
  stty_clear (demo_size cols (js "80")) (demo_size rows (js "24")).

(** ** Vocabulary *)

(** The text does not go on with a decimal digit. *)
Definition no_digit_first (s : JSString) : Prop :=
  match s with
  | [] => True
  | c :: _ => digit_value 10 c = None
  end.

(** The text starts with something that is neither white space, nor a
    sign, nor a decimal digit. *)
Definition not_numeric (s : JSString) : Prop :=
  match s with
  | [] => True
  | c :: _ =>
    is_white_space c = false /\ c <> 45 /\ c <> 43 /\ digit_value 10 c = None
  end.

(** A parameter that the URL does not have, or one that does not start as
    a number. *)
Definition no_number (param : option JSString) : Prop :=
  match param with
  | None => True
  | Some s => not_numeric s
  end.

(** The digits of a number in base ten, most significant first. *)
Fixpoint uint_value (u : Decimal.uint) (acc : N) : N :=
  match u with
  | Decimal.Nil => acc
  | Decimal.D0 l => uint_value l (acc * 10 + 0)
  | Decimal.D1 l => uint_value l (acc * 10 + 1)
  | Decimal.D2 l => uint_value l (acc * 10 + 2)
  | Decimal.D3 l => uint_value l (acc * 10 + 3)
  | Decimal.D4 l => uint_value l (acc * 10 + 4)
  | Decimal.D5 l => uint_value l (acc * 10 + 5)
  | Decimal.D6 l => uint_value l (acc * 10 + 6)
  | Decimal.D7 l => uint_value l (acc * 10 + 7)
  | Decimal.D8 l => uint_value l (acc * 10 + 8)
  | Decimal.D9 l => uint_value l (acc * 10 + 9)
  end.

(** The first digit of a number that is not zero is not the digit 0. *)
Definition starts_nonzero (u : Decimal.uint) : Prop :=
  match u with
  | Decimal.Nil | Decimal.D0 _ => False
  | _ => True
  end.

(* ===================================================================== *)
(** * bin/ghostty-web.js: the HTTP server *)
(* ===================================================================== *)

Module Http.

(** What is sent as the body of a response: text, or the content of a
    file. *)
Inductive Body : Type :=
| Text (text : JSString)
| Content (content : Buffer).

(** What the request handler does: the files it reads, given by their
    path under [packageRoot], and the calls on the response. *)
Inductive Action : Type :=
| ReadFileSync (file : list JSString)
| WriteHead (status : N) (content_type : JSString)
| End (body : Body).

Record Route : Type := mkRoute {
  content : option JSString;
  file : option (list JSString);
  type : JSString
}.

Section Server.

(** The page, a constant of the source, and the file system. *)
Variable HTML_TEMPLATE : JSString.
Variable readFileSync : list JSString -> option Buffer.   (* [None]: it throws *)

Definition routes : list (JSString * Route) :=
  [(js "/", mkRoute (Some HTML_TEMPLATE) None (js "text/html"));
   (js "/ghostty-web.js",
    mkRoute None (Some [js "dist"; js "ghostty-web.js"]) (js "application/javascript"));
   (js "/ghostty-vt.wasm",
    mkRoute None (Some [js "ghostty-vt.wasm"]) (js "application/wasm"));
   (js "/__vite-browser-external-2447137e.js",
    mkRoute None (Some [js "dist"; js "__vite-browser-external-2447137e.js"])
            (js "application/javascript"))].

(** [http.createServer((req, res) => ...)], on [req.url]. [routes] is an
    object literal: under a name of [Object.prototype] the lookup finds a
    function or an object, which has neither [content] nor [file], and the
    handler leaves the response as it is. *)
Definition request (url : JSString) : list Action :=
  match own routes url with
  | None =>
    if inherited url then []
    else [WriteHead 404 (js "text/plain"); End (Text (js "Not found"))]
  | Some route =>
    match content route with
    | Some (c :: text) => [WriteHead 200 (type route); End (Text (c :: text))]
    | Some [] | None =>
      match file route with
      | Some path =>
        match readFileSync path with
        | Some bytes =>
          [ReadFileSync path; WriteHead 200 (type route); End (Content bytes)]
        | None =>
          [ReadFileSync path; WriteHead 500 (js "text/plain");
           End (Text (js "Error reading file. Make sure you have run: npm run build"))]
        end
      | None => []
      end
    end
  end.

End Server.

(** The files of the package that the server gives out. *)
Definition package_files : list (list JSString) :=
  [[js "dist"; js "ghostty-web.js"]; [js "ghostty-vt.wasm"];
   [js "dist"; js "__vite-browser-external-2447137e.js"]].

(** The URLs that have a route. *)
Definition served : list JSString :=
  [js "/"; js "/ghostty-web.js"; js "/ghostty-vt.wasm";
   js "/__vite-browser-external-2447137e.js"].

End Http.

(* ===================================================================== *)
(** * Tables of connections *)
(* ===================================================================== *)

(** A [Map] whose keys are objects (sockets, connections), each known by a
    number: the entries in the order of their insertion, no key twice. A
    [Set] is a [Map] to [unit]. *)
Section Table.

Variable V : Type.

Definition Table : Type := list (N * V).

(** [map.get(key)], [set.has(key)] *)
Fixpoint Map_get (table : Table) (key : N) : option V :=
  match table with
  | [] => None
  | (k, v) :: rest => if k =? key then Some v else Map_get rest key
  end.

(** [map.set(key, value)], [set.add(key)]: a key the table has keeps its
    place. *)
Fixpoint Map_set (table : Table) (key : N) (value : V) : Table :=
  match table with
  | [] => [(key, value)]
  | (k, v) :: rest =>
    if k =? key then (k, value) :: rest else (k, v) :: Map_set rest key value
  end.

(** [map.delete(key)], [set.delete(key)] *)
Fixpoint Map_delete (table : Table) (key : N) : Table :=
  match table with
  | [] => []
  | (k, v) :: rest =>
    if k =? key then rest else (k, v) :: Map_delete rest key
  end.

(** The keys of a table. *)
Definition keys (table : Table) : list N := map fst table.

End Table.

Arguments keys {V} table.
Arguments Map_get {V} table key.
Arguments Map_set {V} table key value.
Arguments Map_delete {V} table key.

(** ** bin/ghostty-web.js: [activeSessions] and [cleanup] *)

(** What happens to the sockets of upgrade requests: the second listener of
    the upgrade event runs, and later the close event of the socket. *)
Inductive SocketEvent : Type :=
| Upgraded (socket : N)
| Closed (socket : N).

(** [activeSessions.add(socket)] and [activeSessions.delete(socket)] *)
Definition track (activeSessions : Table unit) (e : SocketEvent) : Table unit :=
  match e with
  | Upgraded socket => Map_set activeSessions socket tt
  | Closed socket => Map_delete activeSessions socket
  end.

(** [activeSessions] after some events, from the empty set. *)
Definition activeSessions (events : list SocketEvent) : Table unit :=
  fold_left track events [].

Inductive Shutdown : Type :=
| End_socket (socket : N)       (* socket.end() *)
| Server_close                  (* server.close(...) *)
| Exit_after (ms : N).          (* setTimeout(() => process.exit(0), ms) *)

(** [cleanup()] *)
Definition cleanup (activeSessions : Table unit) : list Shutdown :=
  map (fun entry => End_socket (fst entry)) activeSessions
  ++ [Server_close; Exit_after 2000].

(** ** demo/server/pty-server.ts: [sessions] *)

Module DemoServer.

(** A call of a handler, on a connection or on the process of a session. *)
Inductive Call : Type :=
| On_ws (ws : N) (e : Effect)
| On_process (pid : N) (e : Effect).

(** Whom a call of the session handlers is made on. *)
Definition call_on (ws pid : N) (e : Effect) : Call :=
  match e with
  | Stdin_write _ | Process_kill => On_process pid e
  | _ => On_ws ws e
  end.

(** [sessions]: the process of each connection. *)
Definition Sessions : Type := Table N.

Section Handlers.

Variable Number : Type.
Variable JSON_parse : JSString -> option (JSValue Number).
Variable error_message : JSString.

(** [websocket.open(ws)], with the process that [createShell] has spawned
    and the stty command for the size asked for. *)
Definition open (sessions : Sessions) (ws pid : N) (command : JSString)
    : Sessions * list Call :=
  (Map_set sessions ws pid, [On_process pid (Stdin_write command)]).

(** [websocket.message(ws, message)] *)
Definition message (sessions : Sessions) (ws : N) (input : JSString)
    : Sessions * list Call :=
  match Map_get sessions ws with
  | Some pid =>
    (sessions,
     map (call_on ws pid) (fst (Demo.message JSON_parse error_message true input)))
  | None =>
    (sessions,
     map (On_ws ws) (fst (Demo.message JSON_parse error_message false input)))
  end.

(** [websocket.close(ws)] *)
Definition close (sessions : Sessions) (ws : N) : Sessions * list Call :=
  match Map_get sessions ws with
  | Some pid => (Map_delete sessions ws, [On_process pid Process_kill])
  | None => (sessions, [])
  end.

(** [shell.on('exit', ...)] of the session opened for [ws]. *)
Definition exit (sessions : Sessions) (ws : N) (code : option N)
    : Sessions * list Call :=
  (Map_delete sessions ws, map (On_ws ws) (fst (Demo.shell_on_exit code))).

(** The SIGINT handler, up to [process.exit(0)]. *)
Definition SIGINT (sessions : Sessions) : list Call :=
  flat_map (fun entry => [On_process (snd entry) Process_kill;
                          On_ws (fst entry) Ws_close]) sessions.

Inductive Event : Type :=
| Open (ws pid : N) (command : JSString)
| Message (ws : N) (input : JSString)
| Close (ws : N)
| Exit (ws : N) (code : option N).

Definition handle (sessions : Sessions) (e : Event) : Sessions * list Call :=
  match e with
  | Open ws pid command => open sessions ws pid command
  | Message ws input => message sessions ws input
  | Close ws => close sessions ws
  | Exit ws code => exit sessions ws code
  end.

(** [sessions] after some events, from the empty map. *)
Definition sessions_after (events : list Event) : Sessions :=
  fold_left (fun sessions e => fst (handle sessions e)) events [].

End Handlers.

Arguments message {Number} JSON_parse error_message sessions ws input.
Arguments handle {Number} JSON_parse error_message sessions e.
Arguments sessions_after {Number} JSON_parse error_message events.

(** The session of [ws] is that of process [pid]: the connection was opened
    with this process, and has neither been opened again, nor closed, nor
    has the process exited since. *)
Definition ends_session (ws : N) (e : Event) : bool :=
  match e with
  | Open ws' _ _ | Close ws' | Exit ws' _ => ws' =? ws
  | Message _ _ => false
  end.

Definition in_session (events : list Event) (ws pid : N) : Prop :=
  exists before command after,
    events = before ++ Open ws pid command :: after
    /\ forallb (fun e => negb (ends_session ws e)) after = true.

End DemoServer.

(** A socket is open: it was the socket of an upgrade request and has not
    closed since. *)
Definition open_socket (events : list SocketEvent) (socket : N) : Prop :=
  exists before after,
    events = before ++ Upgraded socket :: after /\ ~ In (Closed socket) after.

(* ===================================================================== *)
(** * The title filter: what it keeps *)
(* ===================================================================== *)

(** [out] is what is left of [inp] once some of its elements are taken
    out. *)
Inductive left_of : list N -> list N -> Prop :=
| left_of_nil : left_of [] []
| left_of_keep (c : N) (out inp : list N) : left_of out inp -> left_of (c :: out) (c :: inp)
| left_of_drop (c : N) (out inp : list N) : left_of out inp -> left_of out (c :: inp).

(* ===================================================================== *)
(** * Text frames always carry UTF-8 *)
(* ===================================================================== *)

(** The code points of a string, as [Buffer.from(str, 'utf8')] reads them:
    a surrogate pair is one code point, a surrogate alone is U+FFFD. *)
Fixpoint code_points (str : JSString) : list N :=
  match str with
  | [] => []
  | c :: rest =>
    if Node.is_high_surrogate c then
      match rest with
      | lo :: rest' =>
        if Node.is_low_surrogate lo then
          (0x10000 + N.shiftl (c - 0xD800) 10 + (lo - 0xDC00)) :: code_points rest'
        else 0xFFFD :: code_points rest
      | [] => [0xFFFD]
      end
    else if Node.is_low_surrogate c then 0xFFFD :: code_points rest
    else c :: code_points rest
  end.

(** A string of JavaScript: its code units are below 2^16. *)
Definition code_units (str : JSString) : Prop := Forall (fun c => c < 65536) str.

(** The decoder inside a character: it waits for one, two or three
    bytes, and has read few enough bits for the code point to stay below
    2^21. *)
Definition in_character (p : Node.Pending) : Prop :=
  (Node.needed p = 1 /\ Node.cp_acc p < 2 ^ 15)
  \/ (Node.needed p = 2 /\ Node.cp_acc p < 2 ^ 9)
  \/ (Node.needed p = 3 /\ Node.cp_acc p < 2 ^ 3).

Definition decoder_state (st : option Node.Pending) : Prop :=
  match st with
  | None => True
  | Some p => in_character p
  end.

(* ===================================================================== *)
(** * The response to the handshake *)
(* ===================================================================== *)

(** Text of the base64 alphabet and its padding character. *)
Definition base64_text (s : JSString) : Prop :=
  Forall (fun c => In c Node.base64_alphabet \/ c = 61) s.

(* ===================================================================== *)
(** * lib/link-detector.ts: the cache of links *)
(* ===================================================================== *)

Module LinkDetector.

(** Positions of the buffer are pairs of integers: [x] the column, [y] the
    row. A range goes from [start] to [stop] (the [end] of the source). *)
Record Position : Type := mkPosition { x : Z; y : Z }.
Record Range : Type := mkRange { start : Position; stop : Position }.

Section Detector.

(** A link ([ILink]) is known to the detector by its range alone. *)
Variable Link : Type.
Variable range : Link -> Range.

(** [isPositionInLink(col, row, link)] *)
Definition isPositionInLink (col row : Z) (link : Link) : bool :=
  let s := start (range link) in
  let e := stop (range link) in
  if ((row <? y s) || (row >? y e))%Z then false
  else if (y s =? y e)%Z then ((col >=? x s) && (col <=? x e))%Z
  else if (row =? y s)%Z then (col >=? x s)%Z
  else if (row =? y e)%Z then (col <=? x e)%Z
  else true.

(** The cache key [`r${s.y}:${s.x}-${e.x}`], given by the three integers
    it is written from: two keys are the same string when the integers are
    the same. *)
Definition Key : Type := (Z * Z * Z)%type.

Definition cacheKey (link : Link) : Key :=
  (y (start (range link)), x (start (range link)), x (stop (range link))).

Definition Key_eqb (a b : Key) : bool :=
  let '(a1, a2, a3) := a in
  let '(b1, b2, b3) := b in
  ((a1 =? b1) && (a2 =? b2) && (a3 =? b3))%Z.

(** [linkCache], a [Map]: its entries in the order of their insertion. *)
Definition Cache : Type := list (Key * Link).

(** [linkCache.has(key)] *)
Definition has (linkCache : Cache) (key : Key) : bool :=
  existsb (fun entry => Key_eqb (fst entry) key) linkCache.

(** [linkCache.get(key)] *)
Definition get (linkCache : Cache) (key : Key) : option Link :=
  option_map snd (find (fun entry => Key_eqb (fst entry) key) linkCache).

(** [cacheLink(link)] *)
Definition cacheLink (linkCache : Cache) (link : Link) : Cache :=
  if has linkCache (cacheKey link) then linkCache
  else linkCache ++ [(cacheKey link, link)].

(** [linkCache.delete(key)] *)
Definition delete (linkCache : Cache) (key : Key) : Cache :=
  filter (fun entry => negb (Key_eqb (fst entry) key)) linkCache.

(** The test of [invalidateRows] on a cached link. *)
Definition touches (startRow endRow : Z) (link : Link) : bool :=
  let s := start (range link) in
  let e := stop (range link) in
  (((y s >=? startRow) && (y s <=? endRow))
   || ((y e >=? startRow) && (y e <=? endRow))
   || ((y s <? startRow) && (y e >? endRow)))%Z.

(** The rows [startRow], [startRow + 1], ... up to [endRow]. *)
Definition rows (startRow endRow : Z) : list Z :=
  map (fun i => (startRow + Z.of_nat i)%Z) (seq 0 (Z.to_nat (endRow - startRow + 1))).

(** [scannedRows.delete(row)] *)
Definition unscan (scannedRows : list Z) (row : Z) : list Z :=
  filter (fun r => negb (r =? row)%Z) scannedRows.

(** [invalidateRows(startRow, endRow)], on [scannedRows] and
    [linkCache]. *)
Definition invalidateRows (scannedRows : list Z) (linkCache : Cache)
    (startRow endRow : Z) : list Z * Cache :=
  let scannedRows := fold_left unscan (rows startRow endRow) scannedRows in
  let toDelete :=
    map fst (filter (fun entry => touches startRow endRow (snd entry)) linkCache) in
  (scannedRows, fold_left delete toDelete linkCache).

(** The loops of [getLinkAt] over [linkCache.values()]. *)
Definition cached_at (linkCache : Cache) (col row : Z) : option Link :=
  option_map snd (find (fun entry => isPositionInLink col row (snd entry)) linkCache).

End Detector.

Arguments isPositionInLink {Link} range col row link.
Arguments cacheKey {Link} range link.
Arguments has {Link} linkCache key.
Arguments get {Link} linkCache key.
Arguments cacheLink {Link} range linkCache link.
Arguments delete {Link} linkCache key.
Arguments touches {Link} range startRow endRow link.
Arguments invalidateRows {Link} range scannedRows linkCache startRow endRow.
Arguments cached_at {Link} range linkCache col row.

(** ** Vocabulary *)

(** A position is not before another, in reading order. *)
Definition not_before (row col row' col' : Z) : Prop :=
  (row' < row \/ (row' = row /\ col' <= col))%Z.

End LinkDetector.

(* ===================================================================== *)
(** * lib/link-detector.ts: the provider of OSC 8 links *)
(* ===================================================================== *)

Module OSC8LinkProvider.

(** [terminal.wasmTerm] *)
Record WasmTerm : Type := mkWasmTerm {
  getHyperlinkUri : Z -> Z -> option JSString;             (* [None]: null *)
  getScrollbackHyperlinkUri : Z -> Z -> option JSString;
  getScrollbackLength : Z
}.

(** A link as the provider makes it: the URI and the range (its [activate]
    opens the URI). *)
Record Link : Type := mkLink {
  text : JSString;
  range : LinkDetector.Range
}.

Section Provider.

(** The line of the row [y]: its length, and for a column the hyperlink id
    of its cell ([None]: no cell). The terminal does not change during the
    call: a cell and a URI asked for twice are the same. *)
Variable y : Z.
Variable length : nat.
Variable getCell : nat -> option N.
Variable wasmTerm : option WasmTerm.

(** The URI of a column of the row, from the scrollback or from the
    viewport. *)
Definition uri_of (w : WasmTerm) (col : nat) : option JSString :=
  let viewportRow := (y - getScrollbackLength w)%Z in
  if (viewportRow <? 0)%Z then getScrollbackHyperlinkUri w y (Z.of_nat col)
  else getHyperlinkUri w viewportRow (Z.of_nat col).

(** The inner loop: from [col], for [fuel] columns, the last column of the
    cells that go on with the same URI; [endX] is the last one found so
    far. *)
Fixpoint extend (w : WasmTerm) (uri : JSString) (col fuel endX : nat) : nat :=
  match fuel with
  | O => endX
  | S fuel' =>
    match getCell col with
    | None => endX
    | Some id =>
      if id =? 0 then endX
      else
        match uri_of w col with
        | Some nextUri =>
          if jsstring_eqb nextUri uri then extend w uri (S col) fuel' col else endX
        | None => endX
        end
    end
  end.

Definition link_on (uri : JSString) (x endX : nat) : Link :=
  mkLink uri (LinkDetector.mkRange (LinkDetector.mkPosition (Z.of_nat x) y)
                                   (LinkDetector.mkPosition (Z.of_nat endX) y)).

(** The loop over the columns, from [x], for [fuel] columns. *)
Fixpoint scan (x fuel : nat) (visitedPositions : list nat) (links : list Link)
    : list Link :=
  match fuel with
  | O => links
  | S fuel' =>
    if existsb (Nat.eqb x) visitedPositions then scan (S x) fuel' visitedPositions links
    else
      match getCell x with
      | None => scan (S x) fuel' visitedPositions links
      | Some hyperlinkId =>
        if hyperlinkId =? 0 then scan (S x) fuel' visitedPositions links
        else
          match wasmTerm with
          | None => scan (S x) fuel' visitedPositions links
          | Some w =>
            match uri_of w x with
            | Some (c :: u) =>
              let endX := extend w (c :: u) (S x) fuel' x in
              scan (S x) fuel'
                   (visitedPositions ++ seq x (endX - x + 1))
                   (links ++ [link_on (c :: u) x endX])
            | Some [] | None => scan (S x) fuel' visitedPositions links
            end
          end
      end
  end.

(** [provideLinks(y, callback)] for a row that has a line: what the
    callback is given ([None]: undefined). *)
Definition provideLinks : option (list Link) :=
  match scan 0 length [] [] with
  | [] => None
  | links => Some links
  end.

(** ** Vocabulary *)

(** The URI of the cell of a column, if the column has a cell with a
    hyperlink and the terminal gives a URI for it. *)
Definition linked (col : nat) (uri : JSString) : Prop :=
  exists id w,
    getCell col = Some id /\ id <> 0 /\ wasmTerm = Some w
    /\ uri_of w col = Some uri /\ uri <> [].

(** The columns of a link of the row. *)
Definition first_column (link : Link) : Z :=
  LinkDetector.x (LinkDetector.start (range link)).
Definition last_column (link : Link) : Z :=
  LinkDetector.x (LinkDetector.stop (range link)).

(** A link is right: it is on the row, inside the line, every cell from
    its first to its last column has the URI of the link, and the cell
    behind its last column has not. *)
Definition right_link (link : Link) : Prop :=
  exists first last : nat,
    link = link_on (text link) first last
    /\ (first <= last < length)%nat
    /\ (forall col, (first <= col <= last)%nat -> linked col (text link))
    /\ ((S last < length)%nat -> ~ linked (S last) (text link)).

(** Links that follow each other from left to right, none reaching the
    next. *)
Fixpoint left_to_right (links : list Link) : Prop :=
  match links with
  | [] => True
  | link :: later =>
    Forall (fun next => (last_column link < first_column next)%Z) later
    /\ left_to_right later
  end.

(** ** For the proofs *)

(** A cell goes on with the URI. *)
Definition same (w : WasmTerm) (uri : JSString) (col : nat) : Prop :=
  exists id, getCell col = Some id /\ id <> 0 /\ uri_of w col = Some uri.

(** A column is in a link. *)
Definition covers (link : Link) (col : nat) : Prop :=
  (first_column link <= Z.of_nat col <= last_column link)%Z.

(** What holds of the links found before column [x]. *)
Definition found (x : nat) (visitedPositions : list nat) (links : list Link) : Prop :=
  Forall right_link links
  /\ left_to_right links
  /\ (forall col, In col visitedPositions <-> exists link, In link links /\ covers link col)
  /\ Forall (fun link => (first_column link < Z.of_nat x)%Z) links
  /\ (forall col uri, (col < x)%nat -> linked col uri ->
        exists link, In link links /\ covers link col).

End Provider.

End OSC8LinkProvider.

(* ===================================================================== *)
(** * lib/link-detector.ts: asking the detector for the link of a cell *)
(* ===================================================================== *)

(** The buffer of the terminal as the detector and the provider read it:
    a line has a length and, for a column, the hyperlink id of its cell
    ([None]: no cell). *)
Module Terminal.

Record Line : Type := mkLine {
  length : nat;
  getCell : nat -> option N
}.

End Terminal.

Module Detector.

Import LinkDetector.

Section GetLinkAt.

Variable Link : Type.
Variable range : Link -> Range.

(** [terminal.buffer.active.getLine] ([None]: undefined). The buffer does
    not change while the detector is asked. *)
Variable getLine : Z -> option Terminal.Line.

(** A provider: for a row, what its [provideLinks] gives the callback
    ([None]: undefined). *)
Definition Provider : Type := Z -> option (list Link).

(** The fields of a [LinkDetector]. *)
Record State : Type := mkState {
  providers : list Provider;
  linkCache : Cache Link;
  scannedRows : list Z
}.

(** [invalidateCache()] *)
Definition invalidateCache (s : State) : State :=
  mkState (providers s) [] [].

(** [registerProvider(provider)] *)
Definition registerProvider (s : State) (provider : Provider) : State :=
  invalidateCache (mkState (providers s ++ [provider]) (linkCache s) (scannedRows s)).

(** [scannedRows.has(row)] and [scannedRows.add(row)] *)
Definition scanned (s : State) (row : Z) : bool :=
  existsb (Z.eqb row) (scannedRows s).

Definition add (scannedRows : list Z) (row : Z) : list Z :=
  if existsb (Z.eqb row) scannedRows then scannedRows else scannedRows ++ [row].

(** [scanRow(row)]: the providers are asked in their order, then their
    links are cached in that order. *)
Definition scanRow (s : State) (row : Z) : State :=
  let allLinks :=
    flat_map (fun provider : Provider =>
                match provider row with
                | Some links => links
                | None => []
                end) (providers s) in
  mkState (providers s)
          (fold_left (cacheLink range) allLinks (linkCache s))
          (add (scannedRows s) row).

(** [getLinkAt(col, row)], run to its end with no other call of the
    detector in between: the detector afterwards and the answer ([None]:
    undefined). *)
Definition getLinkAt (s : State) (col row : Z) : State * option Link :=
  match getLine row with
  | None => (s, None)
  | Some line =>
    if ((col <? 0) || (col >=? Z.of_nat (Terminal.length line)))%Z then (s, None)
    else
      match Terminal.getCell line (Z.to_nat col) with
      | None => (s, None)
      | Some _ =>
        match cached_at range (linkCache s) col row with
        | Some link => (s, Some link)
        | None =>
          let s' := if scanned s row then s else scanRow s row in
          (s', cached_at range (linkCache s') col row)
        end
      end
  end.

End GetLinkAt.

Arguments providers {Link} s.
Arguments linkCache {Link} s.
Arguments scannedRows {Link} s.
Arguments invalidateCache {Link} s.
Arguments registerProvider {Link} s provider.
Arguments scanned {Link} s row.
Arguments scanRow {Link} range s row.
Arguments getLinkAt {Link} range getLine s col row.

(** [new OSC8LinkProvider(terminal)] as a provider: [provideLinks(y,
    callback)] with the test of the line. *)
Definition osc8 (getLine : Z -> option Terminal.Line)
    (wasmTerm : option OSC8LinkProvider.WasmTerm) : Provider OSC8LinkProvider.Link :=
  fun y =>
    match getLine y with
    | None => None
    | Some line =>
      OSC8LinkProvider.provideLinks y (Terminal.length line) (Terminal.getCell line)
                                    wasmTerm
    end.

End Detector.

(* ===================================================================== *)
(** * Properties *)
(* ===================================================================== *)

(* ===================================================================== *)
(** * The frame codec *)
(* ===================================================================== *)


Lemma drain_step (buffer : Buffer) :
  drain buffer =
  if 2 <=? buf_len buffer then
    match parseFrame buffer with
    | None => (buffer, [])
    | Some (frame, rest) =>
      match dispatch frame with
      | (effects, true) => (fst (drain rest), effects ++ snd (drain rest))
      | (effects, false) => (rest, effects)
      end
    end
  else (buffer, []).
Proof.
  funelim (drain buffer).
  - rewrite e. reflexivity.
  - rewrite e, e0. reflexivity.
  - rewrite e, Hparse, e0. reflexivity.
  - rewrite e, Hparse, e0. reflexivity.
Qed.

Lemma fold_be_value (l : Buffer) (a : N) :
  fold_left (fun acc b => acc * 256 + b) l a
  = a * 256 ^ N.of_nat (length l) + be_value l.
Proof.
  unfold be_value. revert a. induction l as [|x l IH]; intros a.
  - simpl. lia.
  - cbn [fold_left length]. rewrite IH, (IH (0 * 256 + x)).
    rewrite Nat2N.inj_succ, N.pow_succ_r'. lia.
Qed.

Lemma be_bytes_length (n : nat) (v : N) : length (be_bytes n v) = n.
Proof. induction n; simpl; congruence. Qed.

Lemma be_value_be_bytes (n : nat) (v : N) :
  be_value (be_bytes n v) = v mod 256 ^ N.of_nat n.
Proof.
  induction n as [|k IH].
  - simpl. rewrite N.mod_1_r. reflexivity.
  - cbn [be_bytes]. unfold be_value. cbn [fold_left].
    rewrite fold_be_value, be_bytes_length, IH.
    rewrite Nat2N.inj_succ, N.pow_succ_r', (N.mul_comm 256).
    rewrite N.Div0.mod_mul_r. lia.
Qed.

Lemma be_value_2 (v : N) : v < 65536 -> be_value (be_bytes 2 v) = v.
Proof. intros H. rewrite be_value_be_bytes. apply N.mod_small. exact H. Qed.

Lemma be_value_8 (v : N) : v < 2 ^ 64 -> be_value (be_bytes 8 v) = v.
Proof. intros H. rewrite be_value_be_bytes. apply N.mod_small. exact H. Qed.


Lemma below_256_all (P : N -> bool) :
  forallb P below_256 = true -> forall b, b < 256 -> P b = true.
Proof.
  intros H b Hb. rewrite forallb_forall in H. apply H.
  unfold below_256. rewrite <- (N2Nat.id b). apply in_map, in_seq. lia.
Qed.


Lemma skipn_length_app {A} (l1 l2 : list A) : skipn (length l1) (l1 ++ l2) = l2.
Proof. induction l1; simpl; auto. Qed.

Lemma firstn_length_app {A} (l1 l2 : list A) : firstn (length l1) (l1 ++ l2) = l1.
Proof. induction l1; simpl; congruence. Qed.

Lemma slice_app_mid (pre mid post : Buffer) (a b : N) :
  a = buf_len pre -> b = a + buf_len mid ->
  slice (pre ++ mid ++ post) a b = mid.
Proof.
  unfold slice, buf_len. intros -> ->.
  replace (N.of_nat (length pre) + N.of_nat (length mid) - N.of_nat (length pre))
    with (N.of_nat (length mid)) by lia.
  rewrite !Nat2N.id, skipn_length_app, firstn_length_app. reflexivity.
Qed.

Lemma slice_from_app (pre post : Buffer) (a : N) :
  a = buf_len pre -> slice_from (pre ++ post) a = post.
Proof.
  unfold slice_from, buf_len. intros ->.
  rewrite Nat2N.id. apply skipn_length_app.
Qed.

Lemma buf_len_app (a b : Buffer) : buf_len (a ++ b) = buf_len a + buf_len b.
Proof. unfold buf_len. rewrite length_app. lia. Qed.

Lemma buf_len_cons (x : N) (b : Buffer) : buf_len (x :: b) = 1 + buf_len b.
Proof. unfold buf_len. simpl length. lia. Qed.


(** [parseFrame] on a buffer that starts with one whole frame. *)
Lemma parseFrame_layout (b1 b2 : N) (ext key body rest : Buffer) :
  announces b2 ext (buf_len body) ->
  (if N.land b2 0x80 =? 0 then key = [] else length key = 4%nat) ->
  parseFrame (b1 :: b2 :: ext ++ key ++ body ++ rest)
  = Some (mkFrame (negb (N.land b1 0x80 =? 0)) (N.land b1 0x0f)
            (if N.land b2 0x80 =? 0 then body
             else unmask key body (buf_len body)),
          rest).
Proof.
  intros Hlen Hkey.
  set (buffer := b1 :: b2 :: ext ++ key ++ body ++ rest).
  assert (Hbl : buf_len buffer
                = 2 + buf_len ext + buf_len key + buf_len body + buf_len rest).
  { subst buffer. rewrite !buf_len_cons, !buf_len_app. lia. }
  assert (Hklen : buf_len key = if N.land b2 0x80 =? 0 then 0 else 4).
  { destruct (N.land b2 0x80 =? 0); [subst key; reflexivity|].
    unfold buf_len. rewrite Hkey. reflexivity. }
  unfold parseFrame.
  replace (buf_len buffer <? 2) with false by (symmetry; apply N.ltb_ge; lia).
  change (buf_get buffer 0) with b1. change (buf_get buffer 1) with b2.
  assert (Hext :
    (if N.land b2 0x7f =? 126
     then if buf_len buffer <? 4 then None else Some (readUInt16BE buffer 2, 4)
     else if N.land b2 0x7f =? 127
          then if buf_len buffer <? 10 then None
               else Some (readBigUInt64BE buffer 2, 10)
          else Some (N.land b2 0x7f, 2))
    = Some (buf_len body, 2 + buf_len ext)).
  { destruct Hlen as [(H7 & Hl & Hv) | [(H7 & Hl & Hv) | (H7 & Hp & He)]].
    - rewrite H7. change (126 =? 126) with true.
      assert (buf_len ext = 2) by (unfold buf_len; rewrite Hl; reflexivity).
      replace (buf_len buffer <? 4) with false by (symmetry; apply N.ltb_ge; lia).
      unfold readUInt16BE. subst buffer.
      rewrite (slice_app_mid [b1; b2] ext (key ++ body ++ rest)) by (rewrite ?H; reflexivity).
      rewrite Hv, H. reflexivity.
    - rewrite H7. change (127 =? 126) with false. change (127 =? 127) with true.
      assert (buf_len ext = 8) by (unfold buf_len; rewrite Hl; reflexivity).
      replace (buf_len buffer <? 10) with false by (symmetry; apply N.ltb_ge; lia).
      unfold readBigUInt64BE. subst buffer.
      rewrite (slice_app_mid [b1; b2] ext (key ++ body ++ rest)) by (rewrite ?H; reflexivity).
      rewrite Hv, H. reflexivity.
    - rewrite H7. subst ext.
      replace (buf_len body =? 126) with false by (symmetry; apply N.eqb_neq; lia).
      replace (buf_len body =? 127) with false by (symmetry; apply N.eqb_neq; lia).
      reflexivity. }
  cbv zeta. rewrite Hext.
  replace (negb (N.land b2 128 =? 0)) with (negb (N.land b2 0x80 =? 0)) by reflexivity.
  destruct (N.land b2 0x80 =? 0) eqn:Hm; cbn [negb].
  - subst key. cbn [app] in *.
    replace (buf_len buffer <? 2 + buf_len ext + 0 + buf_len body) with false
      by (symmetry; apply N.ltb_ge; lia).
    f_equal. f_equal.
    + f_equal. subst buffer.
      apply (slice_app_mid (b1 :: b2 :: ext) body rest).
      * rewrite !buf_len_cons. lia.
      * lia.
    + subst buffer.
      change (b1 :: b2 :: ext ++ body ++ rest) with ((b1 :: b2 :: ext) ++ body ++ rest).
      rewrite app_assoc. apply slice_from_app.
      rewrite buf_len_app, !buf_len_cons. lia.
  - replace (buf_len buffer <? 2 + buf_len ext + 4 + buf_len body) with false
      by (symmetry; apply N.ltb_ge; lia).
    f_equal. f_equal.
    + f_equal. subst buffer. f_equal.
      * apply (slice_app_mid (b1 :: b2 :: ext) key (body ++ rest)).
        -- rewrite !buf_len_cons. lia.
        -- lia.
      * change (b1 :: b2 :: ext ++ key ++ body ++ rest)
          with ((b1 :: b2 :: ext) ++ key ++ body ++ rest).
        rewrite (app_assoc _ key). apply slice_app_mid.
        -- rewrite buf_len_app, !buf_len_cons. lia.
        -- lia.
    + subst buffer.
      change (b1 :: b2 :: ext ++ key ++ body ++ rest)
        with ((b1 :: b2 :: ext) ++ key ++ body ++ rest).
      rewrite (app_assoc _ key), (app_assoc _ body). apply slice_from_app.
      rewrite !buf_len_app, !buf_len_cons. lia.
Qed.


Lemma small_length_bits (b : N) :
  b < 128 ->
  N.land b 255 = b /\ N.land b 0x7f = b /\ N.land b 0x80 = 0
  /\ N.land (N.lor 0x80 b) 0x7f = b /\ N.land (N.lor 0x80 b) 0x80 = 0x80.
Proof.
  intros Hb.
  assert (H : ((N.land b 255 =? b) && (N.land b 0x7f =? b) && (N.land b 0x80 =? 0)
               && (N.land (N.lor 0x80 b) 0x7f =? b)
               && (N.land (N.lor 0x80 b) 0x80 =? 0x80) || (128 <=? b)) = true).
  { apply (below_256_all (fun b =>
      (N.land b 255 =? b) && (N.land b 0x7f =? b) && (N.land b 0x80 =? 0)
      && (N.land (N.lor 0x80 b) 0x7f =? b)
      && (N.land (N.lor 0x80 b) 0x80 =? 0x80) || (128 <=? b))); [vm_compute; reflexivity | lia]. }
  apply orb_true_iff in H. destruct H as [H | H]; [|apply N.leb_le in H; lia].
  repeat (apply andb_true_iff in H; destruct H as [H ?]).
  repeat match goal with E : (_ =? _) = true |- _ => apply N.eqb_eq in E end.
  auto.
Qed.

Lemma u8_byte (b : N) : b < 256 -> u8 b = b.
Proof.
  intros H. unfold u8. change 255 with (N.ones 8).
  rewrite N.land_ones. apply N.mod_small. exact H.
Qed.

Lemma announces_length (plen : N) :
  plen < 2 ^ 64 ->
  announces (if plen <? 126 then u8 plen else if plen <? 65536 then 126 else 127)
            (if plen <? 126 then [] else if plen <? 65536 then writeUInt16BE plen
             else writeBigUInt64BE plen)
            plen.
Proof.
  intros H. unfold announces.
  destruct (plen <? 126) eqn:H1; [|destruct (plen <? 65536) eqn:H2].
  - apply N.ltb_lt in H1. right; right.
    destruct (small_length_bits plen) as (Ha & Hb & _); [lia|].
    unfold u8. rewrite Ha, Hb. auto.
  - apply N.ltb_lt in H2. left. repeat split.
    apply be_value_2. exact H2.
  - right; left. repeat split. apply be_value_8. exact H.
Qed.

Lemma send_frame_layout (payload : Buffer) :
  send_frame payload
  = 0x81 :: (if buf_len payload <? 126 then u8 (buf_len payload)
             else if buf_len payload <? 65536 then 126 else 127)
    :: (if buf_len payload <? 126 then []
        else if buf_len payload <? 65536 then writeUInt16BE (buf_len payload)
        else writeBigUInt64BE (buf_len payload))
    ++ [] ++ payload ++ [].
Proof.
  unfold send_frame. rewrite app_nil_r.
  destruct (buf_len payload <? 126); [reflexivity|].
  destruct (buf_len payload <? 65536); reflexivity.
Qed.

Lemma parseFrame_send_frame (payload : Buffer) :
  buf_len payload < 2 ^ 64 ->
  parseFrame (send_frame payload) = Some (mkFrame true 0x01 payload, []).
Proof.
  intros H. rewrite send_frame_layout.
  assert (Hm : N.land (if buf_len payload <? 126 then u8 (buf_len payload)
                       else if buf_len payload <? 65536 then 126 else 127) 0x80 = 0).
  { destruct (buf_len payload <? 126) eqn:H1.
    - apply N.ltb_lt in H1.
      destruct (small_length_bits (buf_len payload)) as (Ha & _ & Hc & _); [lia|].
      unfold u8. rewrite Ha. exact Hc.
    - destruct (buf_len payload <? 65536); reflexivity. }
  rewrite parseFrame_layout.
  - rewrite Hm. reflexivity.
  - apply announces_length. exact H.
  - rewrite Hm. reflexivity.
Qed.

Lemma nth_map_seq {A} (f : nat -> A) (n i : nat) (d : A) :
  (i < n)%nat -> nth i (map f (seq 0 n)) d = f i.
Proof.
  intros H. rewrite (nth_indep _ d (f 0%nat)) by (rewrite length_map, length_seq; exact H).
  rewrite (map_nth f (seq 0 n) 0%nat i), seq_nth by exact H. reflexivity.
Qed.

Lemma map_nth_seq (l : Buffer) :
  map (fun i => nth i l 0) (seq 0 (length l)) = l.
Proof.
  apply nth_ext with (d := 0) (d' := 0).
  - rewrite length_map, length_seq. reflexivity.
  - intros i Hi. rewrite length_map, length_seq in Hi.
    exact (nth_map_seq (fun i => nth i l 0) _ i 0 Hi).
Qed.

Lemma unmask_mask_payload (key payload : Buffer) :
  bytes payload ->
  unmask key (mask_payload key payload) (buf_len payload) = payload.
Proof.
  intros Hb. unfold unmask, buf_len. rewrite Nat2N.id.
  transitivity (map (fun i => nth i payload 0) (seq 0 (length payload)));
    [|apply map_nth_seq].
  apply map_ext_in. intros i Hi. apply in_seq in Hi.
  unfold buf_get, mask_payload. rewrite nth_map_seq by lia.
  unfold buf_get. rewrite N.lxor_assoc, N.lxor_nilpotent, N.lxor_0_r.
  apply u8_byte. unfold bytes in Hb. rewrite Forall_forall in Hb.
  apply Hb, nth_In. lia.
Qed.

Lemma mask_payload_length (key payload : Buffer) :
  buf_len (mask_payload key payload) = buf_len payload.
Proof. unfold buf_len, mask_payload. rewrite length_map, length_seq. reflexivity. Qed.

Lemma parseFrame_client_frame (byte1 : N) (key payload : Buffer) :
  length key = 4%nat -> bytes payload -> buf_len payload < 2 ^ 64 ->
  parseFrame (client_frame byte1 key payload)
  = Some (mkFrame (negb (N.land byte1 0x80 =? 0)) (N.land byte1 0x0f) payload, []).
Proof.
  intros Hk Hb Hl.
  set (b2 := N.lor 0x80 (if buf_len payload <? 126 then buf_len payload
                         else if buf_len payload <? 65536 then 126 else 127)).
  set (ext := if buf_len payload <? 126 then []
              else if buf_len payload <? 65536 then writeUInt16BE (buf_len payload)
              else writeBigUInt64BE (buf_len payload)).
  assert (Hshape : client_frame byte1 key payload
                   = byte1 :: b2 :: ext ++ key ++ mask_payload key payload ++ []).
  { unfold client_frame, b2, ext. rewrite app_nil_r.
    destruct (buf_len payload <? 126); [reflexivity|].
    destruct (buf_len payload <? 65536); reflexivity. }
  assert (Hbits : N.land b2 0x7f
                  = (if buf_len payload <? 126 then buf_len payload
                     else if buf_len payload <? 65536 then 126 else 127)
                  /\ N.land b2 0x80 = 0x80).
  { subst b2. destruct (buf_len payload <? 126) eqn:H1.
    - apply N.ltb_lt in H1.
      destruct (small_length_bits (buf_len payload)) as (_ & _ & _ & Hd & He); [lia|].
      auto.
    - destruct (buf_len payload <? 65536); split; reflexivity. }
  destruct Hbits as [H7 H8].
  rewrite Hshape, parseFrame_layout.
  - rewrite H8. change (128 =? 0) with false. cbv iota.
    rewrite mask_payload_length, unmask_mask_payload by exact Hb. reflexivity.
  - rewrite mask_payload_length. unfold announces. rewrite H7. subst ext.
    destruct (buf_len payload <? 126) eqn:H1; [|destruct (buf_len payload <? 65536) eqn:H2].
    + apply N.ltb_lt in H1. right; right. auto.
    + apply N.ltb_lt in H2. left. repeat split. apply be_value_2. exact H2.
    + right; left. repeat split. apply be_value_8. exact Hl.
  - rewrite H8. exact Hk.
Qed.


Lemma send_frame_encode (p : Buffer) : send_frame p = encode 0x01 p.
Proof.
  unfold send_frame, encode.
  destruct (buf_len p <? 126) eqn:H1.
  - apply N.ltb_lt in H1. rewrite u8_byte by lia. reflexivity.
  - destruct (buf_len p <? 65536); reflexivity.
Qed.

(** C2. Frame round trip. A payload [p] of bytes, of any length a Buffer can
    have (so of length 0, 1, 125, 126, 65535 or 65536), is encoded by [send] as
    the specification words it: first byte 0x81, the length on one byte, or
    126 and two bytes, or 127 and eight bytes, then the payload. Decoding
    these bytes with [parseFrame] gives back one TEXT frame with FIN set
    whose payload is exactly [p] and leaves nothing in the buffer; and so
    does decoding the masked frame of a client for [p], under any masking
    key of four bytes. *)
Theorem frame_round_trip (p key : Buffer) :
  bytes p -> buf_len p < 2 ^ 53 -> length key = 4%nat ->
  send_frame p = encode 0x01 p
  /\ parseFrame (send_frame p) = Some (mkFrame true 0x01 p, [])
  /\ parseFrame (client_frame 0x81 key p) = Some (mkFrame true 0x01 p, []).
Proof.
  intros Hb Hl Hk.
  assert (Hl' : buf_len p < 2 ^ 64).
  { eapply N.lt_trans; [exact Hl|]. reflexivity. }
  split; [|split].
  - apply send_frame_encode.
  - apply parseFrame_send_frame. exact Hl'.
  - exact (parseFrame_client_frame 0x81 key p Hk Hb Hl').
Qed.

(** A payload of 126 bytes, the first length that needs the 16-bit form. *)
Lemma frame_round_trip_witness :
  parseFrame (send_frame (repeat 0x61 126))
  = Some (mkFrame true 0x01 (repeat 0x61 126), [])
  /\ parseFrame (client_frame 0x81 [0x37; 0xfa; 0x21; 0x3d] (repeat 0x61 126))
     = Some (mkFrame true 0x01 (repeat 0x61 126), []).
Proof.
  assert (H : bytes (repeat 0x61 126)).
  { apply Forall_forall. intros x Hx. apply repeat_spec in Hx. subst x.
    unfold is_byte. lia. }
  destruct (frame_round_trip (repeat 0x61 126) [0x37; 0xfa; 0x21; 0x3d] H)
    as (_ & H1 & H2); [vm_compute; reflexivity | reflexivity |].
  split; assumption.
Defined.

(** ** Partial frames *)

Lemma parseFrame_None_iff (buffer : Buffer) :
  parseFrame buffer = None <->
  match frame_size buffer with
  | None => True
  | Some total => buf_len buffer < total
  end.
Proof.
  unfold parseFrame, frame_size, announced.
  destruct (buf_len buffer <? 2); [tauto|].
  cbv zeta.
  destruct (N.land (buf_get buffer 1) 127 =? 126).
  - destruct (buf_len buffer <? 4); [tauto|].
    destruct (buf_len buffer <? _) eqn:E.
    + apply N.ltb_lt in E. tauto.
    + apply N.ltb_ge in E. split; [discriminate | lia].
  - destruct (N.land (buf_get buffer 1) 127 =? 127).
    + destruct (buf_len buffer <? 10); [tauto|].
      destruct (buf_len buffer <? _) eqn:E.
      * apply N.ltb_lt in E. tauto.
      * apply N.ltb_ge in E. split; [discriminate | lia].
    + destruct (buf_len buffer <? _) eqn:E.
      * apply N.ltb_lt in E. tauto.
      * apply N.ltb_ge in E. split; [discriminate | lia].
Qed.

Lemma parseFrame_Some_size (buffer : Buffer) (frame : Frame) (rest : Buffer) :
  parseFrame buffer = Some (frame, rest) ->
  exists total, frame_size buffer = Some total /\ total <= buf_len buffer
                /\ rest = slice_from buffer total.
Proof.
  unfold parseFrame, frame_size, announced.
  destruct (buf_len buffer <? 2); [discriminate|].
  cbv zeta.
  destruct (N.land (buf_get buffer 1) 127 =? 126).
  - destruct (buf_len buffer <? 4); [discriminate|].
    destruct (buf_len buffer <? _) eqn:E; [discriminate|].
    apply N.ltb_ge in E. intros H. inversion H. eauto.
  - destruct (N.land (buf_get buffer 1) 127 =? 127).
    + destruct (buf_len buffer <? 10); [discriminate|].
      destruct (buf_len buffer <? _) eqn:E; [discriminate|].
      apply N.ltb_ge in E. intros H. inversion H. eauto.
    + destruct (buf_len buffer <? _) eqn:E; [discriminate|].
      apply N.ltb_ge in E. intros H. inversion H. eauto.
Qed.

Lemma slice_prefix (q r : Buffer) (a b : N) :
  b <= buf_len q -> slice (q ++ r) a b = slice q a b.
Proof.
  unfold slice, buf_len. intros H.
  destruct (N.le_gt_cases a b) as [Hab | Hab].
  - rewrite skipn_app, firstn_app.
    replace (N.to_nat (b - a) - length (skipn (N.to_nat a) q))%nat with 0%nat
      by (rewrite length_skipn; lia).
    rewrite firstn_O, app_nil_r. reflexivity.
  - replace (N.to_nat (b - a)) with 0%nat by lia. reflexivity.
Qed.

Lemma buf_get_prefix (q r : Buffer) (i : nat) :
  (i < length q)%nat -> buf_get (q ++ r) i = buf_get q i.
Proof. intros H. unfold buf_get. apply app_nth1. exact H. Qed.

(** A buffer that holds a header announces what any longer buffer with the
    same start announces. *)
Lemma frame_size_prefix (q r : Buffer) (total : N) :
  frame_size (q ++ r) = Some total ->
  frame_size q = None \/ frame_size q = Some total.
Proof.
  unfold frame_size, announced.
  destruct (buf_len q <? 2) eqn:Hq2; [auto|]. apply N.ltb_ge in Hq2.
  assert (Hlen : buf_len q <= buf_len (q ++ r)) by (rewrite buf_len_app; lia).
  replace (buf_len (q ++ r) <? 2) with false by (symmetry; apply N.ltb_ge; lia).
  cbv zeta.
  rewrite (buf_get_prefix q r 1) by (unfold buf_len in Hq2; lia).
  destruct (N.land (buf_get q 1) 127 =? 126).
  - destruct (buf_len q <? 4) eqn:Hq4; [auto|]. apply N.ltb_ge in Hq4.
    replace (buf_len (q ++ r) <? 4) with false by (symmetry; apply N.ltb_ge; lia).
    unfold readUInt16BE. rewrite slice_prefix by exact Hq4. auto.
  - destruct (N.land (buf_get q 1) 127 =? 127).
    + destruct (buf_len q <? 10) eqn:Hq10; [auto|]. apply N.ltb_ge in Hq10.
      replace (buf_len (q ++ r) <? 10) with false by (symmetry; apply N.ltb_ge; lia).
      unfold readBigUInt64BE. rewrite slice_prefix by exact Hq10. auto.
    + auto.
Qed.

Lemma slice_from_nil (b : Buffer) (n : N) :
  n <= buf_len b -> slice_from b n = [] -> n = buf_len b.
Proof.
  intros Hn H. pose proof (slice_from_length b n Hn) as Hl.
  rewrite H in Hl. unfold buf_len in *. simpl in Hl. lia.
Qed.

(** No strict prefix of a frame parses. *)
Lemma parseFrame_strict_prefix (q r : Buffer) (frame : Frame) :
  parseFrame (q ++ r) = Some (frame, []) -> r <> [] -> parseFrame q = None.
Proof.
  intros Hf Hr.
  destruct (parseFrame_Some_size _ _ _ Hf) as (total & Hs & Hle & Hrest).
  symmetry in Hrest. apply slice_from_nil in Hrest; [|exact Hle].
  apply parseFrame_None_iff.
  destruct (frame_size_prefix q r total Hs) as [Hq | Hq]; rewrite Hq; [exact I|].
  rewrite Hrest, buf_len_app.
  destruct r; [congruence|]. rewrite buf_len_cons. lia.
Qed.

Lemma drain_None (buffer : Buffer) :
  parseFrame buffer = None -> drain buffer = (buffer, []).
Proof.
  intros H. rewrite drain_step, H. destruct (2 <=? buf_len buffer); reflexivity.
Qed.

Lemma drain_nil : drain [] = ([], []).
Proof. apply drain_None. reflexivity. Qed.



Lemma drain_single (f : Buffer) (frame : Frame) :
  parseFrame f = Some (frame, []) -> drain f = ([], fst (dispatch frame)).
Proof.
  intros H. rewrite drain_step, H.
  destruct (2 <=? buf_len f) eqn:E.
  - destruct (dispatch frame) as [effects [|]]; cbn [fst].
    + rewrite drain_nil. cbn [fst snd]. rewrite app_nil_r. reflexivity.
    + reflexivity.
  - apply N.leb_gt in E. unfold parseFrame in H.
    replace (buf_len f <? 2) with true in H by (symmetry; apply N.ltb_lt; exact E).
    discriminate.
Qed.

Lemma feed_nothing (arrivals : list Buffer) :
  concat arrivals = [] -> feed [] arrivals = ([], []).
Proof.
  induction arrivals as [|data later IH]; intros H; [reflexivity|].
  cbn [concat] in H. apply app_eq_nil in H. destruct H as [-> H].
  cbn [feed]. unfold handleData. cbn [app]. rewrite drain_nil, (IH H).
  reflexivity.
Qed.

Lemma feed_frame (f : Buffer) (frame : Frame) (arrivals : list Buffer) :
  parseFrame f = Some (frame, []) ->
  forall buffer, buffer ++ concat arrivals = f -> concat arrivals <> [] ->
  feed buffer arrivals = drain f.
Proof.
  intros Hf. induction arrivals as [|data later IH]; intros buffer Hcat Hne.
  - contradiction.
  - cbn [concat] in Hcat, Hne. cbn [feed]. unfold handleData.
    destruct (concat later) as [|c cs] eqn:Hl.
    + rewrite app_nil_r in Hcat. rewrite Hcat.
      rewrite (drain_single f frame Hf), (feed_nothing later Hl).
      rewrite app_nil_r. reflexivity.
    + rewrite app_assoc in Hcat.
      rewrite (drain_None (buffer ++ data)).
      * rewrite (IH (buffer ++ data)); [| exact Hcat | discriminate].
        destruct (drain f). reflexivity.
      * apply (parseFrame_strict_prefix (buffer ++ data) (c :: cs) frame).
        -- rewrite Hcat. exact Hf.
        -- discriminate.
Qed.

(** C3. Partial frames. Let [f] be one complete frame: [parseFrame] accepts
    it and leaves nothing. However the bytes of [f] are cut into arrivals,
    feeding them one after the other leaves the connection in the same
    state, after the same calls, as feeding [f] in one arrival: the frame is
    dispatched once, when its last byte has arrived. While bytes of [f] are
    still missing, [parseFrame] returns nothing and [handleData] keeps every
    byte in the receive buffer and makes no call; more generally this is so
    whenever the receive buffer is shorter than its header, or than the
    frame its header announces ([frame_size]: header, extended length, mask
    key and payload). *)
Theorem partial_frame_resilience (f : Buffer) (frame : Frame) :
  parseFrame f = Some (frame, []) ->
  (forall arrivals, concat arrivals = f -> feed [] arrivals = handleData [] f)
  /\ handleData [] f = ([], fst (dispatch frame))
  /\ (forall buffer data missing,
        buffer ++ data ++ missing = f -> missing <> [] ->
        parseFrame (buffer ++ data) = None
        /\ handleData buffer data = (buffer ++ data, []))
  /\ (forall buffer data,
        match frame_size (buffer ++ data) with
        | None => True
        | Some total => buf_len (buffer ++ data) < total
        end ->
        parseFrame (buffer ++ data) = None
        /\ handleData buffer data = (buffer ++ data, [])).
Proof.
  intros Hf. split; [|split; [|split]].
  4:{ intros buffer data Hs. apply parseFrame_None_iff in Hs.
      split; [exact Hs|]. unfold handleData. apply drain_None. exact Hs. }
  - intros arrivals Hcat. unfold handleData. cbn [app].
    apply (feed_frame f frame arrivals Hf); [exact Hcat|].
    rewrite Hcat. intros ->. discriminate.
  - unfold handleData. cbn [app]. apply drain_single. exact Hf.
  - intros buffer data missing Hcat Hm.
    assert (Hn : parseFrame (buffer ++ data) = None).
    { apply (parseFrame_strict_prefix _ missing frame); [|exact Hm].
      rewrite <- app_assoc, Hcat. exact Hf. }
    split; [exact Hn|]. unfold handleData. apply drain_None. exact Hn.
Qed.

Lemma partial_frame_resilience_witness :
  let f := client_frame 0x81 [1; 2; 3; 4] (js "resize") in
  feed [] [[0x81]; [0x86; 1]; [2; 3; 4; 115; 103; 112]; [109; 123; 103]] = handleData [] f
  /\ handleData [] f = ([], [Emit_message (js "resize")])
  /\ handleData [0x81] [0x86; 1] = ([0x81; 0x86; 1], []).
Proof.
  assert (Hf : parseFrame (client_frame 0x81 [1; 2; 3; 4] (js "resize"))
               = Some (mkFrame true 1 (js "resize"), [])) by (vm_compute; reflexivity).
  destruct (partial_frame_resilience _ _ Hf) as (H1 & H2 & H3 & _).
  split; [|split].
  - apply H1. vm_compute. reflexivity.
  - exact H2.
  - apply (H3 [0x81] [0x86; 1] [2; 3; 4; 115; 103; 112; 109; 123; 103]).
    + vm_compute. reflexivity.
    + discriminate.
Defined.

(** ** The FIN bit and the opcodes *)

Lemma land_lxor_fin (b : N) : N.land (N.lxor b 0x80) 0x0f = N.land b 0x0f.
Proof.
  apply N.bits_inj. intros n.
  rewrite !N.land_spec, N.lxor_spec.
  change 15 with (N.ones 4).
  destruct (N.lt_ge_cases n 4) as [Hn | Hn].
  - change 128 with (2 ^ 7). rewrite N.pow2_bits_false by lia.
    rewrite xorb_false_r. reflexivity.
  - rewrite N.ones_spec_high by exact Hn. rewrite !andb_false_r. reflexivity.
Qed.

Lemma slice_tail (x y : N) (l : Buffer) (a b : N) :
  1 <= a -> slice (x :: l) a b = slice (y :: l) a b.
Proof.
  intros Ha. unfold slice.
  destruct (N.to_nat a) as [|k] eqn:E; [lia|]. reflexivity.
Qed.

Lemma slice_from_tail (x y : N) (l : Buffer) (a : N) :
  1 <= a -> slice_from (x :: l) a = slice_from (y :: l) a.
Proof.
  intros Ha. unfold slice_from.
  destruct (N.to_nat a) as [|k] eqn:E; [lia|]. reflexivity.
Qed.

(** Only [fin] and [opcode] of the parsed frame come from the first byte. *)
Lemma parseFrame_first_byte (x y : N) (more : Buffer) :
  parseFrame (y :: more)
  = match parseFrame (x :: more) with
    | None => None
    | Some (frame, rest) =>
      Some (mkFrame (negb (N.land y 0x80 =? 0)) (N.land y 0x0f) (payload frame), rest)
    end.
Proof.
  unfold parseFrame.
  change (buf_len (y :: more)) with (buf_len (x :: more)).
  destruct (buf_len (x :: more) <? 2); [reflexivity|].
  change (buf_get (y :: more) 1) with (buf_get (x :: more) 1).
  change (buf_get (y :: more) 0) with y.
  unfold readUInt16BE, readBigUInt64BE.
  rewrite !(slice_tail y x more) by lia.
  cbv zeta.
  destruct (N.land (buf_get (x :: more) 1) 127 =? 126).
  - destruct (buf_len (x :: more) <? 4); [reflexivity|].
    destruct (buf_len (x :: more) <? _); [reflexivity|].
    rewrite !(slice_tail y x more), (slice_from_tail y x more) by lia.
    reflexivity.
  - destruct (N.land (buf_get (x :: more) 1) 127 =? 127).
    + destruct (buf_len (x :: more) <? 10); [reflexivity|].
      destruct (buf_len (x :: more) <? _); [reflexivity|].
      rewrite !(slice_tail y x more), (slice_from_tail y x more) by lia.
      reflexivity.
    + destruct (buf_len (x :: more) <? _); [reflexivity|].
      rewrite !(slice_tail y x more), (slice_from_tail y x more) by lia.
      reflexivity.
Qed.

Lemma dispatch_opcode (frame frame' : Frame) :
  opcode frame = opcode frame' -> payload frame = payload frame' ->
  dispatch frame = dispatch frame'.
Proof. unfold dispatch. intros -> ->. reflexivity. Qed.

Lemma drain_flip_fin (b1 : N) (more : Buffer) :
  snd (drain (N.lxor b1 0x80 :: more)) = snd (drain (b1 :: more)).
Proof.
  rewrite (drain_step (N.lxor b1 0x80 :: more)), (drain_step (b1 :: more)).
  change (buf_len (N.lxor b1 0x80 :: more)) with (buf_len (b1 :: more)).
  rewrite (parseFrame_first_byte b1 (N.lxor b1 0x80) more).
  destruct (2 <=? buf_len (b1 :: more)); [|reflexivity].
  destruct (parseFrame (b1 :: more)) as [[frame rest]|] eqn:Hp; [|reflexivity].
  rewrite (dispatch_opcode _ frame); [reflexivity | | reflexivity].
  cbn [opcode]. rewrite land_lxor_fin.
  pose proof (parseFrame_first_byte b1 b1 more) as H. rewrite Hp in H.
  inversion H. destruct frame; cbn in *. congruence.
Qed.

Lemma drain_text (buffer : Buffer) (frame : Frame) (rest : Buffer) :
  parseFrame buffer = Some (frame, rest) -> opcode frame = 0x01 ->
  drain buffer
  = (fst (drain rest), Emit_message (Node.toString (payload frame)) :: snd (drain rest)).
Proof.
  intros Hp Ho. rewrite drain_step, Hp.
  destruct (2 <=? buf_len buffer) eqn:E.
  - unfold dispatch. rewrite Ho. reflexivity.
  - apply N.leb_gt in E. unfold parseFrame in Hp.
    replace (buf_len buffer <? 2) with true in Hp by (symmetry; apply N.ltb_lt; exact E).
    discriminate.
Qed.

Lemma drain_ignored (buffer : Buffer) (frame : Frame) (rest : Buffer) :
  parseFrame buffer = Some (frame, rest) ->
  opcode frame <> 0x01 -> opcode frame <> 0x08 -> opcode frame <> 0x09 ->
  drain buffer = drain rest.
Proof.
  intros Hp H1 H8 H9. rewrite drain_step, Hp.
  destruct (2 <=? buf_len buffer) eqn:E.
  - unfold dispatch.
    apply N.eqb_neq in H1, H8, H9. rewrite H1, H8, H9.
    cbn [app]. destruct (drain rest). reflexivity.
  - apply N.leb_gt in E. unfold parseFrame in Hp.
    replace (buf_len buffer <? 2) with true in Hp by (symmetry; apply N.ltb_lt; exact E).
    discriminate.
Qed.

(** C10. The FIN bit is parsed and never consulted. Whenever the receive
    buffer starts with a whole frame: a TEXT frame has its payload emitted
    as a message whatever its FIN bit, after which the rest of the buffer is
    handled; a frame whose opcode is not TEXT, CLOSE or PING (so a
    CONTINUATION or BINARY frame) is taken off the buffer and nothing is
    done with it, the outcome being that of the rest of the buffer alone.
    Flipping the FIN bit of the first byte of an arrival changes none of the
    calls made. *)
Theorem fin_never_consulted (buffer data : Buffer) (frame : Frame) (rest : Buffer) :
  parseFrame (buffer ++ data) = Some (frame, rest) ->
  (opcode frame = 0x01 ->
   handleData buffer data
   = (fst (handleData [] rest),
      Emit_message (Node.toString (payload frame)) :: snd (handleData [] rest)))
  /\ (opcode frame <> 0x01 -> opcode frame <> 0x08 -> opcode frame <> 0x09 ->
      handleData buffer data = handleData [] rest)
  /\ (forall byte1 more,
      snd (handleData [] (N.lxor byte1 0x80 :: more)) = snd (handleData [] (byte1 :: more))).
Proof.
  intros Hp. unfold handleData. cbn [app]. split; [|split].
  - apply drain_text. exact Hp.
  - apply drain_ignored. exact Hp.
  - apply drain_flip_fin.
Qed.

(** A text fragment with FIN clear, then its continuation, then a binary
    frame, in one arrival. *)
Lemma fin_never_consulted_witness :
  handleData [] [0x01; 2; 104; 101; 0x80; 1; 121; 0x82; 1; 0]
  = ([], [Emit_message (js "he")]).
Proof.
  pose (tail := [0x80; 1; 121; 0x82; 1; 0]).
  assert (H1 : parseFrame ([] ++ [0x01; 2; 104; 101] ++ tail)
               = Some (mkFrame false 1 [104; 101], tail)) by (vm_compute; reflexivity).
  destruct (fin_never_consulted [] _ _ _ H1) as (Ht & _ & _).
  cbn [app] in Ht. unfold tail in Ht.
  rewrite (Ht eq_refl).
  assert (H2 : parseFrame ([] ++ [0x80; 1; 121; 0x82; 1; 0])
               = Some (mkFrame true 0 [121], [0x82; 1; 0])) by (vm_compute; reflexivity).
  destruct (fin_never_consulted [] _ _ _ H2) as (_ & Hi & _).
  cbn [app] in Hi. rewrite Hi by (cbn; discriminate).
  assert (H3 : parseFrame ([] ++ [0x82; 1; 0])
               = Some (mkFrame true 2 [0], [])) by (vm_compute; reflexivity).
  destruct (fin_never_consulted [] _ _ _ H3) as (_ & Hj & _).
  cbn [app] in Hj. rewrite Hj by (cbn; discriminate).
  vm_compute. reflexivity.
Defined.

(** ** PING and PONG *)

Lemma pong_frame_small (p : Buffer) :
  buf_len p < 126 -> pong_frame p = encode 0x0a p.
Proof.
  intros H. unfold pong_frame, encode.
  replace (buf_len p <? 126) with true by (symmetry; apply N.ltb_lt; exact H).
  rewrite u8_byte by lia. reflexivity.
Qed.



(** C8, at a PING that carries 126 bytes. [handleData] answers with the two
    bytes 0x8A 0x7E followed by the payload: 126 is written in the length
    byte and no extended length follows. The outbound encoding of the same
    payload has 0x00 0x7E after 0x7E. What is sent does not parse as a
    frame: it announces a 16-bit length that it does not carry. *)
Theorem pong_oversized :
  handleData [] long_ping = ([], [Socket_write (0x8a :: 126 :: ping_payload)])
  /\ encode 0x0a ping_payload = 0x8a :: 126 :: 0 :: 126 :: ping_payload
  /\ pong_frame ping_payload <> encode 0x0a ping_payload
  /\ parseFrame (pong_frame ping_payload) = None.
Proof.
  split; [vm_compute; reflexivity|].
  split; [vm_compute; reflexivity|].
  split; [|vm_compute; reflexivity].
  intros H. apply (f_equal (fun l => nth 2 l 0)) in H. vm_compute in H.
  discriminate.
Qed.

(** A PING with a payload below 126 bytes is answered with one PONG frame
    in the outbound encoding. *)
Lemma ping_answered (buffer data rest p : Buffer) (f : bool) :
  parseFrame (buffer ++ data) = Some (mkFrame f 0x09 p, rest) ->
  buf_len p < 126 ->
  handleData buffer data
  = (fst (handleData [] rest), Socket_write (encode 0x0a p) :: snd (handleData [] rest)).
Proof.
  intros Hp Hl. unfold handleData. cbn [app].
  rewrite drain_step, Hp.
  destruct (2 <=? buf_len (buffer ++ data)) eqn:E.
  - unfold dispatch. cbn [opcode payload].
    change (9 =? 1) with false. change (9 =? 8) with false.
    change (9 =? 9) with true. cbv iota.
    unfold sendPong. rewrite pong_frame_small by exact Hl. reflexivity.
  - apply N.leb_gt in E. unfold parseFrame in Hp.
    replace (buf_len (buffer ++ data) <? 2) with true in Hp
      by (symmetry; apply N.ltb_lt; exact E).
    discriminate.
Qed.

(* ===================================================================== *)
(** * The upgrade handler *)
(* ===================================================================== *)

(** C1. The accept value. For a request to the WebSocket endpoint whose
    [Sec-WebSocket-Key] is a (non-empty) string [key], the handler writes
    the 101 response whose [Sec-WebSocket-Accept] is the base64 form of the
    SHA-1 digest of the UTF-8 bytes of [key] followed by the GUID
    258EAFA5-E914-47DA-95CA-C5AB0DC85B11, a function of [key] alone, and
    starts the session. For the key dGhlIHNhbXBsZSBub25jZQ== this value is
    s3pPLMBiTxaQ9kYGzzhZRbK+xOo=. *)
Theorem accept_key_of_handshake :
  (forall req key,
     startsWith (url req) (js "/ws") = true ->
     sec_websocket_key req = Some key -> key <> [] ->
     server_on_upgrade req
     = [Socket_write
          (Node.Buffer_from
             (switching_protocols
                (Node.base64
                   (Node.sha1
                      (Node.Buffer_from
                         (key ++ js "258EAFA5-E914-47DA-95CA-C5AB0DC85B11"))))));
        Spawn_session (url req)])
  /\ Node.base64
       (Node.sha1
          (Node.Buffer_from
             (js "dGhlIHNhbXBsZSBub25jZQ=="
                ++ js "258EAFA5-E914-47DA-95CA-C5AB0DC85B11")))
     = js "s3pPLMBiTxaQ9kYGzzhZRbK+xOo=".
Proof.
  split.
  - intros req key Hurl Hkey Hne. unfold server_on_upgrade.
    rewrite Hurl, Hkey. destruct key as [|c key]; [congruence|]. reflexivity.
  - vm_compute. reflexivity.
Qed.

Lemma accept_key_of_handshake_witness :
  server_on_upgrade
    (mkRequest (js "/ws?cols=80&rows=24") (Some (js "dGhlIHNhbXBsZSBub25jZQ==")))
  = [Socket_write
       (Node.Buffer_from
          (js "HTTP/1.1 101 Switching Protocols" ++ CRLF
           ++ js "Upgrade: websocket" ++ CRLF
           ++ js "Connection: Upgrade" ++ CRLF
           ++ js "Sec-WebSocket-Accept: s3pPLMBiTxaQ9kYGzzhZRbK+xOo="
           ++ CRLF ++ CRLF));
     Spawn_session (js "/ws?cols=80&rows=24")].
Proof.
  destruct accept_key_of_handshake as [H E].
  rewrite (H (mkRequest (js "/ws?cols=80&rows=24") (Some (js "dGhlIHNhbXBsZSBub25jZQ==")))
             (js "dGhlIHNhbXBsZSBub25jZQ==")); [| reflexivity | reflexivity | discriminate].
  rewrite E. reflexivity.
Defined.



(** An empty key header is refused like a missing one. *)
Lemma empty_key_refused (req : Request) :
  startsWith (url req) (js "/ws") = true -> sec_websocket_key req = Some [] ->
  server_on_upgrade req = [Socket_end (Node.Buffer_from bad_request)].
Proof. unfold server_on_upgrade. intros -> ->. reflexivity. Qed.

(* ===================================================================== *)
(** * Messages from the client *)
(* ===================================================================== *)

Lemma jsstring_eqb_eq (a b : JSString) : jsstring_eqb a b = true -> a = b.
Proof.
  revert b. induction a as [|x a IH]; intros [|y b]; simpl; try discriminate; auto.
  intros H. apply andb_true_iff in H. destruct H as [Hx Hab].
  apply N.eqb_eq in Hx. f_equal; auto.
Qed.

Lemma jsstring_eqb_refl (a : JSString) : jsstring_eqb a a = true.
Proof. induction a; simpl; [reflexivity|]. rewrite N.eqb_refl. exact IHa. Qed.

Section MessageHandler.

Variable Number : Type.
Variable Number_toString : Number -> JSString.
Variable Number_truthy : Number -> bool.
Variable JSON_parse : JSString -> option (JSValue Number).

Lemma is_string_true (v : option (JSValue Number)) (literal : JSString) :
  is_string v literal = true <-> v = Some (JString literal).
Proof.
  unfold is_string. destruct v as [[| | |s| |]|]; split; try discriminate;
    intros H; try (inversion H; fail).
  - apply jsstring_eqb_eq in H. subst. reflexivity.
  - inversion H; subst. apply jsstring_eqb_refl.
Qed.

(** The handler on a message that is a resize object. *)
Lemma ws_on_message_resize (data : JSString) (props : list (JSString * JSValue Number)) :
  JSON_parse data = Some (JObject props) ->
  own_property props (js "type") = Some (JString (js "resize")) ->
  ws_on_message Number_toString Number_truthy JSON_parse data
  = ([Stdin_write (stty_command Number_toString (own_property props (js "cols"))
                                (own_property props (js "rows")))],
     Returned tt).
Proof.
  intros Hp Ht. unfold ws_on_message, parse. rewrite Hp.
  unfold truthy, typeof, get_prop.
  change (jsstring_eqb (js "object") (js "object")) with true.
  cbv beta iota. unfold bind at 2. unfold ret at 1. cbv beta iota.
  rewrite Ht.
  change (is_string (Some (JString (js "resize"))) (js "resize")) with true.
  reflexivity.
Qed.

(** The handler on any other message. *)
Lemma ws_on_message_input (data : JSString) :
  ~ resize_message JSON_parse data ->
  ws_on_message Number_toString Number_truthy JSON_parse data
  = ([Stdin_write data], Returned tt).
Proof.
  intros Hn. unfold ws_on_message, parse.
  destruct (JSON_parse data) as [msg|] eqn:Hp; [|reflexivity].
  destruct msg as [|b|n|s|items|props]; cbn.
  - reflexivity.
  - destruct b; reflexivity.
  - destruct (Number_truthy n); reflexivity.
  - destruct (negb (jsstring_eqb s [])); reflexivity.
  - reflexivity.
  - change (own_property props [116; 121; 112; 101])
      with (own_property props (js "type")).
    change [114; 101; 115; 105; 122; 101] with (js "resize").
    destruct (is_string (own_property props (js "type")) (js "resize")) eqn:E;
      [|reflexivity].
    apply is_string_true in E. exfalso. apply Hn. exists props. auto.
Qed.

Lemma ws_on_message_returns (data : JSString) :
  snd (ws_on_message Number_toString Number_truthy JSON_parse data) = Returned tt.
Proof.
  unfold ws_on_message, parse.
  destruct (JSON_parse data) as [msg|] eqn:Hp; [|reflexivity].
  destruct msg as [|b|n|s|items|props]; cbn.
  - reflexivity.
  - destruct b; reflexivity.
  - destruct (Number_truthy n); reflexivity.
  - destruct (negb (jsstring_eqb s [])); reflexivity.
  - reflexivity.
  - destruct (is_string _ _); reflexivity.
Qed.


End MessageHandler.


(** The demo server keeps a resize message away from the process too, but
    sends no command for it; and it takes for a resize message only a
    payload that starts with a brace. *)
Lemma demo_resize_dropped :
  Demo.message Json.parse [] true (Json.text "{'type':'resize','cols':100,'rows':40}")
  = ([], Returned tt)
  /\ Demo.message Json.parse [] true (Json.text " {'type':'resize','cols':100,'rows':40}")
     = ([Stdin_write (Json.text " {'type':'resize','cols':100,'rows':40}")],
        Returned tt)
  /\ Demo.message Json.parse [] true (Json.text "{'type':'resize'")
     = ([Stdin_write (Json.text "{'type':'resize'")], Returned tt).
Proof. repeat split; vm_compute; reflexivity. Qed.

(* ===================================================================== *)
(** * Text encodings and the title filter *)
(* ===================================================================== *)

Lemma all_below_spec (n : positive) (P : N -> bool) :
  all_below n P = true -> forall i, i < Npos n -> P i = true.
Proof.
  unfold all_below.
  set (f := fun s : N * bool => (N.succ (fst s), snd s && P (fst s))).
  assert (H : forall k, fst (Pos.iter f (0, true) k) = Npos k
              /\ (snd (Pos.iter f (0, true) k) = true ->
                  forall i, i < Npos k -> P i = true)).
  { induction k as [|k [IH1 IH2]] using Pos.peano_ind.
    - cbn. split; [reflexivity|]. intros Hp i Hi.
      replace i with 0 by lia.
      destruct (P 0); [reflexivity | discriminate].
    - rewrite Pos.iter_succ. unfold f at 1 3. cbn [fst snd]. rewrite IH1.
      split; [lia|]. intros Hp i Hi.
      apply andb_true_iff in Hp. destruct Hp as [Hs Hk].
      destruct (N.eq_dec i (Npos k)) as [-> | Hne]; [exact Hk|].
      apply IH2; [exact Hs | lia]. }
  intros Hn. apply (proj2 (H n)). exact Hn.
Qed.

(** ** The decoder on well-formed UTF-8 *)

Lemma decode_run_app (a b : Buffer) (st : option Node.Pending) :
  decode_run st (a ++ b)
  = (fst (decode_run (fst (decode_run st a)) b),
     snd (decode_run st a) ++ snd (decode_run (fst (decode_run st a)) b)).
Proof.
  revert st. induction a as [|x a IH]; intros st; cbn [app decode_run].
  - cbn [fst snd app]. destruct (decode_run st b). reflexivity.
  - destruct (Node.decode_step st x) as [st' out]. rewrite IH.
    destruct (decode_run st' a) as [st'' out']. cbn [fst snd].
    rewrite app_assoc. reflexivity.
Qed.

Lemma decode_from_app (a b : Buffer) (st : option Node.Pending) :
  Node.decode_from st (a ++ b)
  = snd (decode_run st a) ++ Node.decode_from (fst (decode_run st a)) b.
Proof.
  revert st. induction a as [|x a IH]; intros st; cbn [app decode_run Node.decode_from].
  - reflexivity.
  - destruct (Node.decode_step st x) as [st' out].
    rewrite IH. destruct (decode_run st' a) as [st'' out'].
    cbn [fst snd]. rewrite app_assoc. reflexivity.
Qed.

Lemma reaches_true (lead : Buffer) (acc need : N) :
  reaches lead acc need = true ->
  decode_run None lead = (Some (Node.mkPending acc need 0x80 0xBF), []).
Proof.
  unfold reaches. destruct (decode_run None lead) as [[[a n l u]|] [|o out]];
    try discriminate.
  cbn [Node.cp_acc Node.needed Node.lower Node.upper]. intros H.
  repeat (apply andb_true_iff in H; destruct H as [H ?]).
  repeat match goal with E : (_ =? _) = true |- _ => apply N.eqb_eq in E end.
  subst. reflexivity.
Qed.

(** The first bytes of the characters of two, three and four bytes, and the
    continuation bytes, by enumeration. *)
Lemma lead_checks :
  all_below 32 (fun a => implb (2 <=? a) (reaches [N.lor 0xC0 a] a 1)) = true
  /\ all_below 0x400
       (fun h => implb ((0x20 <=? h) && negb ((0x360 <=? h) && (h <? 0x380)))
                   (reaches [N.lor 0xE0 (N.shiftr h 6); N.lor 0x80 (N.land h 0x3F)] h 1))
     = true
  /\ all_below 0x110
       (fun h => implb (0x10 <=? h)
                   (reaches [N.lor 0xF0 (N.shiftr h 6); N.lor 0x80 (N.land h 0x3F)] h 2))
     = true
  /\ all_below 64
       (fun v => (0x80 <=? N.lor 0x80 v) && (N.lor 0x80 v <=? 0xBF)
                 && (N.land (N.lor 0x80 v) 0x3F =? v))
     = true.
Proof. repeat split; vm_compute; reflexivity. Qed.

Lemma lor_shiftl_low (acc v : N) :
  v < 64 -> N.lor (N.shiftl acc 6) v = acc * 64 + v.
Proof.
  intros Hv.
  assert (Hd : N.land (N.shiftl acc 6) v = 0).
  { apply N.bits_inj. intros n. rewrite N.land_spec, N.bits_0.
    destruct (N.lt_ge_cases n 6) as [Hn | Hn].
    - rewrite N.shiftl_spec_low by exact Hn. reflexivity.
    - replace (N.testbit v n) with false; [apply andb_false_r|].
      symmetry. destruct (N.eq_dec v 0) as [-> | Hv0]; [apply N.bits_0|].
      apply N.bits_above_log2.
      assert (N.log2 v < 6) by (apply N.log2_lt_pow2; [lia | exact Hv]).
      lia. }
  rewrite <- (N.lxor_lor _ _ Hd), <- (N.add_nocarry_lxor _ _ Hd).
  rewrite N.shiftl_mul_pow2. reflexivity.
Qed.

(** A continuation byte received inside a character. *)
Lemma continuation_step (acc need x : N) :
  Node.decode_step (Some (Node.mkPending acc need 0x80 0xBF))
                   (N.lor 0x80 (N.land x 0x3F))
  = if need =? 1 then (None, Node.utf16_units (acc * 64 + x mod 64))
    else (Some (Node.mkPending (acc * 64 + x mod 64) (need - 1) 0x80 0xBF), []).
Proof.
  change 0x3F with (N.ones 6) at 1. rewrite N.land_ones. change (2 ^ 6) with 64.
  assert (Hv : x mod 64 < 64) by (apply N.mod_lt; discriminate).
  pose proof (all_below_spec _ _ (proj2 (proj2 (proj2 lead_checks))) (x mod 64) Hv) as H.
  cbv beta in H.
  apply andb_true_iff in H. destruct H as [H H3].
  apply andb_true_iff in H. destruct H as [H1 H2]. apply N.eqb_eq in H3.
  unfold Node.decode_step. cbn [Node.lower Node.upper Node.cp_acc Node.needed].
  rewrite H1, H2, H3. cbn [andb].
  rewrite lor_shiftl_low by exact Hv. reflexivity.
Qed.

Lemma is_scalar_below (cp : N) : is_scalar cp = true -> cp < 0x110000.
Proof.
  unfold is_scalar. intros H. apply orb_true_iff in H.
  destruct H as [H | H].
  - apply N.ltb_lt in H. lia.
  - apply andb_true_iff in H. destruct H as [_ H]. apply N.ltb_lt in H. exact H.
Qed.

Lemma is_scalar_not_surrogate (cp : N) :
  is_scalar cp = true -> cp < 0xD800 \/ 0xE000 <= cp.
Proof.
  unfold is_scalar. intros H. apply orb_true_iff in H.
  destruct H as [H | H].
  - apply N.ltb_lt in H. auto.
  - apply andb_true_iff in H. destruct H as [H _]. apply N.leb_le in H. auto.
Qed.

Lemma digits_64 (cp : N) :
  cp / 64 * 64 + cp mod 64 = cp
  /\ cp / 4096 * 64 + (cp / 64) mod 64 = cp / 64
  /\ cp / 4096 = cp / 64 / 64 /\ cp / 262144 = cp / 4096 / 64.
Proof.
  assert (H1 := N.div_mod cp 64 ltac:(discriminate)).
  assert (H2 := N.div_mod (cp / 64) 64 ltac:(discriminate)).
  assert (H3 : cp / 64 / 64 = cp / 4096) by (rewrite N.Div0.div_div; reflexivity).
  assert (H4 : cp / 4096 / 64 = cp / 262144) by (rewrite N.Div0.div_div; reflexivity).
  rewrite <- H3 at 1.
  revert H1 H2 H3 H4.
  generalize (cp / 262144) as d, (cp / 4096) as c, (cp / 64 / 64) as b',
             ((cp / 64) mod 64) as m2, (cp mod 64) as m1, (cp / 64) as b.
  intros. repeat split; lia.
Qed.

(** The bytes of one character, decoded from the initial state, give its
    code units and leave the decoder in the initial state. *)
Lemma decode_scalar (cp : N) :
  is_scalar cp = true ->
  decode_run None (Node.utf8_units cp) = (None, Node.utf16_units cp).
Proof.
  intros Hs. pose proof (is_scalar_below cp Hs) as Hlt.
  destruct (digits_64 cp) as (D1 & D2 & D3 & D4).
  unfold Node.utf8_units.
  rewrite !N.shiftr_div_pow2.
  change (2 ^ 6) with 64. change (2 ^ 12) with 4096. change (2 ^ 18) with 262144.
  destruct (cp <? 0x80) eqn:H1; [|destruct (cp <? 0x800) eqn:H2;
                                   [|destruct (cp <? 0x10000) eqn:H3]].
  - (* one byte *)
    apply N.ltb_lt in H1. cbn [decode_run Node.decode_step]. unfold Node.decode_lead.
    replace (cp <=? 0x7F) with true by (symmetry; apply N.leb_le; lia).
    unfold Node.utf16_units.
    replace (cp <? 0x10000) with true by (symmetry; apply N.ltb_lt; lia).
    reflexivity.
  - (* two bytes *)
    apply N.ltb_ge in H1. apply N.ltb_lt in H2.
    assert (Ha : cp / 64 < 32) by (apply N.Div0.div_lt_upper_bound; lia).
    assert (Ha' : 2 <= cp / 64) by (apply N.div_le_lower_bound; lia).
    pose proof (all_below_spec _ _ (proj1 lead_checks) (cp / 64) Ha) as H.
    cbv beta in H.
    replace (2 <=? cp / 64) with true in H by (symmetry; apply N.leb_le; exact Ha').
    cbn [implb] in H. apply reaches_true in H.
    change [N.lor 0xC0 (cp / 64); N.lor 0x80 (N.land cp 0x3F)]
      with ([N.lor 0xC0 (cp / 64)] ++ [N.lor 0x80 (N.land cp 0x3F)]).
    rewrite decode_run_app, H. cbn [fst snd decode_run].
    rewrite continuation_step. cbn [N.eqb Pos.eqb]. rewrite D1.
    cbn [fst snd app]. rewrite ?app_nil_r. reflexivity.
  - (* three bytes *)
    apply N.ltb_ge in H2. apply N.ltb_lt in H3.
    assert (Ha : cp / 64 < 0x400) by (apply N.Div0.div_lt_upper_bound; lia).
    assert (Ha' : 0x20 <= cp / 64) by (apply N.div_le_lower_bound; lia).
    assert (Hsur : ((0x360 <=? cp / 64) && (cp / 64 <? 0x380)) = false).
    { destruct (is_scalar_not_surrogate cp Hs) as [Hlo | Hhi].
      - replace (0x360 <=? cp / 64) with false; [reflexivity|].
        symmetry. apply N.leb_gt. apply N.Div0.div_lt_upper_bound. lia.
      - replace (cp / 64 <? 0x380) with false; [apply andb_false_r|].
        symmetry. apply N.ltb_ge. apply N.div_le_lower_bound; lia. }
    pose proof (all_below_spec _ _ (proj1 (proj2 lead_checks)) (cp / 64) Ha) as H.
    cbv beta in H. rewrite Hsur in H.
    replace (0x20 <=? cp / 64) with true in H by (symmetry; apply N.leb_le; exact Ha').
    cbn [implb andb negb] in H. apply reaches_true in H.
    rewrite N.shiftr_div_pow2 in H. change (2 ^ 6) with 64 in H. rewrite <- D3 in H.
    change [N.lor 0xE0 (cp / 4096); N.lor 0x80 (N.land (cp / 64) 0x3F);
            N.lor 0x80 (N.land cp 0x3F)]
      with ([N.lor 0xE0 (cp / 4096); N.lor 0x80 (N.land (cp / 64) 0x3F)]
            ++ [N.lor 0x80 (N.land cp 0x3F)]).
    rewrite decode_run_app, H. cbn [fst snd decode_run].
    rewrite continuation_step. cbn [N.eqb Pos.eqb]. rewrite D1.
    cbn [fst snd app]. rewrite ?app_nil_r. reflexivity.
  - (* four bytes *)
    apply N.ltb_ge in H3.
    assert (Ha : cp / 4096 < 0x110) by (apply N.Div0.div_lt_upper_bound; lia).
    assert (Ha' : 0x10 <= cp / 4096) by (apply N.div_le_lower_bound; lia).
    pose proof (all_below_spec _ _ (proj1 (proj2 (proj2 lead_checks))) (cp / 4096) Ha) as H.
    cbv beta in H.
    replace (0x10 <=? cp / 4096) with true in H by (symmetry; apply N.leb_le; exact Ha').
    cbn [implb] in H. apply reaches_true in H.
    rewrite N.shiftr_div_pow2 in H. change (2 ^ 6) with 64 in H. rewrite <- D4 in H.
    change [N.lor 0xF0 (cp / 262144); N.lor 0x80 (N.land (cp / 4096) 0x3F);
            N.lor 0x80 (N.land (cp / 64) 0x3F); N.lor 0x80 (N.land cp 0x3F)]
      with ([N.lor 0xF0 (cp / 262144); N.lor 0x80 (N.land (cp / 4096) 0x3F)]
            ++ [N.lor 0x80 (N.land (cp / 64) 0x3F); N.lor 0x80 (N.land cp 0x3F)]).
    rewrite decode_run_app, H. cbn [fst snd decode_run].
    rewrite continuation_step. cbn [N.eqb Pos.eqb]. rewrite D2.
    change (2 - 1) with 1.
    rewrite continuation_step. cbn [N.eqb Pos.eqb]. rewrite D1.
    cbn [fst snd app]. rewrite ?app_nil_r. reflexivity.
Qed.

(** Well-formed UTF-8 decodes to the UTF-16 form of the same text. *)
Lemma toString_utf8_of (text : list N) :
  well_formed text -> Node.toString (utf8_of text) = utf16_of text.
Proof.
  unfold Node.toString, utf8_of, utf16_of.
  induction 1 as [|cp text Hcp _ IH]; [reflexivity|].
  cbn [flat_map]. rewrite decode_from_app, (decode_scalar cp Hcp).
  cbn [fst snd]. rewrite IH. reflexivity.
Qed.

(** ** The writer on well-formed UTF-16 *)

Lemma surrogate_pair (cp : N) :
  0x10000 <= cp < 0x110000 ->
  let hi := 0xD800 + N.shiftr (cp - 0x10000) 10 in
  let lo := 0xDC00 + N.land (cp - 0x10000) 0x3FF in
  Node.is_high_surrogate hi = true /\ Node.is_low_surrogate lo = true
  /\ 0x10000 + N.shiftl (hi - 0xD800) 10 + (lo - 0xDC00) = cp.
Proof.
  intros Hcp hi lo. subst hi lo.
  change 0x3FF with (N.ones 10).
  rewrite N.land_ones, N.shiftr_div_pow2.
  change (2 ^ 10) with 1024.
  assert (Hd : (cp - 65536) / 1024 < 1024).
  { apply N.Div0.div_lt_upper_bound. lia. }
  assert (Hm : (cp - 65536) mod 1024 < 1024) by (apply N.mod_lt; discriminate).
  pose proof (N.div_mod (cp - 65536) 1024 ltac:(discriminate)) as Hdm.
  revert Hd Hm Hdm.
  generalize ((cp - 65536) / 1024) as q, ((cp - 65536) mod 1024) as r.
  intros q r Hd Hm Hdm.
  unfold Node.is_high_surrogate, Node.is_low_surrogate.
  repeat split.
  - apply andb_true_iff. split; [apply N.leb_le | apply N.ltb_lt]; lia.
  - apply andb_true_iff. split; [apply N.leb_le | apply N.ltb_lt]; lia.
  - rewrite N.shiftl_mul_pow2. change (2 ^ 10) with 1024. lia.
Qed.

Lemma Buffer_from_scalar (cp : N) (rest : JSString) :
  is_scalar cp = true ->
  Node.Buffer_from (Node.utf16_units cp ++ rest)
  = Node.utf8_units cp ++ Node.Buffer_from rest.
Proof.
  intros Hs. pose proof (is_scalar_below cp Hs) as Hlt.
  unfold Node.utf16_units.
  destruct (cp <? 0x10000) eqn:Hb.
  - apply N.ltb_lt in Hb. cbn [app Node.Buffer_from].
    assert (Hh : Node.is_high_surrogate cp = false).
    { unfold Node.is_high_surrogate.
      destruct (is_scalar_not_surrogate cp Hs).
      - replace (0xD800 <=? cp) with false by (symmetry; apply N.leb_gt; lia).
        reflexivity.
      - replace (cp <? 0xDC00) with false by (symmetry; apply N.ltb_ge; lia).
        apply andb_false_r. }
    assert (Hl : Node.is_low_surrogate cp = false).
    { unfold Node.is_low_surrogate.
      destruct (is_scalar_not_surrogate cp Hs).
      - replace (0xDC00 <=? cp) with false by (symmetry; apply N.leb_gt; lia).
        reflexivity.
      - replace (cp <? 0xE000) with false by (symmetry; apply N.ltb_ge; lia).
        apply andb_false_r. }
    rewrite Hh, Hl. reflexivity.
  - apply N.ltb_ge in Hb.
    destruct (surrogate_pair cp (conj Hb Hlt)) as (Hh & Hl & Hcp).
    cbn [app Node.Buffer_from]. rewrite Hh, Hl, Hcp. reflexivity.
Qed.

(** The UTF-16 form of a text is written as its UTF-8 form. *)
Lemma Buffer_from_utf16_of (text : list N) :
  well_formed text -> Node.Buffer_from (utf16_of text) = utf8_of text.
Proof.
  unfold utf8_of, utf16_of.
  induction 1 as [|cp text Hcp _ IH]; [reflexivity|].
  cbn [flat_map]. rewrite (Buffer_from_scalar cp _ Hcp), IH. reflexivity.
Qed.


Lemma replace_osc_nil (d : N) : replace_osc d [] = [].
Proof. simp replace_osc. reflexivity. Qed.

Lemma replace_osc_cons (d c : N) (rest : JSString) :
  replace_osc d (c :: rest)
  = match match_osc d (c :: rest) with
    | Some after => replace_osc d after
    | None => c :: replace_osc d rest
    end.
Proof.
  funelim (replace_osc d (c :: rest)).
  - rewrite e. reflexivity.
  - rewrite e. reflexivity.
Qed.

Lemma replace_osc_keep (d c : N) (rest : JSString) :
  c <> ESC -> replace_osc d (c :: rest) = c :: replace_osc d rest.
Proof.
  intros Hc. rewrite replace_osc_cons.
  destruct rest as [|c1 [|c2 [|c3 body]]]; try reflexivity.
  unfold match_osc. apply N.eqb_neq in Hc. rewrite Hc. reflexivity.
Qed.

Lemma replace_osc_keep_all (d : N) (pre rest : JSString) :
  Forall (fun c => c <> ESC) pre ->
  replace_osc d (pre ++ rest) = pre ++ replace_osc d rest.
Proof.
  induction 1 as [|c pre Hc _ IH]; [reflexivity|].
  cbn [app]. rewrite replace_osc_keep by exact Hc. rewrite IH. reflexivity.
Qed.

Lemma after_bel_keep_all (pre rest : JSString) :
  Forall (fun c => c <> BEL) pre -> after_bel (pre ++ rest) = after_bel rest.
Proof.
  induction 1 as [|c pre Hc _ IH]; [reflexivity|].
  cbn [app after_bel]. apply N.eqb_neq in Hc. rewrite Hc. exact IH.
Qed.

(** ** The filter on encoded text

    The characters of the pattern are ASCII. An encoding that writes an
    ASCII character as itself and any other character with units of 128 or
    more can be filtered before or after encoding. *)
Section Encoded.

Variable enc : N -> list N.
Hypothesis enc_ascii : forall c, c < 128 -> enc c = [c].
Hypothesis enc_other :
  forall c, 128 <= c -> exists u us, enc c = u :: us /\ Forall (fun x => 128 <= x) (u :: us).

Lemma high_units_not (k : N) (l : list N) :
  k < 128 -> Forall (fun x => 128 <= x) l -> Forall (fun c => c <> k) l.
Proof.
  intros Hk H. eapply Forall_impl; [|exact H]. cbv beta. intros; lia.
Qed.

Lemma after_bel_encoded (body : list N) :
  after_bel (flat_map enc body) = option_map (flat_map enc) (after_bel body).
Proof.
  induction body as [|c body IH]; [reflexivity|].
  cbn [flat_map after_bel].
  destruct (N.lt_ge_cases c 128) as [Hc | Hc].
  - rewrite (enc_ascii c Hc). cbn [app after_bel].
    destruct (c =? BEL); [reflexivity | exact IH].
  - destruct (enc_other c Hc) as (u & us & -> & Hh).
    rewrite after_bel_keep_all by (apply high_units_not; [reflexivity | exact Hh]).
    replace (c =? BEL) with false by (symmetry; apply N.eqb_neq; unfold BEL; lia).
    exact IH.
Qed.

(** The head of an encoded text: the head character if it is ASCII, else a
    unit of 128 or more. *)
Lemma encoded_head (c : N) (text : list N) :
  (c < 128 /\ flat_map enc (c :: text) = c :: flat_map enc text)
  \/ (128 <= c /\ exists u rest, flat_map enc (c :: text) = u :: rest /\ 128 <= u).
Proof.
  cbn [flat_map].
  destruct (N.lt_ge_cases c 128) as [Hc | Hc].
  - left. rewrite (enc_ascii c Hc). auto.
  - right. destruct (enc_other c Hc) as (u & us & -> & Hh).
    inversion Hh; subst. split; [exact Hc|]. exists u, (us ++ flat_map enc text). auto.
Qed.

Lemma match_osc_encoded (d : N) (text : list N) :
  d < 128 ->
  match_osc d (flat_map enc text) = option_map (flat_map enc) (match_osc d text).
Proof.
  intros Hd.
  assert (Hno : forall k u, k < 128 -> 128 <= u -> (u =? k) = false)
    by (intros; apply N.eqb_neq; lia).
  destruct text as [|c0 text]; [reflexivity|].
  destruct (encoded_head c0 text) as [[H0 ->] | [H0 (u & rest & -> & Hu)]].
  2:{ transitivity (@None JSString).
      - unfold match_osc. destruct rest as [|? [|? [|? ?]]]; try reflexivity.
        rewrite (Hno ESC u ltac:(reflexivity) Hu). reflexivity.
      - unfold match_osc. destruct text as [|? [|? [|? ?]]]; try reflexivity.
        rewrite (Hno ESC c0 ltac:(reflexivity) H0). reflexivity. }
  destruct text as [|c1 text]; [reflexivity|].
  destruct (encoded_head c1 text) as [[H1 ->] | [H1 (u & rest & -> & Hu)]].
  2:{ transitivity (@None JSString).
      - unfold match_osc. destruct rest as [|? [|? ?]]; try reflexivity.
        rewrite (Hno 93 u ltac:(reflexivity) Hu), andb_false_r. reflexivity.
      - unfold match_osc. destruct text as [|? [|? ?]]; try reflexivity.
        rewrite (Hno 93 c1 ltac:(reflexivity) H1), andb_false_r. reflexivity. }
  destruct text as [|c2 text]; [reflexivity|].
  destruct (encoded_head c2 text) as [[H2 ->] | [H2 (u & rest & -> & Hu)]].
  2:{ transitivity (@None JSString).
      - unfold match_osc. destruct rest as [|? ?]; try reflexivity.
        rewrite (Hno d u Hd Hu), andb_false_r. reflexivity.
      - unfold match_osc. destruct text as [|? ?]; try reflexivity.
        rewrite (Hno d c2 Hd H2), andb_false_r. reflexivity. }
  destruct text as [|c3 text]; [reflexivity|].
  destruct (encoded_head c3 text) as [[H3 ->] | [H3 (u & rest & -> & Hu)]].
  2:{ transitivity (@None JSString).
      - unfold match_osc.
        rewrite (Hno 59 u ltac:(reflexivity) Hu), andb_false_r. reflexivity.
      - unfold match_osc.
        rewrite (Hno 59 c3 ltac:(reflexivity) H3), andb_false_r. reflexivity. }
  unfold match_osc.
  destruct ((c0 =? ESC) && (c1 =? 93) && (c2 =? d) && (c3 =? 59)); [|reflexivity].
  apply after_bel_encoded.
Qed.

Lemma replace_osc_encoded (d : N) (text : list N) :
  d < 128 -> replace_osc d (flat_map enc text) = flat_map enc (replace_osc d text).
Proof.
  intros Hd. funelim (replace_osc d text).
  - reflexivity.
  - (* a match at the head *)
    assert (Hm := match_osc_encoded d (c :: rest) Hd). rewrite e in Hm.
    cbn [option_map] in Hm.
    destruct (flat_map enc (c :: rest)) as [|x xs] eqn:Hx; [discriminate|].
    rewrite replace_osc_cons, Hm. auto.
  - (* no match at the head *)
    assert (Hm := match_osc_encoded d (c :: rest) Hd). rewrite e in Hm.
    cbn [option_map flat_map] in Hm |- *.
    destruct (N.lt_ge_cases c 128) as [Hc | Hc].
    + rewrite (enc_ascii c Hc) in Hm |- *. cbn [app] in Hm |- *.
      rewrite replace_osc_cons, Hm. f_equal. auto.
    + destruct (enc_other c Hc) as (u & us & Heq & Hh). rewrite Heq.
      rewrite replace_osc_keep_all
        by (apply high_units_not; [reflexivity | exact Hh]).
      f_equal. auto.
Qed.

Lemma strip_titles_encoded (text : list N) :
  strip_titles (flat_map enc text) = flat_map enc (strip_titles text).
Proof.
  unfold strip_titles. rewrite !replace_osc_encoded by reflexivity. reflexivity.
Qed.

End Encoded.

Lemma lor_high (k z : N) : 128 <= k -> 128 <= N.lor k z.
Proof.
  intros Hk. change 128 with (2 ^ 7) in *.
  assert (H7 : 7 <= N.log2 k) by (apply N.log2_le_pow2; lia).
  assert (Hl : 7 <= N.log2 (N.lor k z)) by (rewrite N.log2_lor; lia).
  apply N.log2_le_pow2; [|exact Hl].
  destruct (N.lor k z); [discriminate Hl || (cbn in Hl; lia) | lia].
Qed.

Lemma utf8_units_ascii (c : N) : c < 128 -> Node.utf8_units c = [c].
Proof.
  intros H. unfold Node.utf8_units.
  replace (c <? 0x80) with true by (symmetry; apply N.ltb_lt; exact H).
  reflexivity.
Qed.

Lemma utf8_units_other (c : N) :
  128 <= c ->
  exists u us, Node.utf8_units c = u :: us /\ Forall (fun x => 128 <= x) (u :: us).
Proof.
  intros H. unfold Node.utf8_units.
  replace (c <? 0x80) with false by (symmetry; apply N.ltb_ge; exact H).
  destruct (c <? 0x800); [|destruct (c <? 0x10000)];
    eexists; eexists; (split; [reflexivity|]);
    repeat constructor; apply lor_high; lia.
Qed.

Lemma utf16_units_ascii (c : N) : c < 128 -> Node.utf16_units c = [c].
Proof.
  intros H. unfold Node.utf16_units.
  replace (c <? 0x10000) with true by (symmetry; apply N.ltb_lt; lia).
  reflexivity.
Qed.

Lemma utf16_units_other (c : N) :
  128 <= c ->
  exists u us, Node.utf16_units c = u :: us /\ Forall (fun x => 128 <= x) (u :: us).
Proof.
  intros H. unfold Node.utf16_units.
  destruct (c <? 0x10000);
    eexists; eexists; (split; [reflexivity|]); repeat constructor; lia.
Qed.

Lemma after_bel_Forall (P : N -> Prop) (body after : JSString) :
  Forall P body -> after_bel body = Some after -> Forall P after.
Proof.
  induction 1 as [|b body Hb Hbody IH]; cbn; intros E.
  - discriminate.
  - destruct (b =? BEL).
    + inversion E; subst. exact Hbody.
    + exact (IH E).
Qed.

Lemma match_osc_Forall (P : N -> Prop) (d : N) (str after : JSString) :
  Forall P str -> match_osc d str = Some after -> Forall P after.
Proof.
  intros HP. destruct str as [|c0 [|c1 [|c2 [|c3 body]]]]; cbn; try discriminate.
  destruct (_ && _); [|discriminate].
  apply after_bel_Forall.
  inversion HP as [|? ? _ H1]; subst. inversion H1 as [|? ? _ H2]; subst.
  inversion H2 as [|? ? _ H3]; subst. inversion H3 as [|? ? _ H4]; subst.
  exact H4.
Qed.

Lemma replace_osc_Forall (P : N -> Prop) (d : N) (text : list N) :
  Forall P text -> Forall P (replace_osc d text).
Proof.
  funelim (replace_osc d text); intros HP.
  - constructor.
  - apply H. exact (match_osc_Forall P d (c :: rest) after HP e).
  - inversion HP; subst. constructor; auto.
Qed.

Lemma strip_titles_Forall (P : N -> Prop) (text : list N) :
  Forall P text -> Forall P (strip_titles text).
Proof. intros H. unfold strip_titles. auto using replace_osc_Forall. Qed.

(* ===================================================================== *)
(** * Process output *)
(* ===================================================================== *)

(** ** Standard output *)

Lemma without_titles_cons (c : N) (rest : list N) :
  without_titles (c :: rest)
  = match match_title (c :: rest) with
    | Some after => without_titles after
    | None => c :: without_titles rest
    end.
Proof.
  funelim (without_titles (c :: rest)).
  - rewrite e. reflexivity.
  - rewrite e. reflexivity.
Qed.

Lemma match_osc_sequence (d : N) (body post : list N) :
  Forall (fun c => c <> BEL) body ->
  match_osc d ([ESC; 93; d; 59] ++ body ++ [BEL] ++ post) = Some post.
Proof.
  intros Hb. cbn [app match_osc].
  rewrite !N.eqb_refl. cbn [andb].
  rewrite after_bel_keep_all by exact Hb. cbn [after_bel].
  rewrite N.eqb_refl. reflexivity.
Qed.

(** One pass drops a sequence that nothing before it hides. *)
Lemma replace_osc_sequence (d : N) (pre body post : list N) :
  Forall (fun c => c <> ESC) pre -> Forall (fun c => c <> BEL) body ->
  replace_osc d (pre ++ [ESC; 93; d; 59] ++ body ++ [BEL] ++ post)
  = pre ++ replace_osc d post.
Proof.
  intros Hpre Hbody. rewrite replace_osc_keep_all by exact Hpre. f_equal.
  change ([ESC; 93; d; 59] ++ body ++ [BEL] ++ post)
    with (ESC :: ([93; d; 59] ++ body ++ [BEL] ++ post)).
  rewrite replace_osc_cons.
  change (ESC :: ([93; d; 59] ++ body ++ [BEL] ++ post))
    with ([ESC; 93; d; 59] ++ body ++ [BEL] ++ post).
  rewrite match_osc_sequence by exact Hbody. reflexivity.
Qed.

Lemma replace_osc_plain (d : N) (pre : list N) :
  Forall (fun c => c <> ESC) pre -> replace_osc d pre = pre.
Proof.
  intros H. rewrite <- (app_nil_r pre) at 1.
  rewrite replace_osc_keep_all by exact H.
  rewrite replace_osc_nil. apply app_nil_r.
Qed.

(** The handler on a chunk of well-formed UTF-8: the three passes can be
    read on the bytes. *)
Lemma stdout_on_data_valid (chunk : Buffer) :
  valid_utf8 chunk ->
  stdout_on_data chunk
  = ([Socket_write
        (send_frame (replace_osc 50 (replace_osc 49 (replace_osc 48 chunk))))],
     Returned tt).
Proof.
  intros (text & Hwf & ->).
  unfold stdout_on_data, try_catch, send. do 3 f_equal.
  rewrite (toString_utf8_of text Hwf). unfold utf16_of.
  rewrite (strip_titles_encoded Node.utf16_units utf16_units_ascii utf16_units_other).
  fold (utf16_of (strip_titles text)).
  rewrite Buffer_from_utf16_of by (apply strip_titles_Forall; exact Hwf).
  unfold utf8_of.
  rewrite <- (strip_titles_encoded Node.utf8_units utf8_units_ascii utf8_units_other).
  reflexivity.
Qed.

(** C5, as amended. For every chunk of well-formed UTF-8 written by the
    process to its standard output, the handler sends one TEXT frame whose
    payload is the chunk after three passes in turn: the OSC 0 sequences are
    removed from the chunk, then the OSC 1 sequences from what the first
    pass left, then the OSC 2 sequences from what the second pass left. A
    pass scans from the left: it drops ESC ] d ; and everything up to the
    next BEL wherever that sequence starts, goes on after it, and keeps
    every other byte; bytes without ESC are left as they are. A chunk made
    of ESC ] 2 ; My Title BEL and then hello is sent as hello. *)
Theorem title_filter_three_passes :
  (forall chunk,
     valid_utf8 chunk ->
     stdout_on_data chunk
     = ([Socket_write
           (send_frame (replace_osc 50 (replace_osc 49 (replace_osc 48 chunk))))],
        Returned tt))
  /\ (forall d pre body post,
        Forall (fun c => c <> ESC) pre -> Forall (fun c => c <> BEL) body ->
        replace_osc d (pre ++ [ESC; 93; d; 59] ++ body ++ [BEL] ++ post)
        = pre ++ replace_osc d post)
  /\ (forall d pre, Forall (fun c => c <> ESC) pre -> replace_osc d pre = pre)
  /\ stdout_on_data ([ESC; 93; 50; 59] ++ js "My Title" ++ [BEL] ++ js "hello")
     = ([Socket_write (send_frame (js "hello"))], Returned tt).
Proof.
  split; [exact stdout_on_data_valid|].
  split; [exact replace_osc_sequence|].
  split; [exact replace_osc_plain|].
  vm_compute. reflexivity.
Qed.

Lemma ascii_well_formed (text : list N) :
  forallb (fun c => c <? 128) text = true -> well_formed text.
Proof.
  intros H. apply Forall_forall. intros c Hc.
  rewrite forallb_forall in H. specialize (H c Hc). apply N.ltb_lt in H.
  unfold is_scalar. replace (c <? 0xD800) with true by (symmetry; apply N.ltb_lt; lia).
  reflexivity.
Qed.

Lemma ascii_utf8_of (text : list N) :
  forallb (fun c => c <? 128) text = true -> utf8_of text = text.
Proof.
  induction text as [|c text IH]; [reflexivity|].
  cbn [forallb]. intros H. apply andb_true_iff in H. destruct H as [Hc Ht].
  unfold utf8_of. cbn [flat_map]. fold (utf8_of text).
  apply N.ltb_lt in Hc. rewrite (utf8_units_ascii c Hc), (IH Ht). reflexivity.
Qed.

(** A prompt that sets the title and the icon name before its text. *)
Lemma title_filter_three_passes_witness :
  stdout_on_data ([ESC; 93; 48; 59] ++ js "user@host: ~" ++ [BEL]
                  ++ [ESC; 93; 49; 59] ++ js "sh" ++ [BEL] ++ js "$ ")
  = ([Socket_write (send_frame (js "$ "))], Returned tt).
Proof.
  pose (chunk := [ESC; 93; 48; 59] ++ js "user@host: ~" ++ [BEL]
                 ++ [ESC; 93; 49; 59] ++ js "sh" ++ [BEL] ++ js "$ ").
  assert (Ha : forallb (fun c => c <? 128) chunk = true) by (vm_compute; reflexivity).
  assert (Hv : valid_utf8 chunk).
  { exists chunk. split; [apply ascii_well_formed; exact Ha|].
    symmetry. apply ascii_utf8_of. exact Ha. }
  change (stdout_on_data chunk = ([Socket_write (send_frame (js "$ "))], Returned tt)).
  rewrite (proj1 title_filter_three_passes chunk Hv).
  vm_compute. reflexivity.
Defined.

(** C5 as stated fails on [joined_chunk]. Its only title sequence is
    ESC ] 0 ; BEL; without it the chunk reads ESC ] 1 ; t BEL, which is what
    the claim has forwarded. The second pass of the handler takes these
    bytes for an OSC 1 sequence and removes them: the frame that is sent is
    empty. *)
Lemma title_filter_counterexample :
  without_titles joined_chunk = [ESC; 93; 49; 59; 116; BEL]
  /\ stdout_on_data joined_chunk = ([Socket_write (send_frame [])], Returned tt)
  /\ stdout_on_data joined_chunk
     <> ([Socket_write (send_frame (without_titles joined_chunk))], Returned tt).
Proof.
  assert (Hw : without_titles joined_chunk = [ESC; 93; 49; 59; 116; BEL]).
  { unfold joined_chunk.
    rewrite without_titles_cons. change (match_title _) with (@None (list N)). cbv iota.
    rewrite without_titles_cons. change (match_title _) with (@None (list N)). cbv iota.
    rewrite without_titles_cons.
    change (match_title _) with (Some [49; 59; 116; BEL]). cbv iota.
    rewrite without_titles_cons. change (match_title _) with (@None (list N)). cbv iota.
    rewrite without_titles_cons. change (match_title _) with (@None (list N)). cbv iota.
    rewrite without_titles_cons. change (match_title _) with (@None (list N)). cbv iota.
    rewrite without_titles_cons. change (match_title _) with (@None (list N)). cbv iota.
    simp without_titles. reflexivity. }
  assert (Hs : stdout_on_data joined_chunk = ([Socket_write (send_frame [])], Returned tt))
    by (vm_compute; reflexivity).
  split; [exact Hw|]. split; [exact Hs|].
  rewrite Hs, Hw. intros H. vm_compute in H. discriminate.
Qed.

(** The scan of the specification and the three passes agree on a chunk
    without ESC. *)
Lemma without_titles_plain (pre : list N) :
  Forall (fun c => c <> ESC) pre -> without_titles pre = pre.
Proof.
  induction 1 as [|c pre Hc _ IH]; [simp without_titles; reflexivity|].
  rewrite without_titles_cons.
  assert (Hm : match_title (c :: pre) = None).
  { unfold match_title, match_osc. destruct pre as [|c1 [|c2 [|c3 body]]]; try reflexivity.
    apply N.eqb_neq in Hc. rewrite Hc. reflexivity. }
  rewrite Hm, IH. reflexivity.
Qed.

(** A chunk that ends inside a character is not forwarded as it is: the two
    first bytes of a three-byte character come out as U+FFFD. The demo
    server has [setEncoding('utf8')] on the stream and receives text. *)
Lemma split_character_replaced :
  stdout_on_data [0xE2; 0x94] = ([Socket_write (send_frame [0xEF; 0xBF; 0xBD])], Returned tt).
Proof. vm_compute. reflexivity. Qed.

Lemma demo_stdout_filtered (data : JSString) :
  Demo.stdout_on_data data
  = ([Ws_send (replace_osc 50 (replace_osc 49 (replace_osc 48 data)))], Returned tt).
Proof. reflexivity. Qed.

(** ** Standard error *)

(** C6, at the chunk oops. The text sent starts with the four characters
    backslash, x, 1, b (0x5C 0x78 0x31 0x62) where the claim has the one
    byte ESC (0x1B), and the same at the reset: the payload is not the red
    escape, the chunk and the reset escape. *)
Theorem stderr_not_red :
  stderr_on_data (js "oops")
  = ([Socket_write
        (send_frame ([0x5C; 0x78; 0x31; 0x62; 0x5B; 0x33; 0x31; 0x6D] ++ js "oops"
                     ++ [0x5C; 0x78; 0x31; 0x62; 0x5B; 0x30; 0x6D]))],
     Returned tt)
  /\ stderr_on_data (js "oops")
     <> ([Socket_write (send_frame (red ++ js "oops" ++ reset))], Returned tt).
Proof.
  split; [vm_compute; reflexivity|].
  intros H. vm_compute in H. discriminate.
Qed.

Lemma ascii_utf16_of (text : list N) :
  forallb (fun c => c <? 128) text = true -> utf16_of text = text.
Proof.
  induction text as [|c text IH]; [reflexivity|].
  cbn [forallb]. intros H. apply andb_true_iff in H. destruct H as [Hc Ht].
  unfold utf16_of. cbn [flat_map]. fold (utf16_of text).
  apply N.ltb_lt in Hc. rewrite (utf16_units_ascii c Hc), (IH Ht). reflexivity.
Qed.

(** It is so for every chunk of well-formed UTF-8: the chunk is sent between
    the texts backslash x1b[31m and backslash x1b[0m. *)
Lemma stderr_on_data_valid (chunk : Buffer) :
  valid_utf8 chunk ->
  stderr_on_data chunk
  = ([Socket_write (send_frame (js "\x1b[31m" ++ chunk ++ js "\x1b[0m"))], Returned tt).
Proof.
  intros (text & Hwf & ->).
  unfold stderr_on_data, try_catch, send. do 3 f_equal.
  rewrite (toString_utf8_of text Hwf).
  assert (Ha : forallb (fun c => c <? 128) (js "\x1b[31m") = true) by reflexivity.
  assert (Hb : forallb (fun c => c <? 128) (js "\x1b[0m") = true) by reflexivity.
  rewrite <- (ascii_utf16_of _ Ha) at 1. rewrite <- (ascii_utf16_of _ Hb) at 1.
  unfold utf16_of. rewrite <- !flat_map_app.
  fold (utf16_of (js "\x1b[31m" ++ text ++ js "\x1b[0m")).
  rewrite Buffer_from_utf16_of.
  - unfold utf8_of. rewrite !flat_map_app.
    fold (utf8_of (js "\x1b[31m")). fold (utf8_of (js "\x1b[0m")). fold (utf8_of text).
    rewrite (ascii_utf8_of _ Ha), (ascii_utf8_of _ Hb). reflexivity.
  - apply Forall_app. split; [apply ascii_well_formed; exact Ha|].
    apply Forall_app. split; [exact Hwf | apply ascii_well_formed; exact Hb].
Qed.

(** The demo server sends the escapes themselves. *)
Lemma demo_stderr_red (data : JSString) :
  Demo.stderr_on_data data = ([Ws_send (red ++ data ++ reset)], Returned tt).
Proof. reflexivity. Qed.

(** ** Exit *)

(** C7, in the launcher. When the process exits the handler writes the CLOSE
    frame 0x88 0x00 and ends the socket. Nothing else is sent: no call writes
    a TEXT frame, so no notice reaches the client. *)
Theorem exit_without_notice :
  ptyProcess_on_exit = ([Socket_write [0x88; 0x00]; Socket_end []], Returned tt)
  /\ parseFrame [0x88; 0x00] = Some (mkFrame true 0x08 [], [])
  /\ Forall (fun e => forall payload, e <> Socket_write (send_frame payload))
            (fst ptyProcess_on_exit).
Proof.
  split; [reflexivity|]. split; [reflexivity|].
  repeat constructor.
  - intros p H. inversion H as [H1]. rewrite send_frame_encode in H1.
    unfold encode in H1. inversion H1.
  - discriminate.
Qed.

(** The demo server sends the notice with the exit code, then closes. *)
Lemma demo_exit_notice (code : option N) :
  Demo.shell_on_exit code
  = ([Ws_send (Demo.exit_notice code); Ws_close; Sessions_delete], Returned tt).
Proof. reflexivity. Qed.

Lemma demo_exit_notice_text :
  Demo.exit_notice (Some 130)
  = CRLF ++ [ESC] ++ js "[1;33mShell session ended (exit code: 130)"
    ++ [ESC] ++ js "[0m" ++ CRLF.
Proof. vm_compute. reflexivity. Qed.

(* ===================================================================== *)
(** * Further properties *)
(* ===================================================================== *)

(* ===================================================================== *)
(** * Streams of frames *)
(* ===================================================================== *)

Lemma slice_length (l : Buffer) (a b : N) :
  a <= b -> b <= buf_len l -> buf_len (slice l a b) = b - a.
Proof.
  unfold slice, buf_len. intros Hab Hb.
  rewrite length_firstn, length_skipn. lia.
Qed.

Lemma slice_from_split (l : Buffer) (a b : N) :
  a <= b -> slice_from l a = slice l a b ++ slice_from l b.
Proof.
  unfold slice, slice_from. intros Hab.
  replace (N.to_nat b) with (N.to_nat (b - a) + N.to_nat a)%nat by lia.
  rewrite <- skipn_skipn. symmetry. apply firstn_skipn.
Qed.

Lemma land_127_le (b : N) : N.land b 0x7f <= 127.
Proof.
  change (N.land b 0x7f) with (N.land b (N.ones 7)).
  rewrite N.land_ones. change (2 ^ 7) with 128.
  pose proof (N.mod_lt b 128 ltac:(discriminate)) as H.
  revert H. generalize (b mod 128). intros m H. lia.
Qed.

(** Every buffer that [parseFrame] accepts is laid out as a frame: two
    header bytes, the extended length, the mask key, the payload bytes, and
    what is left. *)
Lemma parseFrame_decompose (buffer : Buffer) (frame : Frame) (rest : Buffer) :
  parseFrame buffer = Some (frame, rest) ->
  exists b1 b2 ext key body,
    buffer = b1 :: b2 :: ext ++ key ++ body ++ rest
    /\ announces b2 ext (buf_len body)
    /\ (if N.land b2 0x80 =? 0 then key = [] else length key = 4%nat)
    /\ frame = mkFrame (negb (N.land b1 0x80 =? 0)) (N.land b1 0x0f)
                 (if N.land b2 0x80 =? 0 then body
                  else unmask key body (buf_len body)).
Proof.
  intros H.
  destruct (parseFrame_Some_size _ _ _ H) as (total & Hs & Hle & Hrest).
  destruct buffer as [|b1 [|b2 tl]]; [discriminate H | discriminate H |].
  set (buffer := b1 :: b2 :: tl) in *.
  unfold frame_size in Hs.
  destruct (announced buffer) as [[plen off]|] eqn:Ha; [|discriminate].
  change (buf_get buffer 1) with b2 in Hs.
  set (mlen := if negb (N.land b2 0x80 =? 0) then 4 else 0) in Hs.
  inversion Hs as [Ht]. clear Hs.
  assert (Hoff : 2 <= off /\ off <= buf_len buffer
                 /\ announces b2 (slice buffer 2 off) plen).
  { unfold announced in Ha.
    destruct (buf_len buffer <? 2); [discriminate|].
    change (buf_get buffer 1) with b2 in Ha.
    destruct (N.land b2 127 =? 126) eqn:E6.
    - destruct (buf_len buffer <? 4) eqn:E4; [discriminate|].
      apply N.ltb_ge in E4. apply N.eqb_eq in E6.
      inversion Ha; subst plen off. split; [lia|]. split; [lia|].
      left. split; [exact E6|]. split; [|reflexivity].
      pose proof (slice_length buffer 2 4 ltac:(lia) E4) as Hl.
      unfold buf_len in Hl. lia.
    - destruct (N.land b2 127 =? 127) eqn:E7.
      + destruct (buf_len buffer <? 10) eqn:E10; [discriminate|].
        apply N.ltb_ge in E10. apply N.eqb_eq in E7.
        inversion Ha; subst plen off. split; [lia|]. split; [lia|].
        right. left. split; [exact E7|]. split; [|reflexivity].
        pose proof (slice_length buffer 2 10 ltac:(lia) E10) as Hl.
        unfold buf_len in Hl. lia.
      + inversion Ha; subst plen off. split; [lia|].
        split; [subst buffer; rewrite !buf_len_cons; lia|].
        right. right. apply N.eqb_neq in E6, E7.
        pose proof (land_127_le b2).
        split; [reflexivity|]. split; [lia|]. reflexivity. }
  destruct Hoff as (Ho2 & Hol & Hann).
  exists b1, b2, (slice buffer 2 off), (slice buffer off (off + mlen)),
         (slice buffer (off + mlen) total).
  assert (Hbody : buf_len (slice buffer (off + mlen) total) = plen).
  { rewrite slice_length by lia. lia. }
  assert (Hkey : if N.land b2 0x80 =? 0 then slice buffer off (off + mlen) = []
                 else length (slice buffer off (off + mlen)) = 4%nat).
  { subst mlen. destruct (N.land b2 0x80 =? 0); cbn [negb].
    - unfold slice. replace (N.to_nat (off + 0 - off)) with 0%nat by lia. reflexivity.
    - pose proof (slice_length buffer off (off + 4) ltac:(lia)) as Hl.
      cbn [negb] in Ht. unfold buf_len in *. lia. }
  assert (Hd : buffer = b1 :: b2 :: slice buffer 2 off ++ slice buffer off (off + mlen)
                        ++ slice buffer (off + mlen) total ++ rest).
  { rewrite Hrest.
    rewrite <- (slice_from_split buffer (off + mlen) total) by lia.
    rewrite <- (slice_from_split buffer off (off + mlen)) by lia.
    rewrite <- (slice_from_split buffer 2 off) by lia.
    reflexivity. }
  split; [exact Hd|].
  rewrite <- Hbody in Hann. split; [exact Hann|]. split; [exact Hkey|].
  pose proof (parseFrame_layout b1 b2 _ _ _ rest Hann Hkey) as Hl.
  rewrite <- Hd in Hl. rewrite H in Hl. congruence.
Qed.

(** Bytes behind a whole frame do not change how it is read. *)
Lemma parseFrame_app (buffer more : Buffer) (frame : Frame) (rest : Buffer) :
  parseFrame buffer = Some (frame, rest) ->
  parseFrame (buffer ++ more) = Some (frame, rest ++ more).
Proof.
  intros H.
  destruct (parseFrame_decompose _ _ _ H) as (b1 & b2 & ext & key & body & Hd & Ha & Hk & Hf).
  rewrite Hd, Hf. cbn [app]. rewrite <- !app_assoc.
  apply parseFrame_layout; assumption.
Qed.

Lemma parseFrame_Some_len (buffer : Buffer) (frame : Frame) (rest : Buffer) :
  parseFrame buffer = Some (frame, rest) -> 2 <= buf_len buffer.
Proof.
  unfold parseFrame. destruct (buf_len buffer <? 2) eqn:E; [discriminate|].
  intros _. apply N.ltb_ge. exact E.
Qed.

(** One turn of the loop of [handleData] on a buffer that starts with a
    whole frame. *)
Lemma drain_frame_app (buffer more : Buffer) (frame : Frame) (rest : Buffer) :
  parseFrame buffer = Some (frame, rest) ->
  drain (buffer ++ more)
  = match dispatch frame with
    | (effects, true) =>
      (fst (drain (rest ++ more)), effects ++ snd (drain (rest ++ more)))
    | (effects, false) => (rest ++ more, effects)
    end.
Proof.
  intros H. pose proof (parseFrame_Some_len _ _ _ H) as Hl.
  rewrite drain_step, (parseFrame_app _ more _ _ H).
  replace (2 <=? buf_len (buffer ++ more)) with true
    by (symmetry; apply N.leb_le; rewrite buf_len_app; lia).
  reflexivity.
Qed.

Lemma dispatch_close (frame : Frame) :
  opcode frame = 0x08 -> dispatch frame = (close, false).
Proof. intros H. unfold dispatch. rewrite H. reflexivity. Qed.

Lemma dispatch_goes_on (frame : Frame) :
  opcode frame <> 0x08 -> snd (dispatch frame) = true.
Proof.
  intros H. unfold dispatch.
  destruct (opcode frame =? 1); [reflexivity|].
  destruct (opcode frame =? 8) eqn:E; [apply N.eqb_eq in E; contradiction|].
  destruct (opcode frame =? 9); reflexivity.
Qed.

Lemma dispatch_break (frame : Frame) (effects : list Effect) :
  dispatch frame = (effects, false) -> effects = close.
Proof.
  unfold dispatch.
  destruct (opcode frame =? 1); [discriminate|].
  destruct (opcode frame =? 8); [congruence|].
  destruct (opcode frame =? 9); discriminate.
Qed.

Lemma frames_then_rest (frames : list (Buffer * Frame)) (rest : Buffer) :
  Forall (fun ff => parseFrame (fst ff) = Some (snd ff, [])
                    /\ opcode (snd ff) <> 0x08) frames ->
  drain (concat (map fst frames) ++ rest)
  = (fst (drain rest),
     flat_map (fun ff => fst (dispatch (snd ff))) frames ++ snd (drain rest)).
Proof.
  induction 1 as [|[f frame] frames [Hf Hop] _ IH]; cbn [map concat flat_map fst snd app].
  - destruct (drain rest); reflexivity.
  - cbn [fst snd] in Hf, Hop. rewrite <- app_assoc.
    rewrite (drain_frame_app f _ frame [] Hf). cbn [app].
    pose proof (dispatch_goes_on frame Hop) as Hg.
    destruct (dispatch frame) as [effects go]. cbn [snd fst] in *. subst go.
    rewrite IH. cbn [fst snd]. rewrite app_assoc. reflexivity.
Qed.

(** The loop stops at a CLOSE frame whatever follows it. *)
Lemma drain_close_first (f rest : Buffer) (frame : Frame) :
  parseFrame f = Some (frame, []) -> opcode frame = 0x08 ->
  drain (f ++ rest) = (rest, close).
Proof.
  intros Hf Hop. rewrite (drain_frame_app f rest frame [] Hf).
  rewrite (dispatch_close frame Hop). reflexivity.
Qed.

(** ** Arrivals *)

(** A CLOSE frame met in a buffer is met in any longer one. *)
Lemma drain_close_app (x y : Buffer) :
  In (Socket_end []) (snd (drain x)) -> In (Socket_end []) (snd (drain (x ++ y))).
Proof.
  remember (length x) as n eqn:Hn. revert x Hn.
  induction n as [n IH] using Wf_nat.lt_wf_ind. intros x Hn.
  rewrite (drain_step x).
  destruct (2 <=? buf_len x); [|intros []].
  destruct (parseFrame x) as [[frame rest]|] eqn:Hp; [|intros []].
  rewrite (drain_frame_app x y frame rest Hp).
  destruct (dispatch frame) as [effects [|]] eqn:Hd; cbn [snd].
  - intros H. apply in_or_app. apply in_app_or in H. destruct H as [H | H]; [auto|].
    right. apply (IH (length rest)); [|reflexivity | exact H].
    subst n. eapply parseFrame_shrinks; eassumption.
  - auto.
Qed.

(** While no CLOSE frame is met, what the loop has left is read on with
    what comes next. *)
Lemma drain_app (x y : Buffer) :
  ~ In (Socket_end []) (snd (drain x)) ->
  drain (x ++ y)
  = (fst (drain (fst (drain x) ++ y)),
     snd (drain x) ++ snd (drain (fst (drain x) ++ y))).
Proof.
  remember (length x) as n eqn:Hn. revert x Hn.
  induction n as [n IH] using Wf_nat.lt_wf_ind. intros x Hn.
  rewrite (drain_step x).
  destruct (2 <=? buf_len x);
    [|cbn [fst snd app]; intros _; destruct (drain (x ++ y)); reflexivity].
  destruct (parseFrame x) as [[frame rest]|] eqn:Hp;
    [|cbn [fst snd app]; intros _; destruct (drain (x ++ y)); reflexivity].
  rewrite (drain_frame_app x y frame rest Hp).
  destruct (dispatch frame) as [effects [|]] eqn:Hd; cbn [fst snd].
  - intros H.
    rewrite (IH (length rest)); [| | reflexivity |].
    + cbn [fst snd]. rewrite app_assoc. reflexivity.
    + subst n. eapply parseFrame_shrinks; eassumption.
    + intros Hin. apply H. apply in_or_app. auto.
  - intros H. exfalso. apply H. rewrite (dispatch_break _ _ Hd).
    right. left. reflexivity.
Qed.

(** What the loop leaves, when it has met no CLOSE frame, holds no whole
    frame. *)
Lemma drain_idle (x : Buffer) :
  ~ In (Socket_end []) (snd (drain x)) ->
  drain (fst (drain x)) = (fst (drain x), []).
Proof.
  remember (length x) as n eqn:Hn. revert x Hn.
  induction n as [n IH] using Wf_nat.lt_wf_ind. intros x Hn.
  rewrite (drain_step x).
  destruct (2 <=? buf_len x) eqn:E2.
  - destruct (parseFrame x) as [[frame rest]|] eqn:Hp.
    + destruct (dispatch frame) as [effects [|]] eqn:Hd; cbn [fst snd].
      * intros H. apply (IH (length rest)); [| reflexivity |].
        -- subst n. eapply parseFrame_shrinks; eassumption.
        -- intros Hin. apply H. apply in_or_app. auto.
      * intros H. exfalso. apply H. rewrite (dispatch_break _ _ Hd).
        right. left. reflexivity.
    + intros _. cbn [fst]. apply drain_None. exact Hp.
  - intros _. cbn [fst]. rewrite drain_step, E2. reflexivity.
Qed.

Lemma feed_concat (arrivals : list Buffer) (buffer : Buffer) :
  drain buffer = (buffer, []) ->
  ~ In (Socket_end []) (snd (handleData buffer (concat arrivals))) ->
  feed buffer arrivals = handleData buffer (concat arrivals).
Proof.
  revert buffer. induction arrivals as [|data later IH]; intros buffer Hidle H.
  - cbn [feed concat]. unfold handleData. rewrite app_nil_r. symmetry. exact Hidle.
  - cbn [feed concat] in *. unfold handleData in *.
    rewrite app_assoc in *.
    assert (Hd : ~ In (Socket_end []) (snd (drain (buffer ++ data)))).
    { intros Hin. apply H. apply drain_close_app. exact Hin. }
    rewrite (drain_app _ (concat later) Hd) in *. cbn [snd] in H.
    pose proof (drain_idle _ Hd) as Hi.
    destruct (drain (buffer ++ data)) as [buffer' effects]. cbn [fst snd] in *.
    rewrite (IH buffer' Hi).
    + destruct (drain (buffer' ++ concat later)). reflexivity.
    + intros Hin. apply H. apply in_or_app. auto.
Qed.

(** ** Frames and arrivals *)

(** X1. Frames that arrive together. When an arrival on a new connection
    is made of whole frames, none of them a CLOSE frame, followed by other
    bytes, [handleData] handles every frame, in the order of the bytes, and
    then goes on with the other bytes as if they had arrived alone. *)
Theorem frames_in_one_arrival (frames : list (Buffer * Frame)) (rest : Buffer) :
  Forall (fun ff => parseFrame (fst ff) = Some (snd ff, [])
                    /\ opcode (snd ff) <> 0x08) frames ->
  handleData [] (concat (map fst frames) ++ rest)
  = (fst (handleData [] rest),
     flat_map (fun ff => fst (dispatch (snd ff))) frames ++ snd (handleData [] rest)).
Proof. intros H. unfold handleData. cbn [app]. apply frames_then_rest. exact H. Qed.

(** A text frame, a ping and a second text frame in one arrival, with the
    first byte of a fourth frame. *)
Lemma frames_in_one_arrival_witness :
  handleData [] (client_frame 0x81 [1; 2; 3; 4] (js "ls")
                 ++ client_frame 0x89 [5; 6; 7; 8] (js "?")
                 ++ client_frame 0x81 [9; 9; 9; 9] [LF] ++ [0x81])
  = ([0x81],
     [Emit_message (js "ls"); Socket_write [0x8a; 1; 63]; Emit_message [LF]]).
Proof.
  pose (frames :=
    [(client_frame 0x81 [1; 2; 3; 4] (js "ls"), mkFrame true 0x01 (js "ls"));
     (client_frame 0x89 [5; 6; 7; 8] (js "?"), mkFrame true 0x09 (js "?"));
     (client_frame 0x81 [9; 9; 9; 9] [LF], mkFrame true 0x01 [LF])]).
  assert (H : Forall (fun ff => parseFrame (fst ff) = Some (snd ff, [])
                                /\ opcode (snd ff) <> 0x08) frames).
  { repeat constructor; try (vm_compute; reflexivity); vm_compute; discriminate. }
  pose proof (frames_in_one_arrival frames [0x81] H) as E.
  cbn [frames map concat fst app] in E. rewrite !app_nil_r in E.
  rewrite <- !app_assoc in E. rewrite E. vm_compute. reflexivity.
Defined.

(** X2. A CLOSE frame ends the turn, not the reading. When an arrival on a
    new connection starts with a whole CLOSE frame, [handleData] answers it
    with [close()] and handles nothing else of the arrival: the bytes behind
    the frame stay in the receive buffer. They are read with the next
    arrival, as if the connection were still open. *)
Theorem close_frame_ends_turn (f rest more : Buffer) (frame : Frame) :
  parseFrame f = Some (frame, []) -> opcode frame = 0x08 ->
  handleData [] (f ++ rest) = (rest, close)
  /\ feed [] [f ++ rest; more]
     = (fst (handleData rest more), close ++ snd (handleData rest more)).
Proof.
  intros Hf Hop.
  assert (H : handleData [] (f ++ rest) = (rest, close))
    by (unfold handleData; cbn [app]; apply drain_close_first with frame; assumption).
  split; [exact H|].
  cbn [feed]. rewrite H. destruct (handleData rest more) as [b es].
  cbn [fst snd]. rewrite app_nil_r. reflexivity.
Qed.

(** A masked CLOSE frame with a text frame behind it, then nothing: the
    text is emitted on the second arrival. *)
Lemma close_frame_ends_turn_witness :
  handleData [] ([0x88; 0x80; 1; 2; 3; 4] ++ client_frame 0x81 [1; 2; 3; 4] (js "id"))
  = (client_frame 0x81 [1; 2; 3; 4] (js "id"), close)
  /\ feed [] [[0x88; 0x80; 1; 2; 3; 4] ++ client_frame 0x81 [1; 2; 3; 4] (js "id"); []]
     = ([], close ++ [Emit_message (js "id")]).
Proof.
  destruct (close_frame_ends_turn [0x88; 0x80; 1; 2; 3; 4]
              (client_frame 0x81 [1; 2; 3; 4] (js "id")) []
              (mkFrame true 0x08 []))
    as [H1 H2]; [vm_compute; reflexivity | reflexivity |].
  split; [exact H1|]. etransitivity; [exact H2|]. vm_compute. reflexivity.
Defined.

(** X3. Arrival boundaries do not matter. On a new connection, as long as
    no CLOSE frame is received (the socket is not ended), the calls made and
    the bytes kept are those of a single arrival of all the bytes, however
    the bytes are cut into arrivals. *)
Theorem arrival_boundaries_irrelevant (arrivals : list Buffer) :
  ~ In (Socket_end []) (snd (handleData [] (concat arrivals))) ->
  feed [] arrivals = handleData [] (concat arrivals).
Proof. apply feed_concat. apply drain_nil. Qed.

(** Two text frames and a ping cut in the middle of headers, keys and
    payloads. *)
Lemma arrival_boundaries_irrelevant_witness :
  feed [] [[0x81]; [0x82; 1; 2; 3; 4; 109]; [113; 0x89; 0x80; 0; 0];
           [0; 0; 0x81; 0x81; 9; 9; 9]; [9; 3]]
  = ([], [Emit_message (js "ls"); Socket_write [0x8a; 0]; Emit_message [LF]]).
Proof.
  rewrite arrival_boundaries_irrelevant.
  - vm_compute. reflexivity.
  - vm_compute. intros H. repeat (destruct H as [H | H]; [discriminate H|]). exact H.
Defined.

(** X4. The buffers [parseFrame] accepts. [parseFrame] returns a frame
    exactly when the buffer starts with: a first byte, of which it reads
    the FIN bit and the four bits of the opcode (the three reserved bits are
    not looked at); a second byte with the mask bit and a length of seven
    bits, followed by the extended length that this length calls for (any
    value is taken, also one that a shorter form could hold); the four
    bytes of the mask key when the mask bit is set, none otherwise (a frame
    without a mask is accepted); and as many payload bytes as announced.
    The frame carries the payload, unmasked with the key when there is one,
    and the buffer keeps what is behind these bytes. *)
Theorem parseFrame_accepts (buffer : Buffer) (frame : Frame) (rest : Buffer) :
  parseFrame buffer = Some (frame, rest)
  <-> exists b1 b2 ext key body,
        buffer = b1 :: b2 :: ext ++ key ++ body ++ rest
        /\ announces b2 ext (buf_len body)
        /\ (if N.land b2 0x80 =? 0 then key = [] else length key = 4%nat)
        /\ frame = mkFrame (negb (N.land b1 0x80 =? 0)) (N.land b1 0x0f)
                     (if N.land b2 0x80 =? 0 then body
                      else unmask key body (buf_len body)).
Proof.
  split.
  - apply parseFrame_decompose.
  - intros (b1 & b2 & ext & key & body & -> & Ha & Hk & ->).
    apply parseFrame_layout; assumption.
Qed.

(** X5. A PING frame that carries fewer than 126 bytes is answered by one
    PONG frame with the same bytes: the reply has FIN set, the opcode 0xA,
    the length on one byte and no mask, and [parseFrame] reads the payload
    back from it. *)
Theorem ping_echoed (p key : Buffer) :
  bytes p -> buf_len p < 126 -> length key = 4%nat ->
  handleData [] (client_frame 0x89 key p) = ([], [Socket_write (0x8a :: buf_len p :: p)])
  /\ parseFrame (0x8a :: buf_len p :: p) = Some (mkFrame true 0x0a p, []).
Proof.
  intros Hb Hl Hk. split.
  - pose proof (parseFrame_client_frame 0x89 key p Hk Hb ltac:(lia)) as Hp.
    change (negb (N.land 0x89 0x80 =? 0)) with true in Hp.
    change (N.land 0x89 0x0f) with 0x09 in Hp.
    rewrite (ping_answered [] (client_frame 0x89 key p) [] p true Hp Hl).
    unfold handleData. cbn [app]. rewrite drain_nil. cbn [fst snd].
    unfold encode. replace (buf_len p <? 126) with true by (symmetry; apply N.ltb_lt; exact Hl).
    reflexivity.
  - destruct (small_length_bits (buf_len p) ltac:(lia)) as (_ & H7 & H8 & _).
    pose proof (parseFrame_layout 0x8a (buf_len p) [] [] p []) as H.
    rewrite H8 in H. change (0 =? 0) with true in H. cbn [app] in H.
    rewrite app_nil_r in H. apply H; [|reflexivity].
    right. right. split; [exact H7|]. split; [exact Hl|reflexivity].
Qed.

Lemma ping_echoed_witness :
  handleData [] (client_frame 0x89 [7; 7; 7; 7] (js "alive?"))
  = ([], [Socket_write (0x8a :: 6 :: js "alive?")]).
Proof.
  apply (ping_echoed (js "alive?") [7; 7; 7; 7]).
  - repeat constructor.
  - reflexivity.
  - reflexivity.
Defined.

Lemma drain_shorter (x : Buffer) : (length (fst (drain x)) <= length x)%nat.
Proof.
  remember (length x) as n eqn:Hn. revert x Hn.
  induction n as [n IH] using Wf_nat.lt_wf_ind. intros x Hn.
  rewrite (drain_step x).
  destruct (2 <=? buf_len x); [|cbn [fst]; lia].
  destruct (parseFrame x) as [[frame rest]|] eqn:Hp; [|cbn [fst]; lia].
  pose proof (parseFrame_shrinks _ _ _ Hp) as Hs.
  destruct (dispatch frame) as [effects [|]]; cbn [fst]; [|lia].
  pose proof (IH (length rest) ltac:(lia) rest eq_refl). lia.
Qed.

Lemma drain_kept_None (x : Buffer) : drain x = (x, []) -> parseFrame x = None.
Proof.
  intros H. destruct (parseFrame x) as [[frame rest]|] eqn:Hp; [|reflexivity].
  exfalso. pose proof (parseFrame_shrinks _ _ _ Hp) as Hs.
  pose proof (parseFrame_Some_len _ _ _ Hp) as Hl.
  rewrite drain_step, Hp in H.
  replace (2 <=? buf_len x) with true in H by (symmetry; apply N.leb_le; exact Hl).
  destruct (dispatch frame) as [effects [|]].
  - pose proof (drain_shorter rest) as Hd. inversion H as [[H1 H2]].
    rewrite H1 in Hd. lia.
  - inversion H as [[H1 H2]]. subst. lia.
Qed.

(** X20. No whole frame is left unread. Whatever the receive buffer and
    the arrival, as long as no CLOSE frame is met, [handleData] returns with
    a buffer in which [parseFrame] finds no frame: every frame that has
    arrived whole has been handled, and what is kept is the start of a frame
    whose other bytes have not arrived. The buffer kept is never longer than
    what was there. *)
Theorem no_whole_frame_left (buffer data : Buffer) :
  ~ In (Socket_end []) (snd (handleData buffer data)) ->
  parseFrame (fst (handleData buffer data)) = None
  /\ (length (fst (handleData buffer data)) <= length (buffer ++ data))%nat.
Proof.
  intros H. unfold handleData in *. split.
  - apply drain_kept_None. apply drain_idle. exact H.
  - apply drain_shorter.
Qed.

Lemma no_whole_frame_left_witness :
  parseFrame (fst (handleData [0x81] (0x82 :: [1; 2; 3; 4; 109; 113] ++ [0x81; 0x85; 0; 0])))
  = None.
Proof.
  apply (no_whole_frame_left [0x81] (0x82 :: [1; 2; 3; 4; 109; 113] ++ [0x81; 0x85; 0; 0])).
  vm_compute. intros H. repeat (destruct H as [H | H]; [discriminate H|]). exact H.
Defined.

Lemma jsstring_eqb_sym (a b : JSString) : jsstring_eqb a b = jsstring_eqb b a.
Proof.
  revert b. induction a as [|x a IH]; intros [|y b]; cbn; try reflexivity.
  rewrite IH, N.eqb_sym. reflexivity.
Qed.

Lemma jsstring_eqb_trans (a b c : JSString) :
  jsstring_eqb a b = true -> jsstring_eqb b c = jsstring_eqb a c.
Proof. intros H. apply jsstring_eqb_eq in H. subst. reflexivity. Qed.

Section ListenerFacts.

Variable D : Type.
Implicit Types (l : Listeners D) (h : Handler D).

Lemma own_push_same l event h handlers :
  own l event = Some handlers -> own (push l event h) event = Some (handlers ++ [h]).
Proof.
  induction l as [|[e hs] l IH]; cbn; [discriminate|].
  destruct (jsstring_eqb e event) eqn:E; cbn; rewrite E.
  - intros H; inversion H; reflexivity.
  - exact IH.
Qed.

Lemma own_push_other l event h other :
  jsstring_eqb event other = false -> own (push l event h) other = own l other.
Proof.
  intros Hne. induction l as [|[e hs] l IH]; cbn; [reflexivity|].
  destruct (jsstring_eqb e event) eqn:E; cbn.
  - apply jsstring_eqb_eq in E. subst e. rewrite Hne. reflexivity.
  - rewrite IH. reflexivity.
Qed.

Lemma own_app_new l event h other :
  own l event = None ->
  own (l ++ [(event, [h])]) other
  = match own l other with
    | Some hs => Some hs
    | None => if jsstring_eqb event other then Some [h] else None
    end.
Proof.
  intros _. induction l as [|[e hs] l IH]; cbn; [reflexivity|].
  destruct (jsstring_eqb e other); [reflexivity | exact IH].
Qed.

Lemma registered_app calls event e h :
  registered (calls ++ [(e, h)]) event
  = registered calls event ++ (if jsstring_eqb e event then [h] else []).
Proof.
  unfold registered. rewrite filter_app, map_app. cbn [filter fst].
  destruct (jsstring_eqb e event); reflexivity.
Qed.

Lemma on_holds l calls event h :
  holds l calls -> inherited event = false ->
  exists l', on l event h = Returned l' /\ holds l' (calls ++ [(event, h)]).
Proof.
  intros Hl Hi. unfold on. rewrite Hi.
  destruct (own l event) as [hs|] eqn:Ho.
  - eexists. split; [reflexivity|]. intros other.
    rewrite registered_app.
    destruct (jsstring_eqb event other) eqn:E.
    + apply jsstring_eqb_eq in E. subst other.
      rewrite (own_push_same _ _ _ _ Ho). rewrite (Hl event) in Ho.
      destruct (registered calls event); [discriminate|].
      inversion Ho; subst. reflexivity.
    + rewrite (own_push_other _ _ _ _ E), app_nil_r. apply Hl.
  - eexists. split; [reflexivity|]. intros other.
    rewrite registered_app, (own_app_new _ _ _ _ Ho), (Hl other).
    destruct (jsstring_eqb event other) eqn:E.
    + apply jsstring_eqb_eq in E. subst other. rewrite (Hl event) in Ho.
      destruct (registered calls event); [reflexivity | discriminate].
    + rewrite app_nil_r. destruct (registered calls other); reflexivity.
Qed.

Lemma register_holds (calls done : list (JSString * Handler D)) l :
  holds l done ->
  Forall (fun c => inherited (fst c) = false) calls ->
  exists l', register l calls = Returned l' /\ holds l' (done ++ calls).
Proof.
  revert done l. induction calls as [|[event h] calls IH]; intros done l Hl Hc.
  - exists l. rewrite app_nil_r. split; [reflexivity | exact Hl].
  - inversion Hc as [|? ? Hi Hc']; subst. cbn [fst] in Hi.
    destruct (on_holds l done event h Hl Hi) as (l1 & Hon & Hl1).
    destruct (IH _ _ Hl1 Hc') as (l2 & Hr & Hl2).
    exists l2. cbn [register]. rewrite Hon. split; [exact Hr|].
    rewrite <- app_assoc in Hl2. exact Hl2.
Qed.

(** Every handler is called, whatever the ones before it do. *)
Lemma call_each_all (handlers : list (Handler D)) (data : D) :
  call_each handlers data
  = (flat_map (fun h => fst (h data)) handlers, Returned tt).
Proof.
  induction handlers as [|h handlers IH]; [reflexivity|].
  cbn [call_each flat_map]. rewrite IH.
  destruct (h data) as [es [[]|]]; cbn; rewrite ?app_nil_r; reflexivity.
Qed.

Lemma emit_holds l calls event data :
  holds l calls -> inherited event = false ->
  emit l event data
  = (flat_map (fun h => fst (h data)) (registered calls event), Returned tt).
Proof.
  intros Hl Hi. unfold emit. rewrite (Hl event), Hi.
  destruct (registered calls event) eqn:E; [reflexivity|].
  apply call_each_all.
Qed.

End ListenerFacts.

(** X6. Listeners. After any sequence of [on] calls on a new connection,
    under event names that [Object.prototype] does not define (so [message],
    [close] and [error]), [emit] calls the handlers given for its event, all
    of them and no other, in the order of their registration; a handler that
    throws does not keep the later ones from being called, and [emit]
    itself returns. For an event without handler nothing is called. *)
Theorem emit_calls_registered {D} (calls : list (JSString * Handler D)) :
  Forall (fun c => inherited (fst c) = false) calls ->
  exists listeners,
    register [] calls = Returned listeners
    /\ forall event data,
         inherited event = false ->
         emit listeners event data
         = (flat_map (fun h => fst (h data)) (registered calls event), Returned tt).
Proof.
  intros Hc.
  destruct (register_holds D calls [] [] ltac:(intros e; reflexivity) Hc)
    as (l & Hr & Hl).
  exists l. split; [exact Hr|]. intros event data Hi.
  apply emit_holds; assumption.
Qed.

(** A handler that throws between two that do not. *)
Lemma emit_calls_registered_witness :
  exists listeners,
    register []
      [(js "message", fun text : JSString => perform (Stdin_write text));
       (js "message", fun _ => perform Process_kill ;;; throw);
       (js "close", fun _ => perform Process_kill);
       (js "message", fun text => perform (Stdin_write (text ++ text)))]
    = Returned listeners
    /\ forall event data,
         inherited event = false ->
         emit listeners event data
         = (flat_map (fun h => fst (h data))
              (registered
                 [(js "message", fun text : JSString => perform (Stdin_write text));
                  (js "message", fun _ => perform Process_kill ;;; throw);
                  (js "close", fun _ => perform Process_kill);
                  (js "message", fun text => perform (Stdin_write (text ++ text)))]
                 event),
            Returned tt).
Proof.
  apply (emit_calls_registered
           [(js "message", fun text : JSString => perform (Stdin_write text));
            (js "message", fun _ => perform Process_kill ;;; throw);
            (js "close", fun _ => perform Process_kill);
            (js "message", fun text => perform (Stdin_write (text ++ text)))]).
  repeat constructor.
Defined.

(** ** From the socket to the process *)

Lemma lor_lt_pow2 (a b n : N) : a < 2 ^ n -> b < 2 ^ n -> N.lor a b < 2 ^ n.
Proof.
  intros Ha Hb.
  destruct (N.eq_dec (N.lor a b) 0) as [E | E].
  - rewrite E. apply N.neq_0_lt_0. apply N.pow_nonzero. discriminate.
  - apply N.log2_lt_pow2; [lia|].
    rewrite N.log2_lor.
    assert (Hn : 0 < n).
    { destruct (N.eq_dec n 0) as [-> | ]; [|lia].
      exfalso. apply E. change (2 ^ 0) with 1 in *.
      replace a with 0 by lia. replace b with 0 by lia. reflexivity. }
    assert (H : forall x, x < 2 ^ n -> N.log2 x < n).
    { intros x Hx. destruct (N.eq_dec x 0) as [-> | Hx0]; [exact Hn|].
      apply N.log2_lt_pow2; [lia | exact Hx]. }
    apply N.max_lub_lt; apply H; assumption.
Qed.

Lemma continuation_byte (x : N) : N.lor 0x80 (N.land x 0x3F) < 256.
Proof.
  apply (lor_lt_pow2 _ _ 8); [reflexivity|].
  change 0x3F with (N.ones 6). rewrite N.land_ones. change (2 ^ 6) with 64.
  pose proof (N.mod_lt x 64 ltac:(discriminate)) as H.
  revert H. generalize (x mod 64). intros m H. change (2 ^ 8) with 256. lia.
Qed.

Lemma lead_byte (tag x bound : N) :
  tag < 256 -> bound <= 256 -> x < bound -> N.lor tag x < 256.
Proof.
  intros Ht Hb Hx. apply (lor_lt_pow2 _ _ 8); change (2 ^ 8) with 256; lia.
Qed.

(** The UTF-8 form of a code point is made of bytes. *)
Lemma utf8_units_bytes (cp : N) : cp < 0x110000 -> bytes (Node.utf8_units cp).
Proof.
  intros Hcp. unfold Node.utf8_units, bytes, is_byte.
  rewrite !N.shiftr_div_pow2.
  change (2 ^ 6) with 64. change (2 ^ 12) with 4096. change (2 ^ 18) with 262144.
  destruct (cp <? 0x80) eqn:H1; [|destruct (cp <? 0x800) eqn:H2;
                                   [|destruct (cp <? 0x10000) eqn:H3]].
  - apply N.ltb_lt in H1. repeat constructor. lia.
  - apply N.ltb_lt in H2. repeat constructor.
    + apply (lead_byte _ _ 32); [reflexivity | lia |].
      apply N.Div0.div_lt_upper_bound. lia.
    + apply continuation_byte.
  - apply N.ltb_lt in H3. repeat constructor.
    + apply (lead_byte _ _ 16); [reflexivity | lia |].
      apply N.Div0.div_lt_upper_bound. lia.
    + apply continuation_byte.
    + apply continuation_byte.
  - repeat constructor.
    + apply (lead_byte _ _ 8); [reflexivity | lia |].
      apply N.Div0.div_lt_upper_bound. lia.
    + apply continuation_byte.
    + apply continuation_byte.
    + apply continuation_byte.
Qed.

Lemma utf8_of_bytes (text : list N) : well_formed text -> bytes (utf8_of text).
Proof.
  induction 1 as [|cp text Hcp _ IH]; [constructor|].
  unfold utf8_of. cbn [flat_map]. apply Forall_app. split; [|exact IH].
  apply utf8_units_bytes. apply is_scalar_below. exact Hcp.
Qed.

Section SessionFacts.

Variable Number : Type.
Variable Number_toString : Number -> JSString.
Variable Number_truthy : Number -> bool.
Variable JSON_parse : JSString -> option (JSValue Number).

Abbreviation the_listeners :=
  (session_listeners Number_toString Number_truthy JSON_parse).

Lemma session_listeners_eq :
  the_listeners
  = [(js "message", [message_listener Number_toString Number_truthy JSON_parse]);
     (js "close", [close_listener])].
Proof. reflexivity. Qed.

Lemma emit_message_session (text : JSString) :
  emit the_listeners (js "message") (Message_text text)
  = ws_on_message Number_toString Number_truthy JSON_parse text.
Proof.
  rewrite session_listeners_eq.
  change (emit _ _ _)
    with (try_catch (ws_on_message Number_toString Number_truthy JSON_parse text)
                    (ret tt) ;;; ret tt).
  pose proof (ws_on_message_returns _ Number_toString Number_truthy JSON_parse text) as H.
  destruct (ws_on_message _ _ _ text) as [es [[]|]]; [|discriminate].
  cbn. rewrite app_nil_r. reflexivity.
Qed.


End SessionFacts.


Lemma uint_value_acc (u : Decimal.uint) (acc : positive) :
  uint_value u (Npos acc) = Npos (Pos.of_uint_acc u acc).
Proof.
  revert acc. induction u; intros acc; cbn [uint_value Pos.of_uint_acc];
    [reflexivity | ..]; rewrite <- IHu; f_equal; lia.
Qed.

Lemma uint_value_of_uint (u : Decimal.uint) : uint_value u 0 = N.of_uint u.
Proof.
  unfold N.of_uint.
  induction u; cbn [uint_value Pos.of_uint]; [reflexivity | exact IHu | ..];
    apply uint_value_acc.
Qed.

Lemma read_digits_uint (u : Decimal.uint) (after : JSString) (acc : N) (seen : bool) :
  no_digit_first after ->
  read_digits 10 (js (DecimalString.NilEmpty.string_of_uint u) ++ after) acc seen
  = match u with
    | Decimal.Nil => if seen then Some acc else None
    | _ => Some (uint_value u acc)
    end.
Proof.
  intros Ha. revert acc seen.
  assert (Hnil : forall acc seen,
            read_digits 10 after acc seen = if seen then Some acc else None).
  { intros acc seen. destruct after as [|c after]; [reflexivity|].
    cbn [read_digits]. cbn [no_digit_first] in Ha. rewrite Ha. reflexivity. }
  induction u; intros acc seen;
    [exact (Hnil acc seen) | ..];
    cbn [DecimalString.NilEmpty.string_of_uint uint_value];
    unfold js; cbn [list_ascii_of_string map app read_digits];
    match goal with
    | |- context [digit_value 10 ?c] =>
      change (digit_value 10 c) with (Some (c - 48))
    end;
    cbv iota; fold (js (DecimalString.NilEmpty.string_of_uint u));
    rewrite IHu; destruct u; reflexivity.
Qed.

Lemma nzhead_starts (u : Decimal.uint) :
  Decimal.nzhead u = Decimal.Nil \/ starts_nonzero (Decimal.nzhead u).
Proof. induction u; cbn; auto. Qed.

Lemma to_uint_starts (p : positive) : starts_nonzero (Pos.to_uint p).
Proof.
  pose proof (DecimalPos.Unsigned.to_of (Pos.to_uint p)) as H.
  rewrite DecimalPos.Unsigned.of_to in H. cbn [N.to_uint] in H.
  pose proof (DecimalPos.Unsigned.to_uint_nonzero p) as Hz.
  rewrite H in *. unfold Decimal.unorm in *.
  destruct (nzhead_starts (Pos.to_uint p)) as [E | E].
  - rewrite E in Hz. contradiction.
  - destruct (Decimal.nzhead (Pos.to_uint p)); cbn in E; try contradiction; exact I.
Qed.

Lemma decimal_eq (p : positive) :
  decimal (Npos p) = js (DecimalString.NilEmpty.string_of_uint (Pos.to_uint p)).
Proof.
  unfold decimal. cbn [N.to_uint].
  pose proof (to_uint_starts p) as H.
  destruct (Pos.to_uint p); cbn in H; try contradiction; reflexivity.
Qed.

(** The digits printed for a number that is not zero, read back. *)
Lemma read_digits_decimal (n : N) (after : JSString) :
  0 < n -> no_digit_first after ->
  read_digits 10 (decimal n ++ after) 0 false = Some n.
Proof.
  intros Hn Ha. destruct n as [|p]; [lia|].
  rewrite decimal_eq, (read_digits_uint _ _ _ _ Ha).
  pose proof (to_uint_starts p) as H.
  pose proof (uint_value_of_uint (Pos.to_uint p)) as Hv.
  unfold N.of_uint in Hv. rewrite DecimalPos.Unsigned.of_to in Hv.
  destruct (Pos.to_uint p); cbn in H; try contradiction; rewrite Hv; reflexivity.
Qed.

(** They start with a digit other than 0. *)
Lemma decimal_first (n : N) :
  0 < n -> exists d l, decimal n = d :: l /\ 49 <= d <= 57.
Proof.
  intros Hn. destruct n as [|p]; [lia|]. rewrite decimal_eq.
  pose proof (to_uint_starts p) as H.
  destruct (Pos.to_uint p); cbn in H; try contradiction;
    cbn [DecimalString.NilEmpty.string_of_uint]; unfold js;
    cbn [list_ascii_of_string map]; eexists; eexists; (split; [reflexivity|]);
    cbn; lia.
Qed.

Lemma digit_not_space (d : N) : 45 <= d <= 57 -> is_white_space d = false.
Proof.
  intros H. unfold is_white_space.
  repeat match goal with
         | |- context [d =? ?k] =>
           replace (d =? k) with false by (symmetry; apply N.eqb_neq; lia)
         end.
  replace (0x2000 <=? d) with false by (symmetry; apply N.leb_gt; lia).
  reflexivity.
Qed.

(** [parseInt] on the digits printed for a number that is not zero, with
    or without a minus sign before them and whatever follows them. *)
Lemma parseInt_decimal (negative : bool) (n : N) (after : JSString) :
  0 < n -> no_digit_first after ->
  parseInt ((if negative then js "-" else []) ++ decimal n ++ after)
  = Integer negative n.
Proof.
  intros Hn Ha.
  pose proof (read_digits_decimal n after Hn Ha) as Hr.
  destruct (decimal_first n Hn) as (d & l & Hd & Hrange).
  rewrite Hd in *. cbn [app] in *.
  assert (E : forall neg,
            (let (radix, s) :=
               match d :: l ++ after with
               | c0 :: c1 :: rest =>
                 if (c0 =? 48) && ((c1 =? 120) || (c1 =? 88)) then (16, rest)
                 else (10, d :: l ++ after)
               | _ => (10, d :: l ++ after)
               end in
             match read_digits radix s 0 false with
             | Some magnitude => Integer neg magnitude
             | None => NaN
             end) = Integer neg n).
  { intros neg.
    replace (d =? 48) with false by (symmetry; apply N.eqb_neq; lia).
    cbn [andb]. destruct (l ++ after); rewrite Hr; reflexivity. }
  unfold parseInt. destruct negative.
  - change (js "-" ++ d :: l ++ after) with (45 :: d :: l ++ after).
    cbn [trim_start]. change (is_white_space 45) with false. cbv iota.
    change (45 =? 45) with true. cbv iota. apply E.
  - cbn [app trim_start]. rewrite (digit_not_space d) by lia.
    replace (d =? 45) with false by (symmetry; apply N.eqb_neq; lia).
    replace (d =? 43) with false by (symmetry; apply N.eqb_neq; lia).
    apply E.
Qed.

Lemma parseInt_not_numeric (s : JSString) : not_numeric s -> parseInt s = NaN.
Proof.
  destruct s as [|c rest]; [reflexivity|].
  intros (Hw & H45 & H43 & Hd). unfold parseInt. cbn [trim_start]. rewrite Hw.
  replace (c =? 45) with false by (symmetry; apply N.eqb_neq; exact H45).
  replace (c =? 43) with false by (symmetry; apply N.eqb_neq; exact H43).
  assert (H48 : (c =? 48) = false).
  { apply N.eqb_neq. intros ->. discriminate Hd. }
  rewrite H48. cbn [andb].
  destruct rest; cbn [read_digits]; rewrite Hd; reflexivity.
Qed.

Lemma Num_text_int (negative : bool) (n : N) :
  0 < n < 2 ^ 53 ->
  Num_text (Integer negative n) = Some ((if negative then js "-" else []) ++ decimal n).
Proof.
  intros [H0 H53]. unfold Num_text.
  replace (n <? 2 ^ 53) with true by (symmetry; apply N.ltb_lt; exact H53).
  replace (n =? 0) with false by (symmetry; apply N.eqb_neq; lia).
  destruct negative; reflexivity.
Qed.

Lemma size_or_decimal (negative : bool) (n d : N) (after : JSString) :
  0 < n -> no_digit_first after ->
  size_or (Some ((if negative then js "-" else []) ++ decimal n ++ after)) d
  = Integer negative n.
Proof.
  intros Hn Ha. unfold size_or. rewrite (parseInt_decimal negative n after Hn Ha).
  cbn [Num_truthy]. replace (n =? 0) with false by (symmetry; apply N.eqb_neq; lia).
  reflexivity.
Qed.

Lemma size_or_default (param : option JSString) (d : N) :
  no_number param -> size_or param d = Integer false d.
Proof.
  intros H. unfold size_or. destruct param as [s|].
  - rewrite (parseInt_not_numeric s H). reflexivity.
  - reflexivity.
Qed.





(** X10. The size in the demo server. The server reads the parameters as
    the launcher does when they start with the digits of a number, and takes
    80 and 24 for a parameter that the URL does not have or that is empty.
    It keeps what [parseInt] yields otherwise: for a parameter that does
    not start as a number, the command written to the shell is stty cols NaN;
    for zero, stty cols 0. *)
Theorem demo_size_from_url (n m : N) (after_n after_m : JSString) (c : N) (rest : JSString) :
  0 < n < 2 ^ 53 -> 0 < m < 2 ^ 53 ->
  no_digit_first after_n -> no_digit_first after_m -> not_numeric (c :: rest) ->
  demo_initial_command (Some (decimal n ++ after_n)) (Some (decimal m ++ after_m))
  = Some (js "stty cols " ++ decimal n ++ js " rows " ++ decimal m
          ++ js "; clear" ++ [LF])
  /\ demo_initial_command None (Some [])
     = Some (js "stty cols 80 rows 24; clear" ++ [LF])
  /\ demo_initial_command (Some (c :: rest)) (Some (decimal m ++ after_m))
     = Some (js "stty cols NaN rows " ++ decimal m ++ js "; clear" ++ [LF])
  /\ demo_initial_command (Some (js "0")) None
     = Some (js "stty cols 0 rows 24; clear" ++ [LF]).
Proof.
  intros Hn Hm Han Ham Hc.
  assert (Hd : forall k after d, 0 < k -> no_digit_first after ->
                 demo_size (Some (decimal k ++ after)) d = Integer false k).
  { intros k after d Hk Ha. unfold demo_size.
    destruct (decimal_first k Hk) as (x & l & E & _).
    pose proof (parseInt_decimal false k after Hk Ha) as Hp. cbn [app] in Hp.
    rewrite E in *. cbn [app] in *. exact Hp. }
  split; [|split; [reflexivity | split; [|reflexivity]]].
  - unfold demo_initial_command, stty_clear.
    rewrite (Hd n after_n) by tauto. rewrite (Hd m after_m) by tauto.
    rewrite (Num_text_int false n Hn), (Num_text_int false m Hm).
    cbn [app]. rewrite <- ?app_assoc. reflexivity.
  - unfold demo_initial_command, stty_clear.
    rewrite (Hd m after_m) by tauto. unfold demo_size at 1.
    rewrite (parseInt_not_numeric _ Hc).
    rewrite (Num_text_int false m Hm). cbn [Num_text app].
    rewrite <- ?app_assoc. reflexivity.
Qed.

Lemma demo_size_from_url_witness :
  demo_initial_command (Some (js "120")) (Some (js "40"))
  = Some (js "stty cols 120 rows 40; clear" ++ [LF])
  /\ demo_initial_command (Some (js "wide")) (Some (js "40"))
     = Some (js "stty cols NaN rows 40; clear" ++ [LF]).
Proof.
  destruct (demo_size_from_url 120 40 [] [] 119 (js "ide")
              ltac:(split; reflexivity) ltac:(split; reflexivity) I I
              ltac:(repeat split; discriminate))
    as (H1 & _ & H3 & _).
  split; [exact H1 | exact H3].
Defined.

Lemma own_None {A} (object : list (JSString * A)) (key : JSString) :
  ~ In key (map fst object) -> own object key = None.
Proof.
  induction object as [|[k v] object IH]; cbn; [reflexivity|].
  intros H. destruct (jsstring_eqb k key) eqn:E.
  - apply jsstring_eqb_eq in E. tauto.
  - apply IH. tauto.
Qed.

Lemma own_In {A} (object : list (JSString * A)) (key : JSString) (v : A) :
  own object key = Some v -> In (key, v) object.
Proof.
  induction object as [|[k w] object IH]; cbn; [discriminate|].
  destruct (jsstring_eqb k key) eqn:E.
  - apply jsstring_eqb_eq in E. intros H; inversion H; subst. auto.
  - auto.
Qed.

Section HttpFacts.

Variable HTML_TEMPLATE : JSString.
Variable readFileSync : list JSString -> option Buffer.

Abbreviation the_request := (Http.request HTML_TEMPLATE readFileSync).

Lemma own_routes :
  own (Http.routes HTML_TEMPLATE) (js "/")
  = Some (Http.mkRoute (Some HTML_TEMPLATE) None (js "text/html"))
  /\ own (Http.routes HTML_TEMPLATE) (js "/ghostty-web.js")
     = Some (Http.mkRoute None (Some [js "dist"; js "ghostty-web.js"])
                          (js "application/javascript"))
  /\ own (Http.routes HTML_TEMPLATE) (js "/ghostty-vt.wasm")
     = Some (Http.mkRoute None (Some [js "ghostty-vt.wasm"]) (js "application/wasm"))
  /\ own (Http.routes HTML_TEMPLATE) (js "/__vite-browser-external-2447137e.js")
     = Some (Http.mkRoute None
               (Some [js "dist"; js "__vite-browser-external-2447137e.js"])
               (js "application/javascript")).
Proof. repeat split. Qed.


(** X12. Files. Whatever the URL, the handler reads no file but the three
    files of the package that have a route: the URL never becomes part of a
    path. It reads at most one file for a request, and none for a URL
    without a route. *)
Theorem request_reads_package_files (url : JSString) :
  (forall path, In (Http.ReadFileSync path) (the_request url) -> In path Http.package_files)
  /\ (length (filter (fun a => match a with Http.ReadFileSync _ => true | _ => false end)
                     (the_request url)) <= 1)%nat
  /\ (~ In url Http.served ->
      forall path, ~ In (Http.ReadFileSync path) (the_request url)).
Proof.
  assert (Hcases :
    the_request url = [Http.WriteHead 404 (js "text/plain"); Http.End (Http.Text (js "Not found"))]
    \/ the_request url = []
    \/ In url Http.served
       /\ ((exists t b, the_request url = [Http.WriteHead 200 t; Http.End b])
           \/ exists path s t b,
                In path Http.package_files
                /\ the_request url
                   = [Http.ReadFileSync path; Http.WriteHead s t; Http.End b])).
  { unfold Http.request.
    destruct (own (Http.routes HTML_TEMPLATE) url) as [route|] eqn:Ho.
    - apply own_In in Ho. unfold Http.routes in Ho. cbn [In] in Ho.
      assert (Hs : In url Http.served).
      { unfold Http.served. cbn [In].
        destruct Ho as [H | [H | [H | [H | []]]]]; inversion H; auto. }
      destruct Ho as [H | [H | [H | [H | []]]]]; inversion H; subst;
        cbn [Http.content Http.file Http.type].
      + destruct HTML_TEMPLATE; [auto|]. right. right. split; [exact Hs|].
        left. eauto.
      + right. right. split; [exact Hs|]. right.
        destruct (readFileSync _); do 4 eexists;
          (split; [|reflexivity]); cbn; auto.
      + right. right. split; [exact Hs|]. right.
        destruct (readFileSync _); do 4 eexists;
          (split; [|reflexivity]); cbn; auto.
      + right. right. split; [exact Hs|]. right.
        destruct (readFileSync _); do 4 eexists;
          (split; [|reflexivity]); cbn; auto.
    - destruct (inherited url); auto. }
  destruct Hcases as [E | [E | (Hs & [(t & b & E) | (path & st & t & b & Hp & E)])]];
    rewrite E; cbn [filter length In].
  - split; [intros p [H | [H | []]]; discriminate|].
    split; [lia|]. intros _ p [H | [H | []]]; discriminate.
  - split; [tauto|]. split; [lia | tauto].
  - split; [intros p [H | [H | []]]; discriminate|].
    split; [lia | tauto].
  - split; [intros p [H | [H | [H | []]]]; try discriminate; inversion H; subst; exact Hp|].
    split; [lia | tauto].
Qed.

End HttpFacts.


Section TableFacts.

Variable V : Type.
Implicit Types (t : Table V) (k : N) (v : V).

Lemma Map_get_In t k v : Map_get t k = Some v -> In (k, v) t.
Proof.
  induction t as [|[k' v'] t IH]; cbn; [discriminate|].
  destruct (k' =? k) eqn:E.
  - apply N.eqb_eq in E. intros H. inversion H. subst. auto.
  - auto.
Qed.

Lemma Map_get_None t k : ~ In k (keys t) -> Map_get t k = None.
Proof.
  induction t as [|[k' v'] t IH]; cbn; [reflexivity|].
  intros H. destruct (k' =? k) eqn:E.
  - apply N.eqb_eq in E. tauto.
  - apply IH. tauto.
Qed.

Lemma Map_get_set t k v k' :
  Map_get (Map_set t k v) k' = if k =? k' then Some v else Map_get t k'.
Proof.
  induction t as [|[k0 v0] t IH]; cbn.
  - reflexivity.
  - destruct (k0 =? k) eqn:E; cbn.
    + apply N.eqb_eq in E. subst k0. destruct (k =? k'); reflexivity.
    + rewrite IH. destruct (k0 =? k') eqn:E'; [|reflexivity].
      apply N.eqb_eq in E'. subst k0. rewrite N.eqb_sym, E. reflexivity.
Qed.

Lemma keys_set t k v :
  keys (Map_set t k v) = if existsb (N.eqb k) (keys t) then keys t else keys t ++ [k].
Proof.
  induction t as [|[k0 v0] t IH]; cbn; [reflexivity|].
  rewrite (N.eqb_sym k k0).
  destruct (k0 =? k) eqn:E; cbn; [reflexivity|].
  fold (keys (Map_set t k v)). fold (keys t). rewrite IH.
  destruct (existsb (N.eqb k) (keys t)); reflexivity.
Qed.

Lemma NoDup_set t k v : NoDup (keys t) -> NoDup (keys (Map_set t k v)).
Proof.
  intros H. rewrite keys_set.
  destruct (existsb (N.eqb k) (keys t)) eqn:E; [exact H|].
  apply NoDup_app; [exact H | repeat constructor; intros [] |].
  intros x Hx [Hk | []]. subst x.
  assert (existsb (N.eqb k) (keys t) = true)
    by (apply existsb_exists; exists k; split; [exact Hx | apply N.eqb_refl]).
  congruence.
Qed.

Lemma keys_delete_incl t k x : In x (keys (Map_delete t k)) -> In x (keys t).
Proof.
  induction t as [|[k0 v0] t IH]; cbn; [tauto|].
  destruct (k0 =? k); cbn; [tauto|]. intros [H | H]; auto.
Qed.

Lemma NoDup_delete t k : NoDup (keys t) -> NoDup (keys (Map_delete t k)).
Proof.
  induction t as [|[k0 v0] t IH]; cbn; [constructor|].
  intros H. inversion H as [|? ? Hn Ht]; subst.
  destruct (k0 =? k); cbn; [exact Ht|].
  constructor; [|exact (IH Ht)].
  intros Hin. apply Hn. apply (keys_delete_incl _ _ _ Hin).
Qed.

Lemma Map_get_delete t k k' :
  NoDup (keys t) ->
  Map_get (Map_delete t k) k' = if k =? k' then None else Map_get t k'.
Proof.
  induction t as [|[k0 v0] t IH]; cbn; intros H.
  - destruct (k =? k'); reflexivity.
  - inversion H as [|? ? Hn Ht]; subst.
    destruct (k0 =? k) eqn:E; cbn.
    + apply N.eqb_eq in E. subst k0.
      destruct (k =? k') eqn:E'; [|reflexivity].
      apply N.eqb_eq in E'. subst k'. apply Map_get_None. exact Hn.
    + rewrite (IH Ht). destruct (k0 =? k') eqn:E'; [|reflexivity].
      apply N.eqb_eq in E'. subst k0. rewrite N.eqb_sym, E. reflexivity.
Qed.

Lemma Map_get_keys t k : In k (keys t) <-> exists v, Map_get t k = Some v.
Proof.
  split.
  - induction t as [|[k0 v0] t IH]; cbn; [tauto|].
    intros [-> | H].
    + rewrite N.eqb_refl. eauto.
    + destruct (k0 =? k); eauto.
  - intros [v H]. apply Map_get_In in H.
    apply (in_map fst) in H. exact H.
Qed.

End TableFacts.


Lemma NoDup_map_injective {A B} (f : A -> B) (l : list A) :
  (forall x y, f x = f y -> x = y) -> NoDup l -> NoDup (map f l).
Proof.
  intros Hf. induction 1 as [|x l Hx _ IH]; cbn; constructor; [|exact IH].
  intros Hin. apply in_map_iff in Hin. destruct Hin as (y & E & Hy).
  apply Hf in E. subst. contradiction.
Qed.

(** ** Sockets *)

Lemma open_socket_snoc (events : list SocketEvent) (e : SocketEvent) (socket : N) :
  open_socket (events ++ [e]) socket
  <-> e = Upgraded socket \/ (e <> Closed socket /\ open_socket events socket).
Proof.
  split.
  - intros (before & after & E & Hn).
    destruct (exists_last (l := Upgraded socket :: after) ltac:(discriminate))
      as (init & x & Hl).
    rewrite Hl, app_assoc in E. apply app_inj_tail in E. destruct E as [E ->].
    destruct after as [|a after].
    + destruct init; [|destruct init; discriminate].
      inversion Hl. auto.
    + right. destruct init as [|i init]; [discriminate|].
      inversion Hl as [[Hi Ha]]. split.
      * intros ->. apply Hn. rewrite Ha. apply in_or_app. right. left. reflexivity.
      * exists before, init. split; [subst; reflexivity|].
        intros Hin. apply Hn. rewrite Ha. apply in_or_app. auto.
  - intros [-> | (Hne & before & after & -> & Hn)].
    + exists events, []. split; [reflexivity | intros []].
    + exists before, (after ++ [e]). split; [rewrite <- app_assoc; reflexivity|].
      intros Hin. apply in_app_or in Hin. destruct Hin as [Hin | [Hin | []]]; auto.
Qed.

Lemma activeSessions_open (events : list SocketEvent) :
  NoDup (keys (activeSessions events))
  /\ forall socket, In socket (keys (activeSessions events)) <-> open_socket events socket.
Proof.
  induction events as [|e events [IHn IH]] using rev_ind.
  - split; [constructor|]. intros socket. split; [intros []|].
    intros (before & after & E & _). destruct before; discriminate.
  - unfold activeSessions in *. rewrite fold_left_app. cbn [fold_left].
    set (t := fold_left track events []) in *.
    split.
    + destruct e; cbn [track]; [apply NoDup_set | apply NoDup_delete]; exact IHn.
    + intros socket. rewrite open_socket_snoc, <- IH, !Map_get_keys.
      destruct e as [s | s]; cbn [track].
      * split.
        -- intros [[] H]. rewrite Map_get_set in H.
           destruct (s =? socket) eqn:E.
           ++ apply N.eqb_eq in E. subst. auto.
           ++ right. split; [discriminate | eauto].
        -- intros [H | [_ [[] H]]]; exists tt; rewrite Map_get_set.
           ++ inversion H. rewrite N.eqb_refl. reflexivity.
           ++ rewrite H. destruct (s =? socket); reflexivity.
      * split.
        -- intros [[] H]. rewrite Map_get_delete in H by exact IHn.
           destruct (s =? socket) eqn:E; [discriminate|].
           apply N.eqb_neq in E. right. split; [congruence | eauto].
        -- intros [H | [Hne [[] H]]]; [discriminate|].
           exists tt. rewrite Map_get_delete by exact IHn.
           destruct (s =? socket) eqn:E; [|exact H].
           apply N.eqb_eq in E. subst. congruence.
Qed.

(** X13. Shutdown. [cleanup] ends the sockets that are open when it runs:
    those of the upgrade requests received so far, accepted or refused, that
    have not closed since; it ends each of them once and no other, then
    closes the server and sets the timer of the forced exit. *)
Theorem cleanup_ends_open_sockets (events : list SocketEvent) :
  (forall socket,
     In (End_socket socket) (cleanup (activeSessions events))
     <-> open_socket events socket)
  /\ NoDup (cleanup (activeSessions events))
  /\ exists sockets,
       cleanup (activeSessions events)
       = map End_socket sockets ++ [Server_close; Exit_after 2000].
Proof.
  destruct (activeSessions_open events) as [Hn Ho].
  unfold cleanup. rewrite <- (map_map fst End_socket). fold (keys (activeSessions events)).
  split; [|split].
  - intros socket. rewrite <- Ho. split.
    + intros H. apply in_app_or in H. destruct H as [H | [H | [H | []]]]; try discriminate.
      apply in_map_iff in H. destruct H as (x & E & Hx). inversion E. subst. exact Hx.
    + intros H. apply in_or_app. left. apply in_map. exact H.
  - apply NoDup_app.
    + apply NoDup_map_injective; [|exact Hn].
      intros x y E. inversion E. reflexivity.
    + repeat constructor; cbn; try tauto. intros [H | []]. discriminate.
    + intros x Hx [<- | [<- | []]]; apply in_map_iff in Hx;
        destruct Hx as (? & E & _); discriminate.
  - eexists. reflexivity.
Qed.

(** ** Sessions of the demo server *)

Section DemoServerFacts.

Variable Number : Type.
Variable JSON_parse : JSString -> option (JSValue Number).
Variable error_message : JSString.

Import DemoServer.

Abbreviation handle' := (handle JSON_parse error_message).
Abbreviation sessions_after' := (sessions_after JSON_parse error_message).

Lemma in_session_snoc (events : list Event) (e : Event) (ws pid : N) :
  in_session (events ++ [e]) ws pid
  <-> (exists command, e = Open ws pid command)
      \/ (ends_session ws e = false /\ in_session events ws pid).
Proof.
  split.
  - intros (before & command & after & E & Hn).
    destruct (exists_last (l := Open ws pid command :: after) ltac:(discriminate))
      as (init & x & Hl).
    rewrite Hl, app_assoc in E. apply app_inj_tail in E. destruct E as [E ->].
    destruct after as [|a after].
    + destruct init; [|destruct init; discriminate].
      inversion Hl. eauto.
    + right. destruct init as [|i init]; [discriminate|].
      inversion Hl as [[Hi Ha]]. rewrite Ha, forallb_app in Hn.
      apply andb_true_iff in Hn. destruct Hn as [Hn Hx]. cbn in Hx.
      split.
      * destruct (ends_session ws x); [discriminate | reflexivity].
      * exists before, command, init. split; [subst; reflexivity | exact Hn].
  - intros [[command ->] | (Hne & before & command & after & -> & Hn)].
    + exists events, command, []. split; reflexivity.
    + exists before, command, (after ++ [e]).
      split; [rewrite <- app_assoc; reflexivity|].
      rewrite forallb_app, Hn. cbn. rewrite Hne. reflexivity.
Qed.

Lemma Map_delete_absent {V} (t : Table V) (k : N) :
  Map_get t k = None -> Map_delete t k = t.
Proof.
  induction t as [|[k0 v0] t IH]; cbn; [reflexivity|].
  destruct (k0 =? k); [discriminate|]. intros H. rewrite (IH H). reflexivity.
Qed.

Lemma handle_sessions (sessions : Sessions) (e : Event) :
  fst (handle' sessions e)
  = match e with
    | Open ws pid _ => Map_set sessions ws pid
    | Message _ _ => sessions
    | Close ws | Exit ws _ => Map_delete sessions ws
    end.
Proof.
  destruct e as [ws pid c | ws input | ws | ws code]; cbn [handle].
  - reflexivity.
  - unfold message. destruct (Map_get sessions ws); reflexivity.
  - unfold close. destruct (Map_get sessions ws) eqn:E; cbn [fst]; [reflexivity|].
    symmetry. apply Map_delete_absent. exact E.
  - reflexivity.
Qed.

Lemma sessions_in_session (events : list Event) :
  NoDup (keys (sessions_after' events))
  /\ forall ws pid,
       Map_get (sessions_after' events) ws = Some pid <-> in_session events ws pid.
Proof.
  induction events as [|e events [IHn IH]] using rev_ind.
  - split; [constructor|]. intros ws pid. split; [discriminate|].
    intros (before & c & after & E & _). destruct before; discriminate.
  - unfold sessions_after in *. rewrite fold_left_app. cbn [fold_left].
    set (t := fold_left (fun sessions e => fst (handle' sessions e)) events []) in *.
    rewrite handle_sessions. split.
    + destruct e; [apply NoDup_set | | apply NoDup_delete | apply NoDup_delete];
        exact IHn.
    + intros ws pid. rewrite in_session_snoc, <- IH.
      destruct e as [ws' pid' c | ws' input | ws' | ws' code]; cbn [ends_session].
      * rewrite Map_get_set. destruct (ws' =? ws) eqn:E.
        -- apply N.eqb_eq in E. subst ws'. split.
           ++ intros H. inversion H. subst. eauto.
           ++ intros [[c' H] | [H _]]; [|discriminate]. inversion H. reflexivity.
        -- split; [auto|]. intros [[c' H] | [_ H]]; [|exact H].
           inversion H. subst. rewrite N.eqb_refl in E. discriminate.
      * split; [auto|]. intros [[c' H] | [_ H]]; [discriminate | exact H].
      * rewrite Map_get_delete by exact IHn. destruct (ws' =? ws).
        -- split; [discriminate|]. intros [[c' H] | [H _]]; discriminate.
        -- split; [auto|]. intros [[c' H] | [_ H]]; [discriminate | exact H].
      * rewrite Map_get_delete by exact IHn. destruct (ws' =? ws).
        -- split; [discriminate|]. intros [[c' H] | [H _]]; discriminate.
        -- split; [auto|]. intros [[c' H] | [_ H]]; [discriminate | exact H].
Qed.

(** X14. Sessions of the demo server. After any course of events (a
    connection opens, a message arrives, a connection closes, a shell
    exits): a message of a connection in session is handled on the process
    of that session; a message of a connection that is not in session (never
    opened, closed, or its shell has exited) is answered with the notice
    Session not found and reaches no process; no call is made on another
    connection or on the process of another session. On SIGINT the
    processes killed are those of the connections in session. *)
Theorem demo_sessions (events : list Event) (ws : N) (input : JSString) :
  (forall pid,
     in_session events ws pid ->
     snd (message JSON_parse error_message (sessions_after' events) ws input)
     = map (call_on ws pid) (fst (Demo.message JSON_parse error_message true input)))
  /\ ((forall pid, ~ in_session events ws pid) ->
      snd (message JSON_parse error_message (sessions_after' events) ws input)
      = [On_ws ws (Ws_send (CRLF ++ [ESC] ++ js "[31mError: Session not found"
                            ++ [ESC] ++ js "[0m" ++ CRLF))])
  /\ (forall call,
        In call (snd (message JSON_parse error_message (sessions_after' events) ws input)) ->
        match call with
        | On_ws ws' _ => ws' = ws
        | On_process pid _ => in_session events ws pid
        end)
  /\ (forall pid,
        In (On_process pid Process_kill) (SIGINT (sessions_after' events))
        <-> exists ws', in_session events ws' pid).
Proof.
  destruct (sessions_in_session events) as [Hn Hs].
  split; [|split; [|split]].
  - intros pid H. apply Hs in H. unfold message. rewrite H. reflexivity.
  - intros H. unfold message.
    destruct (Map_get (sessions_after' events) ws) as [pid|] eqn:E.
    + apply Hs in E. exfalso. exact (H pid E).
    + reflexivity.
  - intros call. unfold message.
    destruct (Map_get (sessions_after' events) ws) as [pid|] eqn:E; cbn [snd].
    + apply Hs in E. intros H. apply in_map_iff in H. destruct H as (e & <- & _).
      destruct e; cbn [call_on]; auto.
    + intros H. apply in_map_iff in H. destruct H as (e & <- & _). reflexivity.
  - intros pid. unfold SIGINT. rewrite in_flat_map. split.
    + intros ([ws' pid'] & Hin & [H | [H | []]]); [|discriminate].
      inversion H. subst. exists ws'. apply Hs.
      cbn [snd fst] in *.
      assert (Hk : exists v, Map_get (sessions_after' events) ws' = Some v)
        by (apply Map_get_keys; apply (in_map fst) in Hin; exact Hin).
      destruct Hk as [v Hv]. pose proof (Map_get_In _ _ _ _ Hv) as Hin'.
      assert (v = pid); [|subst; exact Hv].
      clear - Hn Hin Hin'. revert Hn Hin Hin'.
      generalize (sessions_after' events) as t.
      induction t as [|[k0 v0] t IH]; cbn; [tauto|].
      intros Hd. inversion Hd as [|? ? Hnot Ht]; subst.
      intros [H1 | H1] [H2 | H2].
      * congruence.
      * inversion H1; subst. exfalso. apply Hnot. apply (in_map fst) in H2. exact H2.
      * inversion H2; subst. exfalso. apply Hnot. apply (in_map fst) in H1. exact H1.
      * auto.
    + intros [ws' H]. apply Hs in H. apply Map_get_In in H.
      exists (ws', pid). split; [exact H|]. left. reflexivity.
Qed.

End DemoServerFacts.

Lemma left_of_refl (l : list N) : left_of l l.
Proof. induction l; constructor; assumption. Qed.

Lemma left_of_trans (a b c : list N) : left_of a b -> left_of b c -> left_of a c.
Proof.
  intros Hab Hbc. revert a Hab.
  induction Hbc as [|x b c Hbc IH|x b c Hbc IH]; intros a Hab.
  - exact Hab.
  - inversion Hab; subst.
    + constructor. apply IH. assumption.
    + apply left_of_drop. apply IH. assumption.
  - apply left_of_drop. apply IH. exact Hab.
Qed.

Lemma left_of_suffix (pre l : list N) : left_of l (pre ++ l).
Proof. induction pre; cbn; [apply left_of_refl | apply left_of_drop; exact IHpre]. Qed.

Lemma after_bel_suffix (str rest : JSString) :
  after_bel str = Some rest -> exists pre, str = pre ++ rest.
Proof.
  revert rest. induction str as [|c str IH]; cbn; intros rest H; [discriminate|].
  destruct (c =? BEL).
  - inversion H; subst. exists [c]. reflexivity.
  - destruct (IH _ H) as [pre ->]. exists (c :: pre). reflexivity.
Qed.

Lemma match_osc_suffix (d : N) (str rest : JSString) :
  match_osc d str = Some rest -> exists pre, str = pre ++ rest.
Proof.
  destruct str as [|c0 [|c1 [|c2 [|c3 body]]]]; cbn; try discriminate.
  destruct (_ && _); [|discriminate].
  intros H. destruct (after_bel_suffix _ _ H) as [pre ->].
  exists (c0 :: c1 :: c2 :: c3 :: pre). reflexivity.
Qed.

(** One pass only takes code units out. *)
Lemma replace_osc_left_of (d : N) (str : JSString) : left_of (replace_osc d str) str.
Proof.
  remember (length str) as n eqn:Hn. revert str Hn.
  induction n as [n IH] using Wf_nat.lt_wf_ind. intros str Hn.
  destruct str as [|c rest]; [rewrite replace_osc_nil; constructor|].
  rewrite replace_osc_cons.
  destruct (match_osc d (c :: rest)) as [after|] eqn:E.
  - destruct (match_osc_suffix _ _ _ E) as [pre Hpre].
    apply left_of_trans with after.
    + apply (IH (length after)); [|reflexivity].
      subst n. exact (match_osc_shorter _ _ _ E).
    + rewrite Hpre. apply left_of_suffix.
  - constructor. apply (IH (length rest)); [subst n; cbn; lia | reflexivity].
Qed.

Lemma strip_titles_left_of (str : JSString) : left_of (strip_titles str) str.
Proof.
  unfold strip_titles.
  eapply left_of_trans; [apply replace_osc_left_of|].
  eapply left_of_trans; apply replace_osc_left_of.
Qed.

Lemma after_bel_none (str : JSString) :
  Forall (fun c => c <> BEL) str -> after_bel str = None.
Proof.
  induction 1 as [|c str Hc _ IH]; cbn; [reflexivity|].
  replace (c =? BEL) with false by (symmetry; apply N.eqb_neq; exact Hc). exact IH.
Qed.

(** A pass changes nothing in a string without BEL. *)
Lemma replace_osc_no_bel (d : N) (str : JSString) :
  Forall (fun c => c <> BEL) str -> replace_osc d str = str.
Proof.
  induction 1 as [|c str Hc Hs IH]; [apply replace_osc_nil|].
  rewrite replace_osc_cons.
  assert (E : match_osc d (c :: str) = None).
  { destruct str as [|c1 [|c2 [|c3 body]]]; cbn; try reflexivity.
    destruct (_ && _); [|reflexivity].
    apply after_bel_none. inversion Hs as [|? ? _ H1]; subst.
    inversion H1 as [|? ? _ H2]; subst. inversion H2; subst. assumption. }
  rewrite E, IH. reflexivity.
Qed.

(** X15. The filter only removes. What either server sends for a chunk of
    the standard output is the chunk with some of its bytes taken out: no
    byte is added, changed or moved (in the launcher, for a chunk of
    well-formed UTF-8). *)
Theorem title_filter_only_removes (chunk : Buffer) (data : JSString) :
  valid_utf8 chunk ->
  (exists sent,
     stdout_on_data chunk = ([Socket_write (send_frame sent)], Returned tt)
     /\ left_of sent chunk)
  /\ exists sent,
       Demo.stdout_on_data data = ([Ws_send sent], Returned tt) /\ left_of sent data.
Proof.
  intros Hv. split.
  - eexists. split; [apply stdout_on_data_valid; exact Hv|].
    apply (strip_titles_left_of chunk).
  - eexists. split; [apply demo_stdout_filtered|].
    apply (strip_titles_left_of data).
Qed.

Lemma title_filter_only_removes_witness :
  exists sent,
    stdout_on_data (js "a" ++ [ESC; 93; 50; 59] ++ js "t" ++ [BEL] ++ js "b")
    = ([Socket_write (send_frame sent)], Returned tt)
    /\ left_of sent (js "a" ++ [ESC; 93; 50; 59] ++ js "t" ++ [BEL] ++ js "b").
Proof.
  pose (chunk := js "a" ++ [ESC; 93; 50; 59] ++ js "t" ++ [BEL] ++ js "b").
  assert (Ha : forallb (fun c => c <? 128) chunk = true) by reflexivity.
  assert (Hv : valid_utf8 chunk).
  { exists chunk. split; [apply ascii_well_formed; exact Ha|].
    symmetry. apply ascii_utf8_of. exact Ha. }
  exact (proj1 (title_filter_only_removes chunk [] Hv)).
Defined.



Lemma Buffer_from_code_points (str : JSString) :
  Node.Buffer_from str = utf8_of (code_points str).
Proof.
  remember (length str) as n eqn:Hn. revert str Hn.
  induction n as [n IH] using Wf_nat.lt_wf_ind. intros str Hn.
  destruct str as [|c rest]; [reflexivity|].
  cbn [Node.Buffer_from code_points].
  destruct (Node.is_high_surrogate c).
  - destruct rest as [|lo rest']; [reflexivity|].
    destruct (Node.is_low_surrogate lo).
    + unfold utf8_of. cbn [flat_map]. f_equal.
      apply (IH (length rest')); [subst n; cbn; lia | reflexivity].
    + unfold utf8_of. cbn [flat_map]. f_equal.
      apply (IH (length (lo :: rest'))); [subst n; cbn; lia | reflexivity].
  - destruct (Node.is_low_surrogate c); unfold utf8_of; cbn [flat_map]; f_equal;
      apply (IH (length rest)); try reflexivity; subst n; cbn; lia.
Qed.

Lemma pair_scalar (hi lo : N) :
  Node.is_high_surrogate hi = true -> Node.is_low_surrogate lo = true ->
  is_scalar (0x10000 + N.shiftl (hi - 0xD800) 10 + (lo - 0xDC00)) = true.
Proof.
  unfold Node.is_high_surrogate, Node.is_low_surrogate, is_scalar.
  intros Hh Hl.
  apply andb_true_iff in Hh. destruct Hh as [Hh1 Hh2].
  apply andb_true_iff in Hl. destruct Hl as [Hl1 Hl2].
  apply N.leb_le in Hh1, Hl1. apply N.ltb_lt in Hh2, Hl2.
  rewrite N.shiftl_mul_pow2. change (2 ^ 10) with 1024.
  apply orb_true_iff. right. apply andb_true_iff. split.
  - apply N.leb_le. lia.
  - apply N.ltb_lt. nia.
Qed.

Lemma code_points_well_formed (str : JSString) :
  code_units str -> well_formed (code_points str).
Proof.
  remember (length str) as n eqn:Hn. revert str Hn.
  induction n as [n IH] using Wf_nat.lt_wf_ind. intros str Hn Hu.
  destruct str as [|c rest]; [constructor|].
  inversion Hu as [|? ? Hc Hrest]; subst.
  assert (Hfffd : is_scalar 0xFFFD = true) by reflexivity.
  cbn [code_points].
  destruct (Node.is_high_surrogate c) eqn:Hh.
  - destruct rest as [|lo rest']; [repeat constructor|].
    inversion Hrest as [|? ? Hlo Hrest']; subst.
    destruct (Node.is_low_surrogate lo) eqn:Hl.
    + constructor; [apply pair_scalar; assumption|].
      apply (IH (length rest')); [cbn; lia | reflexivity | exact Hrest'].
    + constructor; [exact Hfffd|].
      apply (IH (length (lo :: rest'))); [cbn; lia | reflexivity | exact Hrest].
  - destruct (Node.is_low_surrogate c) eqn:Hl.
    + constructor; [exact Hfffd|].
      apply (IH (length rest)); [cbn; lia | reflexivity | exact Hrest].
    + constructor.
      * unfold Node.is_high_surrogate, Node.is_low_surrogate, is_scalar in *.
        destruct (c <? 0xD800) eqn:E1; [reflexivity|].
        apply N.ltb_ge in E1.
        replace (0xD800 <=? c) with true in Hh by (symmetry; apply N.leb_le; exact E1).
        cbn [andb orb] in *. apply N.ltb_ge in Hh.
        replace (0xDC00 <=? c) with true in Hl by (symmetry; apply N.leb_le; exact Hh).
        cbn [andb] in Hl. apply N.ltb_ge in Hl.
        apply andb_true_iff. split; [apply N.leb_le | apply N.ltb_lt]; lia.
      * apply (IH (length rest)); [cbn; lia | reflexivity | exact Hrest].
Qed.

(** The bytes written for a string are the UTF-8 form of some text. *)
Lemma Buffer_from_valid (str : JSString) : code_units str -> valid_utf8 (Node.Buffer_from str).
Proof.
  intros H. exists (code_points str). split.
  - apply code_points_well_formed. exact H.
  - apply Buffer_from_code_points.
Qed.

(** ** The decoder yields code units *)

Lemma land_lt (b m : N) (k : N) : m = N.ones k -> N.land b m < 2 ^ k.
Proof.
  intros ->. rewrite N.land_ones. apply N.mod_lt. apply N.pow_nonzero. discriminate.
Qed.

Lemma decode_lead_units (b : N) :
  decoder_state (fst (Node.decode_lead b)) /\ code_units (snd (Node.decode_lead b)).
Proof.
  unfold Node.decode_lead.
  destruct (b <=? 0x7F) eqn:E1.
  - apply N.leb_le in E1. split; [exact I|]. repeat constructor. lia.
  - destruct ((0xC2 <=? b) && (b <=? 0xDF)).
    + split; [|constructor]. left. split; [reflexivity|]. cbn [Node.cp_acc].
      pose proof (land_lt b 0x1F 5 eq_refl). change (2 ^ 5) with 32 in *.
      change (2 ^ 15) with 32768. lia.
    + destruct ((0xE0 <=? b) && (b <=? 0xEF)).
      * split; [|constructor]. right. left. split; [reflexivity|]. cbn [Node.cp_acc].
        pose proof (land_lt b 0x0F 4 eq_refl). change (2 ^ 4) with 16 in *.
        change (2 ^ 9) with 512. lia.
      * destruct ((0xF0 <=? b) && (b <=? 0xF4)).
        -- split; [|constructor]. right. right. split; [reflexivity|]. cbn [Node.cp_acc].
           apply (land_lt b 0x07 3 eq_refl).
        -- split; [exact I|]. repeat constructor.
Qed.

Lemma utf16_units_units (cp : N) : cp < 2 ^ 21 -> code_units (Node.utf16_units cp).
Proof.
  intros H. unfold Node.utf16_units.
  destruct (cp <? 0x10000) eqn:E.
  - apply N.ltb_lt in E. repeat constructor. exact E.
  - apply N.ltb_ge in E. repeat constructor.
    + rewrite N.shiftr_div_pow2. change (2 ^ 10) with 1024.
      assert ((cp - 0x10000) / 1024 < 2048).
      { apply N.Div0.div_lt_upper_bound. change (2 ^ 21) with 2097152 in H. lia. }
      revert H0. generalize ((cp - 0x10000) / 1024). intros q Hq. lia.
    + pose proof (land_lt (cp - 0x10000) 0x3FF 10 eq_refl) as Hl.
      change (2 ^ 10) with 1024 in Hl.
      revert Hl. generalize (N.land (cp - 0x10000) 0x3FF). intros q Hq. lia.
Qed.

Lemma decode_step_units (st : option Node.Pending) (b : N) :
  decoder_state st ->
  decoder_state (fst (Node.decode_step st b)) /\ code_units (snd (Node.decode_step st b)).
Proof.
  intros Hst. destruct st as [p|]; cbn [Node.decode_step]; [|apply decode_lead_units].
  destruct ((Node.lower p <=? b) && (b <=? Node.upper p)).
  - assert (Hlow : N.land b 0x3F < 64) by (apply (land_lt b 0x3F 6 eq_refl)).
    rewrite lor_shiftl_low by exact Hlow.
    revert Hlow. generalize (N.land b 0x3F). intros low Hlow.
    cbn [decoder_state] in Hst. unfold in_character in Hst.
    change (2 ^ 15) with 32768 in Hst. change (2 ^ 9) with 512 in Hst.
    change (2 ^ 3) with 8 in Hst.
    destruct Hst as [[Hn Ha] | [[Hn Ha] | [Hn Ha]]]; rewrite Hn.
    + change (1 =? 1) with true. cbv iota. split; [exact I|].
      apply utf16_units_units. change (2 ^ 21) with 2097152. lia.
    + change (2 =? 1) with false. cbv iota. split; [|constructor].
      left. cbn [Node.needed Node.cp_acc]. split; [reflexivity|].
      change (2 ^ 15) with 32768. lia.
    + change (3 =? 1) with false. cbv iota. split; [|constructor].
      right. left. cbn [Node.needed Node.cp_acc]. split; [reflexivity|].
      change (2 ^ 9) with 512. lia.
  - destruct (decode_lead_units b) as [H1 H2].
    destruct (Node.decode_lead b) as [st' out]. cbn [fst snd] in *.
    split; [exact H1|]. constructor; [reflexivity | exact H2].
Qed.

Lemma decode_from_units (buf : Buffer) (st : option Node.Pending) :
  decoder_state st -> code_units (Node.decode_from st buf).
Proof.
  revert st. induction buf as [|b buf IH]; intros st Hst; cbn [Node.decode_from].
  - destruct st; repeat constructor.
  - destruct (decode_step_units st b Hst) as [H1 H2].
    destruct (Node.decode_step st b) as [st' out]. cbn [fst snd] in *.
    apply Forall_app. split; [exact H2 | apply IH; exact H1].
Qed.

(** [buf.toString()] is a string, whatever the bytes. *)
Lemma toString_units (buf : Buffer) : code_units (Node.toString buf).
Proof. apply decode_from_units. exact I. Qed.

Lemma js_units (s : string) : code_units (js s).
Proof.
  unfold js, code_units. apply Forall_forall. intros c Hc.
  apply in_map_iff in Hc. destruct Hc as (a & <- & _).
  pose proof (N_ascii_bounded a). lia.
Qed.

(** X17. Text frames carry UTF-8. For every chunk of bytes that the
    process writes, on its standard output or its standard error, well
    formed or not, the launcher writes one frame to the socket, and this
    frame is a text frame whose payload is well-formed UTF-8: [parseFrame]
    reads it back as a final frame of opcode 1 with that payload. *)
Theorem text_frames_are_utf8 (chunk : Buffer) :
  (exists payload,
     stdout_on_data chunk = ([Socket_write (send_frame payload)], Returned tt)
     /\ valid_utf8 payload
     /\ (buf_len payload < 2 ^ 64 ->
         parseFrame (send_frame payload) = Some (mkFrame true 0x01 payload, [])))
  /\ exists payload,
       stderr_on_data chunk = ([Socket_write (send_frame payload)], Returned tt)
       /\ valid_utf8 payload
       /\ (buf_len payload < 2 ^ 64 ->
           parseFrame (send_frame payload) = Some (mkFrame true 0x01 payload, [])).
Proof.
  split.
  - exists (Node.Buffer_from (strip_titles (Node.toString chunk))).
    split; [reflexivity|]. split; [|apply parseFrame_send_frame].
    apply Buffer_from_valid. apply strip_titles_Forall. apply toString_units.
  - eexists. split; [reflexivity|]. split; [|apply parseFrame_send_frame].
    apply Buffer_from_valid. apply Forall_app. split; [apply js_units|].
    apply Forall_app. split; [apply toString_units | apply js_units].
Qed.

Lemma be_bytes_bytes (n : nat) (v : N) : bytes (be_bytes n v).
Proof.
  induction n as [|n IH]; cbn [be_bytes]; constructor; [|exact IH].
  unfold is_byte. apply N.mod_lt. discriminate.
Qed.

Lemma sha1_digest (msg : Buffer) : length (Node.sha1 msg) = 20%nat /\ bytes (Node.sha1 msg).
Proof.
  unfold Node.sha1.
  destruct (fold_left _ _ _) as [[[[h0 h1] h2] h3] h4].
  split.
  - rewrite !length_app, !be_bytes_length. reflexivity.
  - repeat (apply Forall_app; split); apply be_bytes_bytes.
Qed.

Lemma b64_alphabet (i : N) : i < 64 -> In (Node.b64 i) Node.base64_alphabet.
Proof.
  intros H. unfold Node.b64. apply nth_In.
  change (length Node.base64_alphabet) with 64%nat. lia.
Qed.

Lemma shiftr_lt (a k m : N) : a < m * 2 ^ k -> N.shiftr a k < m.
Proof.
  intros H. rewrite N.shiftr_div_pow2. apply N.Div0.div_lt_upper_bound. lia.
Qed.

Lemma sextet_high (a : N) : a < 256 -> N.shiftr a 2 < 64.
Proof. intros H. apply (shiftr_lt a 2 64). exact H. Qed.

Lemma sextet_12 (a b : N) :
  b < 256 -> N.lor (N.shiftl (N.land a 3) 4) (N.shiftr b 4) < 64.
Proof.
  intros Hb. apply (lor_lt_pow2 _ _ 6).
  - rewrite N.shiftl_mul_pow2.
    pose proof (land_lt a 3 2 eq_refl) as H. change (2 ^ 2) with 4 in H.
    revert H. generalize (N.land a 3). intros q H.
    change (2 ^ 4) with 16. change (2 ^ 6) with 64. lia.
  - pose proof (shiftr_lt b 4 16 Hb). change (2 ^ 6) with 64. lia.
Qed.

Lemma sextet_23 (b c : N) :
  c < 256 -> N.lor (N.shiftl (N.land b 15) 2) (N.shiftr c 6) < 64.
Proof.
  intros Hc. apply (lor_lt_pow2 _ _ 6).
  - rewrite N.shiftl_mul_pow2.
    pose proof (land_lt b 15 4 eq_refl) as H. change (2 ^ 4) with 16 in H.
    revert H. generalize (N.land b 15). intros q H.
    change (2 ^ 2) with 4. change (2 ^ 6) with 64. lia.
  - pose proof (shiftr_lt c 6 4 Hc). change (2 ^ 6) with 64. lia.
Qed.

Lemma sextet_1 (a : N) : N.shiftl (N.land a 3) 4 < 64.
Proof.
  rewrite N.shiftl_mul_pow2.
  pose proof (land_lt a 3 2 eq_refl) as H. change (2 ^ 2) with 4 in H.
  revert H. generalize (N.land a 3). intros q H. change (2 ^ 4) with 16. lia.
Qed.

Lemma sextet_2 (b : N) : N.shiftl (N.land b 15) 2 < 64.
Proof.
  rewrite N.shiftl_mul_pow2.
  pose proof (land_lt b 15 4 eq_refl) as H. change (2 ^ 4) with 16 in H.
  revert H. generalize (N.land b 15). intros q H. change (2 ^ 2) with 4. lia.
Qed.

Lemma base64_shape (data : Buffer) :
  bytes data ->
  base64_text (Node.base64 data)
  /\ length (Node.base64 data) = (4 * Nat.div (length data + 2) 3)%nat.
Proof.
  remember (length data) as n eqn:Hn. revert data Hn.
  induction n as [n IH] using Wf_nat.lt_wf_ind. intros data Hn Hb.
  assert (Hin : forall i, i < 64 -> In (Node.b64 i) Node.base64_alphabet \/ Node.b64 i = 61)
    by (intros i Hi; left; apply b64_alphabet; exact Hi).
  assert (Hpad : In 61 Node.base64_alphabet \/ 61 = 61) by (right; reflexivity).
  destruct data as [|a [|b [|c rest]]].
  - subst n. split; [constructor | reflexivity].
  - subst n. inversion Hb; subst. unfold is_byte in *. split; [|reflexivity].
    cbn [Node.base64]. unfold base64_text.
    apply Forall_cons; [apply Hin; apply sextet_high; assumption|].
    apply Forall_cons; [apply Hin; apply sextet_1|].
    apply Forall_cons; [exact Hpad|]. apply Forall_cons; [exact Hpad|]. apply Forall_nil.
  - subst n. inversion Hb as [|? ? Ha Hb']; subst. inversion Hb' as [|? ? Hb1 _]; subst.
    unfold is_byte in *. split; [|reflexivity].
    cbn [Node.base64]. unfold base64_text.
    apply Forall_cons; [apply Hin; apply sextet_high; assumption|].
    apply Forall_cons; [apply Hin; apply sextet_12; assumption|].
    apply Forall_cons; [apply Hin; apply sextet_2|].
    apply Forall_cons; [exact Hpad|]. apply Forall_nil.
  - inversion Hb as [|? ? Ha Hb']; subst. inversion Hb' as [|? ? Hb1 Hb'']; subst.
    inversion Hb'' as [|? ? Hc Hrest]; subst. unfold is_byte in *.
    destruct (IH (length rest) ltac:(cbn; lia) rest eq_refl Hrest) as [IH1 IH2].
    cbn [Node.base64]. split.
    + unfold base64_text.
      apply Forall_cons; [apply Hin; apply sextet_high; assumption|].
      apply Forall_cons; [apply Hin; apply sextet_12; assumption|].
      apply Forall_cons; [apply Hin; apply sextet_23; assumption|].
      apply Forall_cons; [apply Hin; exact (land_lt c 63 6 eq_refl)|].
      exact IH1.
    + cbn [length]. rewrite IH2.
      replace (S (S (S (length rest))) + 2)%nat with (length rest + 2 + 1 * 3)%nat by lia.
      rewrite Nat.div_add by discriminate. lia.
Qed.

Lemma base64_text_ascii (s : JSString) :
  base64_text s -> forallb (fun c => c <? 128) s = true.
Proof.
  intros H. apply forallb_forall. intros c Hc.
  unfold base64_text in H. rewrite Forall_forall in H. specialize (H c Hc).
  destruct H as [H | ->]; [|reflexivity].
  revert c H Hc. clear. intros c H _.
  assert (Ha : forallb (fun c => c <? 128) Node.base64_alphabet = true) by reflexivity.
  rewrite forallb_forall in Ha. exact (Ha c H).
Qed.

Lemma Buffer_from_ascii (s : JSString) :
  forallb (fun c => c <? 128) s = true -> Node.Buffer_from s = s.
Proof.
  intros H. rewrite <- (ascii_utf16_of s H) at 1.
  rewrite Buffer_from_utf16_of by (apply ascii_well_formed; exact H).
  apply ascii_utf8_of. exact H.
Qed.

(** X18. The response to the handshake. For every request that is
    accepted, the accept value is 28 characters of the base64 alphabet
    (with its padding), whatever the key: the response is the fixed lines
    and the accept value, all of it ASCII, and holds no byte taken from the
    request. *)
Theorem handshake_response_shape (req : Request) (key : JSString) :
  startsWith (url req) (js "/ws") = true ->
  sec_websocket_key req = Some key -> key <> [] ->
  exists accept,
    server_on_upgrade req
    = [Socket_write (js "HTTP/1.1 101 Switching Protocols" ++ CRLF
                     ++ js "Upgrade: websocket" ++ CRLF
                     ++ js "Connection: Upgrade" ++ CRLF
                     ++ js "Sec-WebSocket-Accept: " ++ accept ++ CRLF ++ CRLF);
       Spawn_session (url req)]
    /\ length accept = 28%nat /\ base64_text accept.
Proof.
  intros Hu Hk Hne.
  exists (Node.sha1_base64 (key ++ GUID)).
  destruct (sha1_digest (Node.Buffer_from (key ++ GUID))) as [Hl Hb].
  destruct (base64_shape _ Hb) as [Ht Hlen].
  rewrite Hl in Hlen.
  split; [|split; [exact Hlen | exact Ht]].
  assert (Ha : Node.Buffer_from (switching_protocols (Node.sha1_base64 (key ++ GUID)))
               = switching_protocols (Node.sha1_base64 (key ++ GUID))).
  { apply Buffer_from_ascii. unfold switching_protocols. rewrite !forallb_app.
    unfold Node.sha1_base64. rewrite (base64_text_ascii _ Ht). reflexivity. }
  unfold server_on_upgrade. rewrite Hu, Hk.
  destruct key as [|k key]; [contradiction|].
  rewrite Ha. reflexivity.
Qed.

Lemma handshake_response_shape_witness :
  exists accept,
    server_on_upgrade (mkRequest (js "/ws") (Some (js "x3JJHMbDL1EzLkh9GBhXDw==")))
    = [Socket_write (js "HTTP/1.1 101 Switching Protocols" ++ CRLF
                     ++ js "Upgrade: websocket" ++ CRLF
                     ++ js "Connection: Upgrade" ++ CRLF
                     ++ js "Sec-WebSocket-Accept: " ++ accept ++ CRLF ++ CRLF);
       Spawn_session (js "/ws")]
    /\ length accept = 28%nat /\ base64_text accept.
Proof.
  apply (handshake_response_shape
           (mkRequest (js "/ws") (Some (js "x3JJHMbDL1EzLkh9GBhXDw==")))
           (js "x3JJHMbDL1EzLkh9GBhXDw==")).
  - reflexivity.
  - reflexivity.
  - discriminate.
Defined.

(* ===================================================================== *)
(** * Messages in the demo server *)
(* ===================================================================== *)

Section DemoMessage.

Variable Number : Type.
Variable JSON_parse : JSString -> option (JSValue Number).
Variable error_message : JSString.


End DemoMessage.


Section LinkFacts.

Import LinkDetector.

Variable Link : Type.
Variable range : Link -> Range.

Open Scope Z_scope.

(** X21. The positions of a link. A position is in a link exactly when, in
    reading order (by row, then by column), it is neither before the start
    of the link nor after its end; no position is in a link whose end is on
    a row before its start. *)
Theorem position_in_link (col row : Z) (link : Link) :
  isPositionInLink range col row link = true
  <-> not_before row col (y (start (range link))) (x (start (range link)))
      /\ not_before (y (stop (range link))) (x (stop (range link))) row col.
Proof.
  unfold isPositionInLink, not_before.
  destruct (range link) as [[sx sy] [ex ey]]. cbn [start stop x y].
  destruct (row <? sy) eqn:E1; cbn [orb].
  - apply Z.ltb_lt in E1. split; [discriminate | lia].
  - apply Z.ltb_ge in E1. destruct (row >? ey) eqn:E2.
    + rewrite Z.gtb_ltb in E2. apply Z.ltb_lt in E2. split; [discriminate | lia].
    + rewrite Z.gtb_ltb in E2. apply Z.ltb_ge in E2.
      destruct (sy =? ey) eqn:E3.
      * apply Z.eqb_eq in E3. rewrite andb_true_iff, Z.geb_le, Z.leb_le. lia.
      * apply Z.eqb_neq in E3. destruct (row =? sy) eqn:E4.
        -- apply Z.eqb_eq in E4. rewrite Z.geb_le. lia.
        -- apply Z.eqb_neq in E4. destruct (row =? ey) eqn:E5.
           ++ apply Z.eqb_eq in E5. rewrite Z.leb_le. lia.
           ++ apply Z.eqb_neq in E5. split; [lia | reflexivity].
Qed.

Lemma Key_eqb_eq (a b : Key) : Key_eqb a b = true <-> a = b.
Proof.
  destruct a as [[a1 a2] a3], b as [[b1 b2] b3]. cbn [Key_eqb].
  rewrite !andb_true_iff, !Z.eqb_eq. split.
  - intros [[-> ->] ->]. reflexivity.
  - intros H. inversion H. auto.
Qed.

Lemma Key_eqb_refl (a : Key) : Key_eqb a a = true.
Proof. apply Key_eqb_eq. reflexivity. Qed.

Lemma has_In (linkCache : Cache Link) (key : Key) :
  has linkCache key = true <-> In key (map fst linkCache).
Proof.
  unfold has. rewrite existsb_exists. split.
  - intros ([k l] & Hin & E). apply Key_eqb_eq in E. cbn in E. subst.
    apply (in_map fst) in Hin. exact Hin.
  - intros H. apply in_map_iff in H. destruct H as ([k l] & <- & Hin).
    exists (k, l). split; [exact Hin | apply Key_eqb_refl].
Qed.

Lemma get_cacheLink (linkCache : Cache Link) (link : Link) (key : Key) :
  get (cacheLink range linkCache link) key
  = match get linkCache key with
    | Some cached => Some cached
    | None => if Key_eqb (cacheKey range link) key then Some link else None
    end.
Proof.
  unfold cacheLink, get.
  destruct (has linkCache (cacheKey range link)) eqn:Hh.
  - destruct (find _ linkCache) as [entry|] eqn:Hf; [reflexivity|]. cbn [option_map].
    destruct (Key_eqb (cacheKey range link) key) eqn:E; [|reflexivity].
    apply Key_eqb_eq in E. subst key. exfalso.
    apply has_In in Hh. apply in_map_iff in Hh. destruct Hh as (entry & He & Hin).
    pose proof (find_none _ _ Hf entry Hin) as Hn. cbv beta in Hn.
    rewrite He, Key_eqb_refl in Hn. discriminate.
  - induction linkCache as [|entry cache IH]; cbn [app find fst].
    + destruct (Key_eqb (cacheKey range link) key); reflexivity.
    + destruct (Key_eqb (fst entry) key); [reflexivity|].
      apply IH. unfold has in *. cbn [existsb] in Hh.
      apply orb_false_iff in Hh. tauto.
Qed.

Lemma NoDup_cacheLink (linkCache : Cache Link) (link : Link) :
  NoDup (map fst linkCache) -> NoDup (map fst (cacheLink range linkCache link)).
Proof.
  intros H. unfold cacheLink.
  destruct (has linkCache (cacheKey range link)) eqn:Hh; [exact H|].
  rewrite map_app. apply NoDup_app; [exact H | repeat constructor; intros [] |].
  intros k Hk [Hl | []]. cbn in Hl. subst k.
  apply has_In in Hk. congruence.
Qed.

Lemma keyed_cacheLink (linkCache : Cache Link) (link : Link) :
  Forall (fun entry => fst entry = cacheKey range (snd entry)) linkCache ->
  Forall (fun entry => fst entry = cacheKey range (snd entry))
         (cacheLink range linkCache link).
Proof.
  intros H. unfold cacheLink. destruct (has _ _); [exact H|].
  apply Forall_app. split; [exact H | repeat constructor].
Qed.

(** X22. The first link of a range stays. When links are cached one after
    the other, as [scanRow] does with the links of the providers, the cache
    keeps what it had, and for a key it did not have it takes the first of
    the links with that key: a later link with the same start and the same
    end column, whatever its end row, is left out. *)
Theorem cacheLink_first_wins (linkCache : Cache Link) (links : list Link) (key : Key) :
  get (fold_left (cacheLink range) links linkCache) key
  = match get linkCache key with
    | Some cached => Some cached
    | None => find (fun link => Key_eqb (cacheKey range link) key) links
    end.
Proof.
  revert linkCache. induction links as [|link links IH]; intros linkCache; cbn [fold_left find].
  - destruct (get linkCache key); reflexivity.
  - rewrite IH, get_cacheLink. destruct (get linkCache key); [reflexivity|].
    destruct (Key_eqb (cacheKey range link) key); reflexivity.
Qed.

Lemma fold_cacheLink_NoDup (links : list Link) (linkCache : Cache Link) :
  NoDup (map fst linkCache) ->
  NoDup (map fst (fold_left (cacheLink range) links linkCache)).
Proof.
  revert linkCache. induction links as [|link links IH]; intros linkCache H; cbn [fold_left].
  - exact H.
  - apply IH. apply NoDup_cacheLink. exact H.
Qed.

(** ** Invalidation *)

Lemma fold_delete (keys : list Key) (linkCache : Cache Link) :
  fold_left delete keys linkCache
  = filter (fun entry => negb (existsb (Key_eqb (fst entry)) keys)) linkCache.
Proof.
  revert linkCache. induction keys as [|k keys IH]; intros linkCache; cbn [fold_left existsb].
  - cbn. induction linkCache as [|e c IHc]; cbn; [reflexivity | rewrite <- IHc; reflexivity].
  - rewrite IH. unfold delete.
    induction linkCache as [|e c IHc]; cbn [filter]; [reflexivity|].
    destruct (Key_eqb (fst e) k); cbn [negb filter orb].
    + exact IHc.
    + destruct (existsb (Key_eqb (fst e)) keys); cbn [negb]; rewrite IHc; reflexivity.
Qed.

Lemma fold_unscan (gone : list Z) (scannedRows : list Z) :
  fold_left unscan gone scannedRows
  = filter (fun r => negb (existsb (Z.eqb r) gone)) scannedRows.
Proof.
  revert scannedRows. induction gone as [|g gone IH]; intros scannedRows; cbn [fold_left existsb].
  - cbn. induction scannedRows as [|e c IHc]; cbn; [reflexivity | rewrite <- IHc; reflexivity].
  - rewrite IH. unfold unscan.
    induction scannedRows as [|e c IHc]; cbn [filter]; [reflexivity|].
    destruct (e =? g); cbn [negb filter orb].
    + exact IHc.
    + destruct (existsb (Z.eqb e) gone); cbn [negb]; rewrite IHc; reflexivity.
Qed.

Lemma rows_spec (startRow endRow r : Z) :
  existsb (Z.eqb r) (rows startRow endRow) = (startRow <=? r) && (r <=? endRow).
Proof.
  unfold rows. destruct ((startRow <=? r) && (r <=? endRow)) eqn:E.
  - apply andb_true_iff in E. destruct E as [E1 E2].
    apply Z.leb_le in E1, E2. apply existsb_exists. exists r. split; [|apply Z.eqb_refl].
    apply in_map_iff. exists (Z.to_nat (r - startRow)). split; [lia|].
    apply in_seq. lia.
  - destruct (existsb _ _) eqn:E'; [|reflexivity].
    apply existsb_exists in E'. destruct E' as (r' & Hin & Hr).
    apply Z.eqb_eq in Hr. subst r'. apply in_map_iff in Hin.
    destruct Hin as (i & Hi & Hs). apply in_seq in Hs.
    apply andb_false_iff in E. rewrite !Z.leb_gt in E. lia.
Qed.

Lemma touches_position (startRow endRow : Z) (link : Link) (col row : Z) :
  touches range startRow endRow link = false -> startRow <= row <= endRow ->
  isPositionInLink range col row link = false.
Proof.
  unfold touches, isPositionInLink.
  destruct (range link) as [[sx sy] [ex ey]]. cbn [start stop x y].
  intros Ht Hr. apply orb_false_iff in Ht. destruct Ht as [Ht H3].
  apply orb_false_iff in Ht. destruct Ht as [H1 H2].
  rewrite andb_false_iff in H1, H2, H3.
  rewrite !Z.geb_leb, !Z.leb_gt in H1, H2.
  rewrite Z.gtb_ltb, !Z.ltb_ge in H3.
  destruct ((row <? sy) || (row >? ey)) eqn:E; [reflexivity|].
  apply orb_false_iff in E. destruct E as [E1 E2].
  rewrite Z.gtb_ltb in E2. apply Z.ltb_ge in E1, E2. lia.
Qed.

(** X23. Invalidation of rows. [invalidateRows] takes out of the cache
    the links that touch a row of the range (they start or end on one, or
    go over all of them) and keeps the others, in their order; it forgets
    that the rows of the range were scanned, and these only. No position on
    a row of the range is in a link that is kept. *)
Theorem invalidateRows_takes_out (scannedRows : list Z) (linkCache : Cache Link)
    (startRow endRow : Z) :
  NoDup (map fst linkCache) ->
  snd (invalidateRows range scannedRows linkCache startRow endRow)
  = filter (fun entry => negb (touches range startRow endRow (snd entry))) linkCache
  /\ fst (invalidateRows range scannedRows linkCache startRow endRow)
     = filter (fun r => negb ((startRow <=? r) && (r <=? endRow))) scannedRows
  /\ forall entry col row,
       In entry (snd (invalidateRows range scannedRows linkCache startRow endRow)) ->
       startRow <= row <= endRow ->
       isPositionInLink range col row (snd entry) = false.
Proof.
  intros Hn.
  assert (Hc : snd (invalidateRows range scannedRows linkCache startRow endRow)
               = filter (fun entry => negb (touches range startRow endRow (snd entry)))
                        linkCache).
  { unfold invalidateRows. cbn [snd]. rewrite fold_delete.
    apply filter_ext_in. intros entry Hin. f_equal.
    destruct (touches range startRow endRow (snd entry)) eqn:Ht.
    - apply existsb_exists. exists (fst entry). split; [|apply Key_eqb_refl].
      apply in_map. apply filter_In. auto.
    - destruct (existsb _ _) eqn:E; [|reflexivity]. exfalso.
      apply existsb_exists in E. destruct E as (k & Hk & Ek).
      apply Key_eqb_eq in Ek. subst k.
      apply in_map_iff in Hk. destruct Hk as (other & Hf & Ho).
      apply filter_In in Ho. destruct Ho as [Ho Hto].
      assert (other = entry); [|subst; congruence].
      clear - Hn Hin Ho Hf. induction linkCache as [|e c IH]; [contradiction|].
      cbn [map] in Hn. inversion Hn as [|? ? Hne Hc]; subst.
      destruct Hin as [-> | Hin], Ho as [-> | Ho].
      + reflexivity.
      + exfalso. apply Hne. rewrite <- Hf. apply in_map. exact Ho.
      + exfalso. apply Hne. rewrite Hf. apply in_map. exact Hin.
      + apply IH; assumption. }
  split; [exact Hc|]. split.
  - unfold invalidateRows. cbn [fst]. rewrite fold_unscan.
    apply filter_ext. intros r. rewrite rows_spec. reflexivity.
  - intros entry col row Hin Hr. rewrite Hc in Hin. apply filter_In in Hin.
    destruct Hin as [_ Ht]. apply negb_true_iff in Ht.
    apply (touches_position startRow endRow); assumption.
Qed.

End LinkFacts.

(** A link on row 1 and a link from row 2 to row 4, cached in this order;
    rows 3 to 5 are invalidated. *)
Lemma invalidateRows_takes_out_witness :
  let on_row_1 := LinkDetector.mkRange (LinkDetector.mkPosition 0 1)
                                       (LinkDetector.mkPosition 9 1) in
  let rows_2_to_4 := LinkDetector.mkRange (LinkDetector.mkPosition 5 2)
                                          (LinkDetector.mkPosition 3 4) in
  let linkCache :=
    fold_left (LinkDetector.cacheLink (fun r => r)) [on_row_1; rows_2_to_4] [] in
  snd (LinkDetector.invalidateRows (fun r => r) [1; 2; 3; 4]%Z linkCache 3 5)
  = filter (fun entry => negb (LinkDetector.touches (fun r => r) 3 5 (snd entry)))
           linkCache
  /\ fst (LinkDetector.invalidateRows (fun r => r) [1; 2; 3; 4]%Z linkCache 3 5)
     = [1; 2]%Z.
Proof.
  cbv zeta.
  pose (linkCache :=
    fold_left (LinkDetector.cacheLink (fun r : LinkDetector.Range => r))
      [LinkDetector.mkRange (LinkDetector.mkPosition 0 1) (LinkDetector.mkPosition 9 1);
       LinkDetector.mkRange (LinkDetector.mkPosition 5 2) (LinkDetector.mkPosition 3 4)]
      []).
  destruct (invalidateRows_takes_out LinkDetector.Range (fun r => r)
              [1; 2; 3; 4]%Z linkCache 3 5) as (H1 & H2 & _).
  - apply fold_cacheLink_NoDup. constructor.
  - split; [exact H1|]. etransitivity; [exact H2 | reflexivity].
Defined.

Section ProviderFacts.

Import OSC8LinkProvider.

Variable y : Z.
Variable length : nat.
Variable getCell : nat -> option N.
Variable wasmTerm : option WasmTerm.

Abbreviation linked' := (linked y getCell wasmTerm).
Abbreviation right_link' := (right_link y length getCell wasmTerm).
Abbreviation scan' := (scan y getCell wasmTerm).
Abbreviation found' := (found y length getCell wasmTerm).
Abbreviation same' := (same y getCell).

Lemma extend_spec (w : WasmTerm) (uri : JSString) (fuel endX : nat) :
  let e := extend y getCell w uri (S endX) fuel endX in
  (endX <= e <= endX + fuel)%nat
  /\ (forall col, (endX < col <= e)%nat -> same' w uri col)
  /\ ((e < endX + fuel)%nat -> ~ same' w uri (S e)).
Proof.
  revert endX. induction fuel as [|fuel IH]; intros endX; cbn zeta; cbn [extend].
  - split; [lia|]. split; [intros col H; lia | lia].
  - destruct (getCell (S endX)) as [id|] eqn:Hc.
    + destruct (id =? 0) eqn:Hid.
      * apply N.eqb_eq in Hid. split; [lia|]. split; [intros col H; lia|].
        intros _ (id' & H1 & H2 & _). congruence.
      * apply N.eqb_neq in Hid.
        destruct (uri_of y w (S endX)) as [nextUri|] eqn:Hu.
        -- destruct (jsstring_eqb nextUri uri) eqn:E.
           ++ apply jsstring_eqb_eq in E. subst nextUri.
              destruct (IH (S endX)) as (H1 & H2 & H3).
              split; [lia|]. split.
              ** intros col Hcol. destruct (Nat.eq_dec col (S endX)) as [-> | Hne].
                 --- exists id. auto.
                 --- apply H2. lia.
              ** intros Hlt. apply H3. lia.
           ++ split; [lia|]. split; [intros col H; lia|].
              intros _ (id' & H1 & H2 & H3). rewrite Hu in H3. inversion H3. subst.
              rewrite jsstring_eqb_refl in E. discriminate.
        -- split; [lia|]. split; [intros col H; lia|].
           intros _ (id' & H1 & H2 & H3). congruence.
    + split; [lia|]. split; [intros col H; lia|].
      intros _ (id' & H1 & _). congruence.
Qed.

Lemma left_to_right_app (links : list Link) (link : Link) :
  left_to_right links ->
  Forall (fun p => (last_column p < first_column link)%Z) links ->
  left_to_right (links ++ [link]).
Proof.
  induction links as [|p links IH]; cbn [app left_to_right].
  - intros _ _. split; [constructor | exact I].
  - intros [Hp Hl] Hf. inversion Hf as [|? ? Hp' Hf']; subst. split.
    + apply Forall_app. split; [exact Hp | repeat constructor; exact Hp'].
    + apply IH; assumption.
Qed.

Lemma found_next (x : nat) (visitedPositions : list nat) (links : list Link) :
  found' x visitedPositions links ->
  (In x visitedPositions \/ forall uri, ~ linked' x uri) ->
  found' (S x) visitedPositions links.
Proof.
  intros (Ha & Hb & Hc & Hd & He) Hx.
  split; [exact Ha|]. split; [exact Hb|]. split; [exact Hc|]. split.
  - eapply Forall_impl; [|exact Hd]. cbv beta. intros link H. lia.
  - intros col uri Hcol Hl. destruct (Nat.eq_dec col x) as [-> | Hne].
    + destruct Hx as [Hv | Hn]; [apply Hc; exact Hv | exfalso; exact (Hn uri Hl)].
    + apply (He col uri); [lia | exact Hl].
Qed.

Lemma scan_spec (fuel x : nat) (visitedPositions : list nat) (links : list Link) :
  (x + fuel = length)%nat -> found' x visitedPositions links ->
  Forall right_link' (scan' x fuel visitedPositions links)
  /\ left_to_right (scan' x fuel visitedPositions links)
  /\ forall col uri, (col < length)%nat -> linked' col uri ->
       exists link, In link (scan' x fuel visitedPositions links) /\ covers link col.
Proof.
  revert x visitedPositions links.
  induction fuel as [|fuel IH]; intros x visited links Hlen Hf.
  - cbn [scan]. destruct Hf as (Ha & Hb & _ & _ & He).
    split; [exact Ha|]. split; [exact Hb|].
    intros col uri Hcol. apply He. lia.
  - assert (Hnext : forall visited' links', found' (S x) visited' links' ->
              Forall right_link' (scan' (S x) fuel visited' links')
              /\ left_to_right (scan' (S x) fuel visited' links')
              /\ forall col uri, (col < length)%nat -> linked' col uri ->
                   exists link, In link (scan' (S x) fuel visited' links')
                                /\ covers link col).
    { intros visited' links' Hf'. apply IH; [lia | exact Hf']. }
    cbn [scan].
    destruct (existsb (Nat.eqb x) visited) eqn:Hv.
    { apply Hnext. apply found_next; [exact Hf|]. left.
      apply existsb_exists in Hv. destruct Hv as (c & Hin & E).
      apply Nat.eqb_eq in E. subst. exact Hin. }
    assert (Hnv : ~ In x visited).
    { intros Hin. assert (existsb (Nat.eqb x) visited = true); [|congruence].
      apply existsb_exists. exists x. split; [exact Hin | apply Nat.eqb_refl]. }
    destruct (getCell x) as [id|] eqn:Hc.
    2:{ apply Hnext. apply found_next; [exact Hf|]. right.
        intros uri (id' & w & H1 & _). congruence. }
    destruct (id =? 0) eqn:Hid.
    { apply N.eqb_eq in Hid. apply Hnext. apply found_next; [exact Hf|]. right.
      intros uri (id' & w & H1 & H2 & _). congruence. }
    apply N.eqb_neq in Hid.
    assert (Hcase :
      (exists w c u, wasmTerm = Some w /\ uri_of y w x = Some (c :: u))
      \/ forall uri, ~ linked' x uri).
    { destruct wasmTerm as [w|] eqn:Hw.
      - destruct (uri_of y w x) as [[|c u]|] eqn:Hu.
        + right. intros uri (id' & w' & _ & _ & H3 & H4 & H5). congruence.
        + left. eauto.
        + right. intros uri (id' & w' & _ & _ & H3 & H4 & _). congruence.
      - right. intros uri (id' & w & _ & _ & H3 & _). discriminate. }
    destruct Hcase as [(w & c & u & Hw & Hu) | Hno].
    2:{ assert (Hgo : Forall right_link' (scan' (S x) fuel visited links)
                      /\ left_to_right (scan' (S x) fuel visited links)
                      /\ forall col uri, (col < length)%nat -> linked' col uri ->
                           exists link, In link (scan' (S x) fuel visited links)
                                        /\ covers link col).
        { apply Hnext. apply found_next; [exact Hf|]. right. exact Hno. }
        case_eq wasmTerm; [intros w Hw | intros Hw; rewrite <- Hw; exact Hgo].
        destruct (uri_of y w x) as [[|c u]|] eqn:Hu;
          [rewrite <- Hw; exact Hgo | | rewrite <- Hw; exact Hgo].
        exfalso. apply (Hno (c :: u)). exists id, w.
        repeat split; try assumption. discriminate. }
    rewrite Hw. cbv beta iota. rewrite Hu. cbv beta iota zeta. rewrite <- Hw.
    apply Hnext.
    pose proof (extend_spec w (c :: u) fuel x) as He. cbn zeta in He.
    set (e := extend y getCell w (c :: u) (S x) fuel x) in *.
    destruct He as (He1 & He2 & He3).
    destruct Hf as (Ha & Hb & Hcv & Hd & Hcov).
    assert (Hlinked : forall col, (x <= col <= e)%nat -> linked' col (c :: u)).
    { intros col Hcol. destruct (Nat.eq_dec col x) as [-> | Hne].
      - exists id, w. repeat split; try assumption. discriminate.
      - destruct (He2 col ltac:(lia)) as (id' & H1 & H2 & H3).
        exists id', w. repeat split; try assumption. discriminate. }
    assert (Hbefore : Forall (fun p => (last_column p < Z.of_nat x)%Z) links).
    { apply Forall_forall. intros p Hp.
      rewrite Forall_forall in Hd. specialize (Hd p Hp).
      destruct (Z_lt_ge_dec (last_column p) (Z.of_nat x)) as [Hlt | Hge]; [exact Hlt|].
      exfalso. apply Hnv. apply Hcv. exists p. split; [exact Hp|]. unfold covers. lia. }
    split; [|split; [|split; [|split]]].
    + apply Forall_app. split; [exact Ha|]. constructor; [|constructor].
      exists x, e. cbn [text link_on]. split; [reflexivity|]. split; [lia|].
      split; [exact Hlinked|].
      intros Hlt (id' & w' & H1 & H2 & H3 & H4 & _).
      assert (w' = w) by congruence. subst w'.
      apply He3; [lia|]. exists id'. auto.
    + apply left_to_right_app; [exact Hb|]. exact Hbefore.
    + intros col. rewrite in_app_iff, in_seq, Hcv. split.
      * intros [(p & Hp & Hc') | Hr].
        -- exists p. split; [apply in_or_app; auto | exact Hc'].
        -- exists (link_on y (c :: u) x e). split; [apply in_or_app; right; left; reflexivity|].
           unfold covers, first_column, last_column. cbn. lia.
      * intros (p & Hp & Hc'). apply in_app_or in Hp. destruct Hp as [Hp | [<- | []]].
        -- left. exists p. auto.
        -- right. unfold covers, first_column, last_column in Hc'. cbn in Hc'. lia.
    + apply Forall_app. split.
      * eapply Forall_impl; [|exact Hd]. cbv beta. intros p H. lia.
      * constructor; [|constructor]. unfold first_column. cbn. lia.
    + intros col uri Hcol Hl. destruct (Nat.eq_dec col x) as [-> | Hne].
      * exists (link_on y (c :: u) x e). split; [apply in_or_app; right; left; reflexivity|].
        unfold covers, first_column, last_column. cbn. lia.
      * destruct (Hcov col uri ltac:(lia) Hl) as (p & Hp & Hc').
        exists p. split; [apply in_or_app; auto | exact Hc'].
Qed.

Lemma linked_one (col : nat) (uri uri' : JSString) :
  linked' col uri -> linked' col uri' -> uri = uri'.
Proof.
  intros (id & w & _ & _ & Hw & Hu & _) (id' & w' & _ & _ & Hw' & Hu' & _).
  congruence.
Qed.

Lemma scan_row (links := scan' 0 length [] []) :
  Forall right_link' links
  /\ left_to_right links
  /\ (forall col uri, (col < length)%nat -> linked' col uri ->
        exists link, In link links /\ covers link col /\ text link = uri).
Proof.
  subst links.
  assert (H0 : found' 0 [] []).
  { split; [constructor|]. split; [exact I|]. split.
    - intros col. split; [intros [] | intros (l & [] & _)].
    - split; [constructor | intros col uri H; lia]. }
  destruct (scan_spec length 0 [] [] eq_refl H0) as (Ha & Hb & Hc).
  split; [exact Ha|]. split; [exact Hb|].
  intros col uri Hcol Hl. destruct (Hc col uri Hcol Hl) as (link & Hin & Hcv).
  exists link. split; [exact Hin|]. split; [exact Hcv|].
  rewrite Forall_forall in Ha. destruct (Ha link Hin) as (f & l & E & Hr & Hall & _).
  apply (linked_one col); [|exact Hl]. apply Hall.
  unfold covers, first_column, last_column in Hcv. rewrite E in Hcv. cbn in Hcv. lia.
Qed.

(** X24. The links of a row. The links that the OSC 8 provider finds on a
    row are right: each is on the row and inside the line, every cell from
    its first to its last column has a hyperlink with the URI of the link,
    and the cell behind its last column has not. They come from left to
    right and none reaches the next. Every cell of the line that has a
    hyperlink with a URI is in one of them, under that URI. The callback is
    given undefined exactly when no cell has one. *)
Theorem provideLinks_finds_links :
  Forall right_link' (scan' 0 length [] [])
  /\ left_to_right (scan' 0 length [] [])
  /\ (forall col uri, (col < length)%nat -> linked' col uri ->
        exists link, In link (scan' 0 length [] []) /\ covers link col /\ text link = uri)
  /\ (provideLinks y length getCell wasmTerm = None
      <-> forall col uri, (col < length)%nat -> ~ linked' col uri).
Proof.
  destruct scan_row as (Ha & Hb & Hcov).
  split; [exact Ha|]. split; [exact Hb|]. split; [exact Hcov|].
  unfold provideLinks. split.
  - destruct (scan' 0 length [] []) as [|link links] eqn:E; [|discriminate].
    intros _ col uri Hcol Hl. destruct (Hcov col uri Hcol Hl) as (l & [] & _).
  - intros Hno. destruct (scan' 0 length [] []) as [|link links] eqn:E; [reflexivity|].
    exfalso. inversion Ha as [|? ? Hr _]; subst.
    destruct Hr as (f & l & _ & Hr & Hall & _).
    apply (Hno f (text link)); [lia | apply Hall; lia].
Qed.

End ProviderFacts.

Section DetectorFacts.

Import LinkDetector Detector.

Variable Link : Type.
Variable range : Link -> Range.
Variable getLine : Z -> option Terminal.Line.

Lemma fold_cacheLink_grows (links : list Link) (linkCache : Cache Link) :
  exists more, fold_left (cacheLink range) links linkCache = linkCache ++ more.
Proof.
  revert linkCache. induction links as [|link links IH]; intros linkCache; cbn [fold_left].
  - exists []. rewrite app_nil_r. reflexivity.
  - destruct (IH (cacheLink range linkCache link)) as (more & E). rewrite E.
    unfold cacheLink. destruct (has linkCache (cacheKey range link)).
    + exists more. reflexivity.
    + exists ((cacheKey range link, link) :: more). rewrite <- app_assoc. reflexivity.
Qed.

Lemma existsb_add (scannedRows : list Z) (row : Z) :
  existsb (Z.eqb row) (add scannedRows row) = true.
Proof.
  unfold add. destruct (existsb (Z.eqb row) scannedRows) eqn:E; [exact E|].
  rewrite existsb_app. cbn. rewrite Z.eqb_refl. apply orb_true_r.
Qed.

Lemma cached_at_sound (linkCache : Cache Link) (col row : Z) (link : Link) :
  cached_at range linkCache col row = Some link ->
  isPositionInLink range col row link = true /\ In link (map snd linkCache).
Proof.
  unfold cached_at. destruct (find _ linkCache) as [entry|] eqn:E; [|discriminate].
  intros H. inversion H. subst. apply find_some in E. destruct E as [Hin Hp].
  split; [exact Hp | apply in_map; exact Hin].
Qed.

(** X25. Asking the detector. Whatever [getLinkAt] answers, the position
    asked for is in the link it gives and the link is in the cache; the
    cache has kept all its entries in their order, and the providers are
    as they were. Asked again at once for the same position, the detector
    gives the same answer and stays as it is: the row is not scanned a
    second time. *)
Theorem getLinkAt_again (s : State Link) (col row : Z) :
  let s' := fst (getLinkAt range getLine s col row) in
  let answer := snd (getLinkAt range getLine s col row) in
  getLinkAt range getLine s' col row = (s', answer)
  /\ (forall link, answer = Some link ->
        isPositionInLink range col row link = true /\ In link (map snd (linkCache s')))
  /\ (exists more, linkCache s' = linkCache s ++ more)
  /\ providers s' = providers s.
Proof.
  cbv zeta. unfold getLinkAt.
  destruct (getLine row) as [line|] eqn:Hl.
  2:{ cbn [fst snd]. split; [reflexivity|]. split; [discriminate|].
      split; [exists []; rewrite app_nil_r|]; reflexivity. }
  destruct ((col <? 0) || (col >=? Z.of_nat (Terminal.length line)))%Z eqn:Hc.
  { cbn [fst snd]. rewrite ?Hc. split; [reflexivity|]. split; [discriminate|].
    split; [exists []; rewrite app_nil_r|]; reflexivity. }
  destruct (Terminal.getCell line (Z.to_nat col)) as [id|] eqn:Hg.
  2:{ cbn [fst snd]. rewrite ?Hc, ?Hg. split; [reflexivity|]. split; [discriminate|].
      split; [exists []; rewrite app_nil_r|]; reflexivity. }
  destruct (cached_at range (linkCache s) col row) as [link|] eqn:Hf.
  { cbn [fst snd]. rewrite ?Hc, ?Hg, ?Hf. split; [reflexivity|]. split.
    - intros l E. inversion E. subst. apply cached_at_sound. exact Hf.
    - split; [exists []; rewrite app_nil_r|]; reflexivity. }
  cbn [fst snd]. rewrite ?Hc, ?Hg.
  destruct (scanned s row) eqn:Hs.
  { cbn [fst snd]. rewrite ?Hf, ?Hs. cbn [fst snd]. rewrite ?Hf.
    split; [reflexivity|]. split; [discriminate|].
    split; [exists []; rewrite app_nil_r|]; reflexivity. }
  split; [|split; [|split]].
  - destruct (cached_at range (linkCache (scanRow range s row)) col row) eqn:Hf';
      [reflexivity|].
    assert (Hs' : scanned (scanRow range s row) row = true).
    { unfold scanned. cbn [scanRow scannedRows]. apply existsb_add. }
    rewrite Hs', Hf'. reflexivity.
  - intros link E. apply cached_at_sound. exact E.
  - cbn [scanRow linkCache]. apply fold_cacheLink_grows.
  - reflexivity.
Qed.

End DetectorFacts.

Section Osc8First.

Import LinkDetector Detector OSC8LinkProvider.

Variable getLine : Z -> option Terminal.Line.
Variable wasmTerm : option WasmTerm.

Lemma fold_cacheLink_distinct (links : list Link) (linkCache : Cache Link) :
  NoDup (map (cacheKey range) links) ->
  (forall link, In link links -> has linkCache (cacheKey range link) = false) ->
  fold_left (cacheLink range) links linkCache
  = linkCache ++ map (fun link => (cacheKey range link, link)) links.
Proof.
  revert linkCache. induction links as [|link links IH]; intros linkCache Hn Hnot;
    cbn [fold_left map].
  - rewrite app_nil_r. reflexivity.
  - inversion Hn as [|? ? Hnin Hn']; subst.
    unfold cacheLink at 2. rewrite (Hnot link (or_introl eq_refl)).
    rewrite IH; [rewrite <- app_assoc; reflexivity | exact Hn' |].
    intros l Hl. unfold has. rewrite existsb_app. cbn [existsb fst].
    fold (has linkCache (cacheKey range l)). rewrite (Hnot l (or_intror Hl)).
    cbn [orb]. rewrite orb_false_r.
    destruct (Key_eqb (cacheKey range link) (cacheKey range l)) eqn:E; [|reflexivity].
    exfalso. apply Hnin. destruct (cacheKey range link) as [[a1 a2] a3].
    destruct (cacheKey range l) as [[b1 b2] b3] eqn:El. cbn [Key_eqb] in E.
    rewrite !andb_true_iff, !Z.eqb_eq in E. destruct E as [[-> ->] ->].
    rewrite <- El. apply in_map. exact Hl.
Qed.

Lemma left_to_right_keys (links : list Link) :
  Forall (fun link => (first_column link <= last_column link)%Z) links ->
  left_to_right links -> NoDup (map (cacheKey range) links).
Proof.
  induction links as [|link links IH]; cbn [map left_to_right]; intros Hw Hl.
  - constructor.
  - inversion Hw as [|? ? Hw1 Hw2]; subst. destruct Hl as [Hf Hl]. constructor.
    + intros Hin. apply in_map_iff in Hin. destruct Hin as (l & E & Hin).
      rewrite Forall_forall in Hf, Hw2. specialize (Hf l Hin). specialize (Hw2 l Hin).
      unfold cacheKey, first_column, last_column in *. inversion E. lia.
    + apply IH; assumption.
Qed.

Lemma find_app_first {A : Type} (f : A -> bool) (l1 l2 : list A) :
  (exists a, In a l1 /\ f a = true) ->
  exists b, find f (l1 ++ l2) = Some b /\ In b l1 /\ f b = true.
Proof.
  induction l1 as [|a l1 IH]; intros (c & Hin & Hc); [destruct Hin|].
  cbn [app find]. destruct (f a) eqn:E.
  - exists a. split; [reflexivity|]. split; [left; reflexivity | exact E].
  - destruct Hin as [-> | Hin]; [congruence|].
    destruct IH as (b & H1 & H2 & H3); [exists c; auto|].
    exists b. split; [exact H1|]. split; [right; exact H2 | exact H3].
Qed.

Lemma osc8_links (row : Z) (line : Terminal.Line) :
  getLine row = Some line ->
  match osc8 getLine wasmTerm row with
  | Some links => links
  | None => []
  end = scan row (Terminal.getCell line) wasmTerm 0 (Terminal.length line) [] [].
Proof.
  intros Hl. unfold osc8, provideLinks. rewrite Hl.
  destruct (scan _ _ _ _ _ _ _); reflexivity.
Qed.

Lemma right_link_position (row : Z) (line : Terminal.Line) (link : Link) (col : nat) :
  right_link row (Terminal.length line) (Terminal.getCell line) wasmTerm link ->
  isPositionInLink range (Z.of_nat col) row link = true <-> covers link col.
Proof.
  intros (f & l & E & Hr & _). unfold covers, first_column, last_column, isPositionInLink.
  rewrite E. cbn [range link_on start stop x y].
  rewrite Z.ltb_irrefl, Z.gtb_ltb, Z.ltb_irrefl, Z.eqb_refl. cbn [orb].
  rewrite andb_true_iff, Z.geb_le, Z.leb_le. lia.
Qed.

(** X26. The OSC 8 provider first. On a detector whose first provider is
    the OSC 8 provider and whose cache has just been invalidated, asking
    for a cell that has a hyperlink with a URI gives a link: the right
    link of the OSC 8 provider that holds the cell, with the URI of the
    cell, whatever the links of the later providers are. *)
Theorem getLinkAt_osc8_first (s : State Link) (later : list (Provider Link))
    (row : Z) (line : Terminal.Line) (col : nat) (uri : JSString) :
  providers s = osc8 getLine wasmTerm :: later ->
  getLine row = Some line ->
  (col < Terminal.length line)%nat ->
  linked row (Terminal.getCell line) wasmTerm col uri ->
  exists link s',
    getLinkAt range getLine (invalidateCache s) (Z.of_nat col) row = (s', Some link)
    /\ text link = uri
    /\ covers link col
    /\ right_link row (Terminal.length line) (Terminal.getCell line) wasmTerm link.
Proof.
  intros Hp Hl Hcol Hlinked.
  destruct (scan_row row (Terminal.length line) (Terminal.getCell line) wasmTerm)
    as (Ha & Hb & Hcov).
  set (links := scan row (Terminal.getCell line) wasmTerm 0 (Terminal.length line) [] [])
    in *.
  unfold getLinkAt. rewrite Hl.
  assert (Hin : ((Z.of_nat col <? 0) || (Z.of_nat col >=? Z.of_nat (Terminal.length line))
                 = false)%Z).
  { apply orb_false_iff. rewrite Z.ltb_ge, Z.geb_leb, Z.leb_gt. lia. }
  rewrite Hin, Nat2Z.id.
  destruct Hlinked as (id & w & Hg & Hlinked). rewrite Hg.
  assert (Hagain : linked row (Terminal.getCell line) wasmTerm col uri).
  { exists id, w. split; [exact Hg | exact Hlinked]. }
  cbn [invalidateCache linkCache cached_at find option_map].
  unfold scanned. cbn [invalidateCache scannedRows existsb].
  cbn [scanRow linkCache providers invalidateCache]. rewrite Hp. cbn [flat_map].
  rewrite (osc8_links row line Hl). fold links.
  rewrite fold_left_app.
  rewrite (fold_cacheLink_distinct links []).
  2:{ apply left_to_right_keys; [|exact Hb].
      eapply Forall_impl; [|exact Ha]. intros l (f & la & E & Hr & _).
      unfold first_column, last_column. rewrite E. cbn. lia. }
  2:{ intros l _. reflexivity. }
  cbn [app].
  destruct (fold_cacheLink_grows Link range
              (flat_map (fun provider : Provider Link =>
                           match provider row with
                           | Some links => links
                           | None => []
                           end) later)
              (map (fun link => (cacheKey range link, link)) links)) as (more & E).
  rewrite E. unfold cached_at.
  destruct (Hcov col uri Hcol Hagain) as (link & Hlin & Hcv & Ht).
  rewrite Forall_forall in Ha.
  destruct (find_app_first
              (fun entry : Key * Link =>
                 isPositionInLink range (Z.of_nat col) row (snd entry))
              (map (fun link => (cacheKey range link, link)) links) more)
    as (entry & Hfind & Hentry & Hpos).
  { exists (cacheKey range link, link). split.
    - apply in_map_iff. exists link. auto.
    - cbn [snd]. apply (right_link_position row line); [apply Ha; exact Hlin | exact Hcv]. }
  apply in_map_iff in Hentry. destruct Hentry as (found_link & <- & Hfl).
  cbn [snd] in Hpos.
  apply (right_link_position row line) in Hpos; [|apply Ha; exact Hfl].
  exists found_link. eexists. rewrite Hfind. cbn [option_map snd].
  split; [reflexivity|]. split; [|split; [exact Hpos | apply Ha; exact Hfl]].
  destruct (Ha found_link Hfl) as (f & la & Ef & Hr & Hall & _).
  apply (linked_one row (Terminal.getCell line) wasmTerm col); [|exact Hagain].
  apply Hall. unfold covers, first_column, last_column in Hpos.
  rewrite Ef in Hpos. cbn in Hpos. lia.
Qed.

End Osc8First.

Lemma getLinkAt_osc8_first_witness :
  exists link s',
    Detector.getLinkAt OSC8LinkProvider.range
      (fun r => if (r =? 0)%Z
                then Some (Terminal.mkLine 3 (fun c => if (c <? 3)%nat then Some 1 else None))
                else None)
      (Detector.invalidateCache
         (Detector.mkState OSC8LinkProvider.Link
            [Detector.osc8
               (fun r => if (r =? 0)%Z
                         then Some (Terminal.mkLine 3
                                      (fun c => if (c <? 3)%nat then Some 1 else None))
                         else None)
               (Some (OSC8LinkProvider.mkWasmTerm (fun _ _ => Some (js "u"))
                                                  (fun _ _ => None) 0%Z))]
            [] []))
      (Z.of_nat 1) 0%Z = (s', Some link)
    /\ OSC8LinkProvider.text link = js "u"
    /\ OSC8LinkProvider.covers link 1
    /\ OSC8LinkProvider.right_link 0%Z 3 (fun c => if (c <? 3)%nat then Some 1 else None)
         (Some (OSC8LinkProvider.mkWasmTerm (fun _ _ => Some (js "u"))
                                            (fun _ _ => None) 0%Z))
         link.
Proof.
  apply (getLinkAt_osc8_first
           (fun r => if (r =? 0)%Z
                     then Some (Terminal.mkLine 3
                                  (fun c => if (c <? 3)%nat then Some 1 else None))
                     else None)
           (Some (OSC8LinkProvider.mkWasmTerm (fun _ _ => Some (js "u"))
                                              (fun _ _ => None) 0%Z))
           _ [] 0%Z
           (Terminal.mkLine 3 (fun c => if (c <? 3)%nat then Some 1 else None))
           1%nat (js "u")).
  - reflexivity.
  - reflexivity.
  - cbn. lia.
  - exists 1, (OSC8LinkProvider.mkWasmTerm (fun _ _ => Some (js "u")) (fun _ _ => None) 0%Z).
    repeat split; try reflexivity; discriminate.
Defined.
